(** * ZisK distributed console: the REST-to-gRPC gateway

    A shallow embedding of the admission and supervision logic of
    [distributed-console/gateway-server.cjs]: the validators, the
    error sanitizer, the per-client rate limiter, the gRPC call wrapper,
    the launch, job and proof file endpoints, the discovery at start-up
    and the process supervisor with its process listing, together with
    the properties the specification states about them and further
    properties of the code. *)

From Stdlib Require Import ZArith NArith Bool String Ascii DecimalString DecimalPos.
From stdpp Require Import gmap list.

Local Open Scope Z_scope.

(** ** JavaScript values *)

(** A JavaScript string is a sequence of UTF-16 code units; [length],
    [includes], [startsWith], [substring] and character classes of regular
    expressions without the [u] flag all work on code units. *)
Definition code_unit := N.
Bind Scope N_scope with code_unit.
Definition jsstring := list code_unit.

Definition lit (s : string) : jsstring :=
  map N_of_ascii (list_ascii_of_string s).

(** [Number.MAX_SAFE_INTEGER]: up to it the integers are numbers of the
    language and print as their decimal digits. *)
Definition MAX_SAFE_INTEGER : Z := 9007199254740991.

(** Decimal rendering of an integral number, as [String(n)] gives it. *)
Definition dec (z : Z) : jsstring :=
  lit (NilZero.string_of_int (Z.to_int z)).

(** The values a JSON body or a route parameter can hold.  Numbers are the
    integral ones up to [MAX_SAFE_INTEGER] in absolute value, where the
    arithmetic and the printing of the language are exact; a [VNum] beyond
    that stands for no value of the language, and the properties that read
    or print a number carry the bound.  [NaN] only arises as the result of a
    conversion and is the [None] of [option Z] there.  [VObj] is an object
    that is no array and converts to a string as objects do by default (it
    has no member called [toString]); [VArr] is an array. *)
#[warnings="-register-all"]
Inductive jsval :=
| VUndefined
| VNull
| VBool (b : bool)
| VNum (z : Z)
| VStr (s : jsstring)
| VObj
| VArr (elems : list jsval).

Definition is_empty (s : jsstring) : bool :=
  match s with [] => true | _ => false end.

(** [!!v] *)
Definition truthy (v : jsval) : bool :=
  match v with
  | VUndefined | VNull => false
  | VBool b => b
  | VNum z => negb (z =? 0)
  | VStr s => negb (is_empty s)
  | VObj => true
  | VArr _ => true
  end.

Definition jsstring_eqb (a b : jsstring) : bool := bool_decide (a = b).

(** [s.startsWith(p)] *)
Fixpoint startsWith (s p : jsstring) {struct p} : bool :=
  match p, s with
  | [], _ => true
  | _ :: _, [] => false
  | a :: p', b :: s' => (a =? b)%N && startsWith s' p'
  end.

(** [s.includes(needle)] *)
Fixpoint includes (s needle : jsstring) : bool :=
  startsWith s needle ||
  match s with
  | [] => false
  | _ :: s' => includes s' needle
  end.

(** [parts.join(sep)] *)
Fixpoint join (sep : jsstring) (parts : list jsstring) : jsstring :=
  match parts with
  | [] => []
  | [p] => p
  | p :: rest => p ++ sep ++ join sep rest
  end.

(** ** Character classes and anchored regular expressions *)

Definition in_range (lo hi c : code_unit) : bool :=
  ((lo <=? c) && (c <=? hi))%N.

Definition is_digit (c : code_unit) : bool := in_range 48 57 c.
Definition is_lower (c : code_unit) : bool := in_range 97 122 c.
Definition is_upper (c : code_unit) : bool := in_range 65 90 c.

(** [[a-zA-Z0-9_-]] *)
Definition id_class (c : code_unit) : bool :=
  is_lower c || is_upper c || is_digit c || (c =? 95)%N || (c =? 45)%N.

(** [[a-zA-Z0-9/._-]] *)
Definition path_class (c : code_unit) : bool :=
  is_lower c || is_upper c || is_digit c
  || (c =? 47)%N || (c =? 46)%N || (c =? 95)%N || (c =? 45)%N.

(** [/^[cls]+$/.test(s)]: without the [m] flag [^] and [$] match only at
    the two ends of the input, so the whole string is one or more
    characters of the class. *)
Definition test_class_plus (cls : code_unit -> bool) (s : jsstring) : bool :=
  match s with
  | [] => false
  | c :: rest => cls c && forallb cls rest
  end.

(** [/^\/[cls]+$/]: a slash followed by one or more characters of the class. *)
Definition test_slash_class_plus (cls : code_unit -> bool) (s : jsstring) : bool :=
  match s with
  | c :: rest => (c =? 47)%N && test_class_plus cls rest
  | [] => false
  end.

(** ** Configuration, read once from the environment at start-up *)

Record config := {
  DEBUG : bool;
  MAX_CAPACITY : Z;
  ALLOWED_INPUT_PATHS : option (list jsstring);
  RATE_LIMIT_WINDOW_MS : Z;
  RATE_LIMIT_MAX_REQUESTS : Z
}.

(** The values the gateway runs with when no variable is set. *)
Definition default_config : config := {|
  DEBUG := false;
  MAX_CAPACITY := 1000;
  ALLOWED_INPUT_PATHS := None;
  RATE_LIMIT_WINDOW_MS := 60000;
  RATE_LIMIT_MAX_REQUESTS := 10
|}.

(** ** Validators *)

(** [{ valid: true }] or [{ valid: false, error }]. *)
Inductive validation :=
| Valid
| Invalid (error : jsstring).

Definition is_valid (v : validation) : bool :=
  match v with Valid => true | Invalid _ => false end.

Definition reserved_literals : list jsstring :=
  [lit "undefined"; lit "null"; lit "true"; lit "false"].

Definition validateJobId (jobId : jsval) : validation :=
  match jobId with
  | VStr s =>
      if negb (truthy jobId) then
        Invalid (lit "Job ID is required and must be a string")
      else if (length s =? 0)%nat || (128 <? length s)%nat then
        Invalid (lit "Job ID must be between 1 and 128 characters")
      else if negb (test_class_plus id_class s) then
        Invalid (lit "Job ID contains invalid characters. Only alphanumeric, underscore, and hyphen are allowed")
      else if jsstring_eqb s (lit "undefined") || jsstring_eqb s (lit "null")
              || jsstring_eqb s (lit "true") || jsstring_eqb s (lit "false") then
        Invalid (lit "Invalid job ID format")
      else Valid
  | _ => Invalid (lit "Job ID is required and must be a string")
  end.

Section Validators.

Variable cfg : config.

(** [path.resolve] of Node's [path] module: the absolute, normalised form
    of a path relative to the working directory of the gateway. *)
Variable path_resolve : jsstring -> jsstring.

Definition validatePath (pathValue : jsval) (pathType : jsstring) : validation :=
  match pathValue with
  | VStr s =>
      if negb (truthy pathValue) then
        Invalid (lit "Path is required and must be a string")
      else if (length s =? 0)%nat || (512 <? length s)%nat then
        Invalid (lit "Path must be between 1 and 512 characters")
      else if includes s (lit "..") || includes s (lit "//") then
        Invalid (lit "Path contains invalid characters (.. or //). Path traversal is not allowed")
      else if negb (test_class_plus path_class s) then
        Invalid (lit "Path contains invalid characters. Only alphanumeric, slashes, dots, underscores, and hyphens are allowed")
      else if startsWith s (lit "/") && negb (test_slash_class_plus path_class s) then
        Invalid (lit "Absolute path must start with a valid directory name")
      else
        match ALLOWED_INPUT_PATHS cfg with
        | Some roots =>
            if jsstring_eqb pathType (lit "input") then
              let normalizedPath := path_resolve s in
              let allowed :=
                existsb (fun allowedPath =>
                           startsWith normalizedPath (path_resolve allowedPath))
                        roots in
              if negb allowed then
                Invalid (lit "Input path must be within allowed directories: "
                         ++ join (lit ", ") roots)
              else Valid
            else Valid
        | None => Valid
        end
  | _ => Invalid (lit "Path is required and must be a string")
  end.

End Validators.

(** [String(v)].  An array prints its elements with commas in between, an
    element that is [null] or [undefined] as nothing.  A number prints as
    its decimal digits, as the language prints an integer below 1e21; from
    there on the language prints an exponent, which this definition does not
    follow. *)
Fixpoint ToString (v : jsval) : jsstring :=
  match v with
  | VUndefined => lit "undefined"
  | VNull => lit "null"
  | VBool b => if b then lit "true" else lit "false"
  | VNum z => dec z
  | VStr s => s
  | VObj => lit "[object Object]"
  | VArr elems =>
      join (lit ",")
        (map (fun e => match e with
                       | VUndefined | VNull => []
                       | _ => ToString e
                       end) elems)
  end.

(** ** Numeric conversions *)

Section NumericConversions.

(** [Number(s)] on a string, the [StringToNumber] of the language
    (decimal, hexadecimal and exponent literals, surrounding white space);
    [None] is [NaN]. *)
Variable StringToNumber : jsstring -> option Z.

(** [Number(v)] on the values of the model, whose numbers are integers.  An
    array goes through its [ToString]: [[5]] converts as the string "5" does
    and [[]] as the empty string. *)
Definition ToNumber (v : jsval) : option Z :=
  match v with
  | VUndefined => None
  | VNull => Some 0
  | VBool b => Some (if b then 1 else 0)
  | VNum z => Some z
  | VStr s => StringToNumber s
  | VObj => None
  | VArr _ => StringToNumber (ToString v)
  end.

Variable cfg : config.

Definition validateComputeCapacity (capacity : jsval) : validation :=
  match ToNumber capacity with
  | None => Invalid (lit "Compute capacity must be a number greater than 0")
  | Some num =>
      if num <? 1 then
        Invalid (lit "Compute capacity must be a number greater than 0")
      else if MAX_CAPACITY cfg <? num then
        Invalid (lit "Compute capacity exceeds maximum allowed ("
                 ++ dec (MAX_CAPACITY cfg)
                 ++ lit " CU). Please reduce the capacity requirement.")
      else Valid
  end.

End NumericConversions.

(** White space and line terminators skipped by [parseInt]. *)
Definition is_js_whitespace (c : code_unit) : bool :=
  in_range 9 13 c || (c =? 32)%N || (c =? 160)%N || (c =? 5760)%N
  || in_range 8192 8202 c || (c =? 8232)%N || (c =? 8233)%N
  || (c =? 8239)%N || (c =? 8287)%N || (c =? 12288)%N || (c =? 65279)%N.

Fixpoint skip_whitespace (s : jsstring) : jsstring :=
  match s with
  | c :: rest => if is_js_whitespace c then skip_whitespace rest else s
  | [] => []
  end.

(** The longest prefix of decimal digits and what follows it. *)
Fixpoint span_digits (s : jsstring) : jsstring * jsstring :=
  match s with
  | c :: rest =>
      if is_digit c then
        let '(ds, tl) := span_digits rest in (c :: ds, tl)
      else ([], s)
  | [] => ([], [])
  end.

Definition digit_value (c : code_unit) : Z := Z.of_N (c - 48).

Definition digits_value (ds : jsstring) : Z :=
  fold_left (fun acc c => 10 * acc + digit_value c) ds 0.

(** An optional sign in front of a number. *)
Definition split_sign (s : jsstring) : Z * jsstring :=
  match s with
  | 45%N :: rest => (-1, rest)
  | 43%N :: rest => (1, rest)
  | _ => (1, s)
  end.

(** [parseInt(s, 10)] on a string: leading white space, an optional sign,
    then the longest run of digits; [NaN] when that run is empty.  The value
    is the exact one, which is what the language gives up to
    [MAX_SAFE_INTEGER]; above it the language rounds to the nearest number
    it has, which this definition does not follow. *)
Definition parseInt_string (s : jsstring) : option Z :=
  let s1 := skip_whitespace s in
  let '(sign, s2) := split_sign s1 in
  match fst (span_digits s2) with
  | [] => None
  | ds => Some (sign * digits_value ds)
  end.

(** [parseInt(v, 10)] *)
Definition parseInt (v : jsval) : option Z := parseInt_string (ToString v).

(** ** Rate limiter *)

Record rate_record := { count : Z; resetTime : Z }.

(** The part of an Express request the gateway reads. *)
Record request (Body : Type) := {
  req_ip : option jsstring;
  req_remoteAddress : option jsstring;
  req_forwarded_for : option jsstring;
  req_user_agent : option jsstring;
  req_body : Body
}.
Arguments req_ip {Body}.
Arguments req_remoteAddress {Body}.
Arguments req_forwarded_for {Body}.
Arguments req_user_agent {Body}.
Arguments req_body {Body}.

(** [a || b] on a possibly absent string: the empty string is falsy. *)
Definition str_or (a : option jsstring) (b : jsstring) : jsstring :=
  match a with
  | Some (c :: s) => c :: s
  | _ => b
  end.

(** [req.ip || req.connection.remoteAddress || 'unknown'] *)
Definition client_key {Body} (req : request Body) : jsstring :=
  str_or (req_ip req) (str_or (req_remoteAddress req) (lit "unknown")).

(** What a middleware does with a request: hand it on or answer it. *)
Inductive admission :=
| Next
| Reject (status : Z) (error : jsstring).

(** The digits after the point for [r] thousandths, [0 < r < 1000], without
    trailing zeros. *)
Definition render_fraction (r : Z) : jsstring :=
  if r mod 100 =? 0 then dec (r / 100)
  else if r mod 10 =? 0 then
    (if r <? 100 then lit "0" else []) ++ dec (r / 10)
  else
    (if r <? 10 then lit "00" else if r <? 100 then lit "0" else []) ++ dec r.

(** A non-negative number of milliseconds in seconds: the whole seconds,
    then the milliseconds as a fraction when there are any. *)
Definition render_magnitude (ms : Z) : jsstring :=
  let q := ms / 1000 in
  let r := ms mod 1000 in
  if r =? 0 then dec q else dec q ++ lit "." ++ render_fraction r.

(** [RATE_LIMIT_WINDOW_MS / 1000] as the template literal prints it: a minus
    sign for a negative window, then the seconds.  The quotient of the
    language is a floating point number; it prints with these digits as long
    as the window is below 2^43 seconds, where neighbouring numbers are less
    than a thousandth apart. *)
Definition render_seconds (ms : Z) : jsstring :=
  if ms <? 0 then lit "-" ++ render_magnitude (- ms) else render_magnitude ms.

Section RateLimiter.

Variable cfg : config.

Definition rate_limit_message : jsstring :=
  lit "Rate limit exceeded. Maximum " ++ dec (RATE_LIMIT_MAX_REQUESTS cfg)
  ++ lit " requests per " ++ render_seconds (RATE_LIMIT_WINDOW_MS cfg)
  ++ lit " seconds. Please try again later.".

(** [rateLimit(req, res, next)] on the shared [rateLimitMap], at the time
    [now] that [Date.now()] returns. *)
Definition rateLimit (key : jsstring) (now : Z)
    (rateLimitMap : gmap jsstring rate_record)
  : gmap jsstring rate_record * admission :=
  match rateLimitMap !! key with
  | None =>
      (<[key := {| count := 1; resetTime := now + RATE_LIMIT_WINDOW_MS cfg |}]> rateLimitMap,
       Next)
  | Some record =>
      if resetTime record <? now then
        (<[key := {| count := 1; resetTime := now + RATE_LIMIT_WINDOW_MS cfg |}]> rateLimitMap,
         Next)
      else if RATE_LIMIT_MAX_REQUESTS cfg <=? count record then
        (rateLimitMap, Reject 429 rate_limit_message)
      else
        (<[key := {| count := count record + 1; resetTime := resetTime record |}]> rateLimitMap,
         Next)
  end.

(** The periodic sweep installed with [setInterval]. *)
Definition sweep (now : Z) (rateLimitMap : gmap jsstring rate_record)
  : gmap jsstring rate_record :=
  filter (fun kv => ¬ (resetTime (snd kv) < now)) rateLimitMap.

(** What can touch the map: a request of some client, or the sweep. *)
Inductive rl_event :=
| Request (key : jsstring) (now : Z)
| Sweep (now : Z).

(** Runs the events in order; returns the final map and the admission
    decisions, one per request. *)
Fixpoint run_rate_limiter (evs : list rl_event)
    (m : gmap jsstring rate_record)
  : gmap jsstring rate_record * list (jsstring * admission) :=
  match evs with
  | [] => (m, [])
  | Request key now :: rest =>
      let '(m1, a) := rateLimit key now m in
      let '(m2, out) := run_rate_limiter rest m1 in
      (m2, (key, a) :: out)
  | Sweep now :: rest => run_rate_limiter rest (sweep now m)
  end.

End RateLimiter.

(** ** Errors and their sanitization *)

(** Status codes of [grpc.status] in [@grpc/grpc-js]. *)
Module grpc_status.
Definition OK : Z := 0.
Definition CANCELLED : Z := 1.
Definition INVALID_ARGUMENT : Z := 3.
Definition DEADLINE_EXCEEDED : Z := 4.
Definition NOT_FOUND : Z := 5.
Definition PERMISSION_DENIED : Z := 7.
Definition UNAVAILABLE : Z := 14.
End grpc_status.

(** A truthy thrown or rejected value, through the three things the
    gateway reads of it: its [code] property, its [message] property (empty
    when absent) and what [String(error)] gives. *)
Record js_error := {
  err_code : jsval;
  err_message : jsstring;
  err_string : jsstring
}.

(** [new Error(message)] *)
Definition new_Error (message : jsstring) : js_error := {|
  err_code := VUndefined;
  err_message := message;
  err_string := if is_empty message then lit "Error" else lit "Error: " ++ message
|}.

(** [v === n] for a number [n] *)
Definition strict_eq_num (v : jsval) (n : Z) : bool :=
  match v with
  | VNum z => z =? n
  | _ => false
  end.

(** One match of [/<host>:\d+/] at the start of [s]: what follows the
    match, the digits being taken greedily. *)
Definition match_host_port (host s : jsstring) : option jsstring :=
  if startsWith s (host ++ lit ":") then
    match span_digits (drop (length host + 1) s) with
    | ([], _) => None
    | (_ :: _, rest) => Some rest
    end
  else None.

(** [s.replace(/<host>:\d+/g, replacement)]: the matches are found from left
    to right, each search resuming where the previous match ended.  The
    fuel bounds the number of characters still to scan. *)
Fixpoint replace_host_port_aux (fuel : nat) (host replacement s : jsstring) : jsstring :=
  match fuel with
  | O => s
  | S fuel' =>
      match s with
      | [] => []
      | c :: t =>
          match match_host_port host s with
          | Some rest => replacement ++ replace_host_port_aux fuel' host replacement rest
          | None => c :: replace_host_port_aux fuel' host replacement t
          end
      end
  end.

Definition replace_host_port (host replacement s : jsstring) : jsstring :=
  replace_host_port_aux (length s) host replacement s.

(** [s.substring(0, n)] *)
Definition substring0 (n : nat) (s : jsstring) : jsstring := take n s.

Section Sanitizer.

Variable cfg : config.

(** [sanitizeError(error)]: the lines written with [console.error] and the
    returned message.  [None] is a falsy [error]. *)
Definition sanitizeError (error : option js_error)
  : list (option js_error) * jsstring :=
  let logged := if DEBUG cfg then [error] else [] in
  (logged,
   match error with
   | None => lit "Internal server error"
   | Some e =>
       if strict_eq_num (err_code e) grpc_status.NOT_FOUND then
         lit "Resource not found"
       else if strict_eq_num (err_code e) grpc_status.UNAVAILABLE then
         lit "Service unavailable - coordinator may be down"
       else if strict_eq_num (err_code e) grpc_status.DEADLINE_EXCEEDED then
         lit "Request timeout - service is overloaded"
       else if strict_eq_num (err_code e) grpc_status.INVALID_ARGUMENT then
         lit "Invalid request parameters"
       else if strict_eq_num (err_code e) grpc_status.PERMISSION_DENIED then
         lit "Permission denied"
       else
         let message := str_or (Some (err_message e)) (err_string e) in
         if negb (is_empty message) && includes message (lit "timeout") then
           lit "Request timeout - service is not responding"
         else if includes message (lit "PROTO_PATH") || includes message (lit "proto") then
           lit "Configuration error"
         else if includes message (lit "localhost") || includes message (lit "127.0.0.1")
                 || includes message (lit ":") then
           let safeMessage :=
             replace_host_port (lit "127.0.0.1") (lit "server")
               (replace_host_port (lit "localhost") (lit "server") message) in
           safeMessage
         else if (200 <? length message)%nat then
           substring0 200 message ++ lit "..."
         else lit "Internal server error"
   end).

End Sanitizer.

(** ** The gRPC call wrapper *)

Section GrpcCall.

(** The type of the response messages of the method called. *)
Variable Resp : Type.

(** The calls the wrapper makes to [resolve] and [reject] of its promise. *)
Inductive settlement :=
| Resolved (response : option Resp)
| Rejected (error : js_error).

(** What the transport can deliver to the handlers of one call: the unary
    callback, the ['error'] event and the ['status'] event. *)
Inductive signal :=
| Callback (error : option js_error) (response : option Resp)
| ErrorEvent (error : option js_error)
| StatusEvent (code : Z) (details : jsstring).

(** What can happen after [grpcCall] has returned its promise: a signal of
    the transport, or the expiry of the deadline timer, with the signals
    that [call.cancel()] delivers before it returns. *)
Inductive event :=
| Signal (s : signal)
| TimerExpiry (during_cancel : list signal).

(** The object the client stub returns. *)
Record call_shape := {
  has_on : bool;       (* [typeof call.on === 'function'] *)
  has_cancel : bool    (* [typeof call.cancel === 'function'] *)
}.

(** What [grpcClient[method](request, metadata, options, callback)] does
    before it returns: it may run the callback, and then throws a value
    or returns a call object (or a falsy value). *)
Inductive invocation :=
| Throws (sync : list signal) (thrown : option js_error)
| Returns (sync : list signal) (call : option call_shape).

Inductive client :=
| NoClient                                        (* [grpcClient] is [null] *)
| Client (method_exists : bool) (behaviour : invocation).

(** The variables of the closure, the timer of the runtime and the calls
    observed on the promise and on the call object. *)
Record call_state := {
  timeoutId : bool;            (* [timeoutId] is not [null] *)
  timer_pending : bool;        (* the timer is scheduled in the runtime *)
  completed : bool;
  call : option call_shape;
  callback_given : bool;       (* the stub holds the callback *)
  listening : bool;            (* the two [call.on] handlers are registered *)
  settlements : list settlement;
  cancellations : nat
}.

Definition set_timer (id pending : bool) (st : call_state) : call_state :=
  {| timeoutId := id; timer_pending := pending; completed := completed st;
     call := call st; callback_given := callback_given st;
     listening := listening st; settlements := settlements st;
     cancellations := cancellations st |}.

Definition settle (s : settlement) (st : call_state) : call_state :=
  {| timeoutId := timeoutId st; timer_pending := timer_pending st;
     completed := completed st; call := call st;
     callback_given := callback_given st; listening := listening st;
     settlements := settlements st ++ [s];
     cancellations := cancellations st |}.

Definition set_completed (st : call_state) : call_state :=
  {| timeoutId := timeoutId st; timer_pending := timer_pending st;
     completed := true; call := call st;
     callback_given := callback_given st; listening := listening st;
     settlements := settlements st; cancellations := cancellations st |}.

Definition set_call (c : option call_shape) (cb li : bool) (st : call_state)
  : call_state :=
  {| timeoutId := timeoutId st; timer_pending := timer_pending st;
     completed := completed st; call := c;
     callback_given := cb; listening := li;
     settlements := settlements st; cancellations := cancellations st |}.

Definition count_cancel (st : call_state) : call_state :=
  {| timeoutId := timeoutId st; timer_pending := timer_pending st;
     completed := completed st; call := call st;
     callback_given := callback_given st; listening := listening st;
     settlements := settlements st; cancellations := S (cancellations st) |}.

Definition initial_state : call_state :=
  {| timeoutId := false; timer_pending := false; completed := false;
     call := None; callback_given := false; listening := false;
     settlements := []; cancellations := 0 |}.

(** The timer half of [cleanup]: [clearTimeout] and [timeoutId = null]. *)
Definition clear_timer (st : call_state) : call_state :=
  if timeoutId st then set_timer false false st else st.

(** [finish(error, response)] *)
Definition finish (error : option js_error) (response : option Resp)
    (st : call_state) : call_state :=
  if completed st then st
  else
    let st1 := clear_timer (set_completed st) in
    match error with
    | Some e => settle (Rejected e) st1
    | None => settle (Resolved response) st1
    end.

(** The three handlers, each behind its registration. *)
Definition deliver (s : signal) (st : call_state) : call_state :=
  match s with
  | Callback error response =>
      if callback_given st then
        if negb (completed st) then finish error response st else st
      else st
  | ErrorEvent error =>
      if listening st then
        if negb (completed st) then finish error None st else st
      else st
  | StatusEvent code details =>
      if listening st then
        if negb (code =? grpc_status.OK) && negb (completed st)
           && negb (code =? grpc_status.CANCELLED) then
          let errorMsg :=
            str_or (Some details) (lit "gRPC call failed with code " ++ dec code) in
          finish (Some (new_Error errorMsg)) None st
        else st
      else st
  end.

Definition deliver_all (sigs : list signal) (st : call_state) : call_state :=
  fold_left (fun st s => deliver s st) sigs st.

(** [cleanup(cancelCall)]; [during_cancel] is what [call.cancel()] delivers
    while it runs. *)
Definition cleanup (cancelCall : bool) (during_cancel : list signal)
    (st : call_state) : call_state :=
  let st1 := clear_timer st in
  if cancelCall && negb (completed st1) then
    match call st1 with
    | Some c =>
        if has_cancel c then deliver_all during_cancel (count_cancel st1)
        else st1
    | None => st1
    end
  else st1.

Variable method : jsstring.
Variable timeoutMs : Z.

Definition timeout_error : js_error :=
  new_Error (lit "gRPC call " ++ method ++ lit " timed out after "
             ++ dec timeoutMs ++ lit "ms").

(** The function handed to [setTimeout]; it runs only if the timer is
    still scheduled, and a timer fires once. *)
Definition on_timer (during_cancel : list signal) (st : call_state) : call_state :=
  if timer_pending st then
    let st1 := set_timer (timeoutId st) false st in
    if negb (completed st1) then
      finish (Some timeout_error) None (cleanup true during_cancel st1)
    else st1
  else st.

Definition step (st : call_state) (ev : event) : call_state :=
  match ev with
  | Signal s => deliver s st
  | TimerExpiry during_cancel => on_timer during_cancel st
  end.

(** The synchronous part of [grpcCall], up to the return of the promise. *)
Definition grpcCall_start (cl : client) : call_state :=
  match cl with
  | NoClient =>
      settle (Rejected (new_Error (lit "gRPC client not initialized"))) initial_state
  | Client method_exists behaviour =>
      let armed := set_timer true true initial_state in
      if negb method_exists then
        settle (Rejected (new_Error (lit "gRPC method " ++ method ++ lit " does not exist")))
               (cleanup false [] armed)
      else
        match behaviour with
        | Throws sync thrown =>
            let st1 := deliver_all sync (set_call None true false armed) in
            finish thrown None (cleanup false [] st1)
        | Returns sync c =>
            let st1 := deliver_all sync (set_call None true false armed) in
            let registers := match c with Some sh => has_on sh | None => false end in
            set_call c true registers st1
        end
  end.

(** The whole life of one call: its start, then the events in order. *)
Definition grpcCall (cl : client) (evs : list event) : call_state :=
  fold_left step evs (grpcCall_start cl).

End GrpcCall.

Arguments Resolved {Resp}.
Arguments Rejected {Resp}.
Arguments Callback {Resp}.
Arguments ErrorEvent {Resp}.
Arguments StatusEvent {Resp}.
Arguments Signal {Resp}.
Arguments TimerExpiry {Resp}.
Arguments Throws {Resp}.
Arguments Returns {Resp}.
Arguments NoClient {Resp}.
Arguments Client {Resp}.
Arguments settlements {Resp}.
Arguments timeoutId {Resp}.
Arguments timer_pending {Resp}.
Arguments completed {Resp}.
Arguments cancellations {Resp}.

(** ** The launch endpoint *)

(** The body of [POST /api/proof/launch]. *)
Record launch_body := {
  block_id : jsval;
  compute_capacity : jsval;
  input_path : jsval;
  elf_path : jsval
}.

(** The message sent with [LaunchProof]. *)
Record launch_request := {
  lq_block_id : jsstring;
  lq_compute_capacity : option Z;
  lq_input_path : jsstring
}.

(** The worker counters of a [SystemStatus] answer; an absent counter is
    [None]. *)
Record worker_counts := {
  total_workers : option Z;
  idle_workers : option Z
}.

(** A [SystemStatus] answer: the counters are read at [result.status] and
    at [status]. *)
Record SystemStatusResponse := {
  ss_result_status : option worker_counts;
  ss_status : option worker_counts
}.

(** A job of a [JobsList] answer: [block_id], [block.block_id], [job_id]. *)
Record job := {
  job_block_id : option jsstring;
  job_block_block_id : option jsstring;
  job_job_id : option jsstring
}.

(** A [JobsList] answer: the array is read at [result.jobs_list.jobs],
    [jobs_list.jobs] and [jobs]. *)
Record JobsListResponse := {
  jl_result_jobs_list_jobs : option (list job);
  jl_jobs_list_jobs : option (list job);
  jl_jobs : option (list job)
}.

(** An object holding a job id at [job_id] or at [result.job_id]. *)
Record launch_result := {
  lr_job_id : option jsstring;
  lr_result_job_id : option jsstring
}.

(** A [LaunchProof] answer: [result.launch_proof], [launch_proof], [result]
    and the [job_id] of the answer itself. *)
Record LaunchProofResponse := {
  lp_result_launch_proof : option launch_result;
  lp_launch_proof : option launch_result;
  lp_result : option launch_result;
  lp_job_id : option jsstring
}.

(** How the promise of one [grpcCall] ends for the code awaiting it: with
    the response message of the coordinator, or with an error. *)
Inductive rpc_outcome (A : Type) :=
| Resolves (response : A)
| Rejects (error : js_error).
Arguments Resolves {A}.
Arguments Rejects {A}.

(** The coordinator as the endpoint meets it: the outcome of each of the
    three calls it can make, and whether [LaunchProof] is still pending when
    the timer of the endpoint, set to 95 seconds as the request comes in,
    is due.  The two queries before it end within 5 seconds each, by the
    deadline they are called with, so that the timer cannot be due before
    [LaunchProof] is called. *)
Record coordinator := {
  SystemStatus : rpc_outcome SystemStatusResponse;
  JobsList : rpc_outcome JobsListResponse;
  LaunchProof : launch_request -> rpc_outcome LaunchProofResponse;
  launch_outlasts_timer : bool
}.

Inductive response_body :=
| ErrorBody (error : jsstring)
| LaunchedBody (job_id : jsstring).

(** What handling a request does, in the order it does it. *)
Inductive effect :=
| RateLimitCheck (key : jsstring)
| Validation (field : jsstring)
| Rpc (method : jsstring)
| Audit (event detail : jsstring)
| Respond (status : Z) (body : response_body).

(** The double quote character. *)
Definition quote : jsstring := [34%N].

(** [sendError(error, statusCode)] of the launch endpoint under its flag
    [responseSent]: the first answer is sent and sets the flag, a later one
    is dropped. *)
Definition sendError (responseSent : bool) (error : jsstring) (statusCode : Z)
  : list effect :=
  if responseSent then [] else [Respond statusCode (ErrorBody error)].

(** [sendResponse({ job_id, success: true })] under the same flag. *)
Definition sendResponse (responseSent : bool) (job_id : jsstring) : list effect :=
  if responseSent then [] else [Respond 200 (LaunchedBody job_id)].

(** What the timer of the endpoint answers with, status 504. *)
Definition endpoint_timeout_message : jsstring :=
  lit "Launch proof request timed out. The coordinator may be slow to respond. Check coordinator logs and ensure workers are available.".

(** [a || b] on a possibly absent number: zero is falsy. *)
Definition num_or (a : option Z) (b : Z) : Z :=
  match a with
  | Some z => if z =? 0 then b else z
  | None => b
  end.

(** [a || b] where [b] may be absent too. *)
Definition opt_str_or (a b : option jsstring) : option jsstring :=
  match a with
  | Some (c :: s) => Some (c :: s)
  | _ => b
  end.

(** [x?.field] *)
Definition opt_field {A B} (x : option A) (field : A -> option B) : option B :=
  match x with
  | Some a => field a
  | None => None
  end.

(** [a === v] for a possibly absent string [a] *)
Definition strict_eq_str (a : option jsstring) (v : jsval) : bool :=
  match a, v with
  | Some s, VStr t => jsstring_eqb s t
  | _, _ => false
  end.

(** How the inner [try] block of the endpoint ends. *)
Inductive guard_result :=
| GuardRejected      (* a response was sent; the handler returns *)
| GuardPassed        (* both queries answered, nothing stands in the way *)
| GuardSkipped.      (* a query failed; the [catch] swallows the error *)

Section LaunchEndpoint.

Variable cfg : config.
Variable path_resolve : jsstring -> jsstring.
Variable StringToNumber : jsstring -> option Z.

(** [systemStatus.result?.status?.total_workers || systemStatus.status?.total_workers || 0] *)
Definition totalWorkers_of (systemStatus : SystemStatusResponse) : Z :=
  num_or (opt_field (ss_result_status systemStatus) total_workers)
         (num_or (opt_field (ss_status systemStatus) total_workers) 0).

(** [systemStatus.result?.status?.idle_workers || systemStatus.status?.idle_workers || 0] *)
Definition idleWorkers_of (systemStatus : SystemStatusResponse) : Z :=
  num_or (opt_field (ss_result_status systemStatus) idle_workers)
         (num_or (opt_field (ss_status systemStatus) idle_workers) 0).

(** [existingJobs.result?.jobs_list?.jobs || existingJobs.jobs_list?.jobs
     || existingJobs.jobs || []]; an array is truthy even when empty. *)
Definition jobs_of (existingJobs : JobsListResponse) : list job :=
  match jl_result_jobs_list_jobs existingJobs with
  | Some js => js
  | None =>
      match jl_jobs_list_jobs existingJobs with
      | Some js => js
      | None =>
          match jl_jobs existingJobs with
          | Some js => js
          | None => []
          end
      end
  end.

(** [job.block_id || job.block?.block_id] *)
Definition jobBlockId_of (j : job) : option jsstring :=
  opt_str_or (job_block_id j) (job_block_block_id j).

Definition no_workers_message : jsstring :=
  lit "No workers are connected to the coordinator. Please start a worker first using the Worker Management panel.".

Definition workers_busy_message (totalWorkers : Z) : jsstring :=
  lit "All " ++ dec totalWorkers
  ++ lit " worker(s) are currently busy. Please wait for workers to become idle or start additional workers.".

Definition duplicate_message (block_id : jsval) : jsstring :=
  lit "A proof job with block_id " ++ quote ++ ToString block_id ++ quote
  ++ lit " is already running. Please wait for it to complete or use a different block_id.".

(** The inner [try] block: the worker counters, then the active jobs.
    Nothing has been sent when it runs, so that [responseSent] is unset. *)
Definition pre_launch_checks (coord : coordinator) (block_id : jsval)
  : list effect * guard_result :=
  match SystemStatus coord with
  | Rejects checkError => ([Rpc (lit "SystemStatus")], GuardSkipped)
  | Resolves systemStatus =>
      let totalWorkers := totalWorkers_of systemStatus in
      let idleWorkers := idleWorkers_of systemStatus in
      if totalWorkers =? 0 then
        (Rpc (lit "SystemStatus")
         :: sendError false no_workers_message 503
         ++ [Audit (lit "proof_launch_rejected") (lit "no_workers_available")],
         GuardRejected)
      else if idleWorkers =? 0 then
        (Rpc (lit "SystemStatus")
         :: sendError false (workers_busy_message totalWorkers) 503
         ++ [Audit (lit "proof_launch_rejected") (lit "all_workers_busy")],
         GuardRejected)
      else
        match JobsList coord with
        | Rejects checkError =>
            ([Rpc (lit "SystemStatus"); Rpc (lit "JobsList")], GuardSkipped)
        | Resolves existingJobs =>
            let jobs := jobs_of existingJobs in
            let duplicateBlockId :=
              find (fun job => strict_eq_str (jobBlockId_of job) block_id) jobs in
            match duplicateBlockId with
            | Some _ =>
                (Rpc (lit "SystemStatus") :: Rpc (lit "JobsList")
                 :: sendError false (duplicate_message block_id) 409
                 ++ [Audit (lit "proof_launch_rejected") (lit "duplicate_block_id")],
                 GuardRejected)
            | None =>
                ([Rpc (lit "SystemStatus"); Rpc (lit "JobsList")], GuardPassed)
            end
        end
  end.

(** The [catch] block of the endpoint: the status and the message for a
    failed launch.  [responseSent] is set when the timer of the endpoint has
    answered already. *)
Definition launch_failure (responseSent : bool) (error : js_error) : list effect :=
  let sanitized := snd (sanitizeError cfg (Some error)) in
  let timed_out :=
    includes sanitized (lit "timed out") || includes sanitized (lit "timeout")
    || strict_eq_num (err_code error) grpc_status.DEADLINE_EXCEEDED in
  let cancelled :=
    includes sanitized (lit "CANCELLED") || strict_eq_num (err_code error) 1 in
  let no_workers :=
    includes sanitized (lit "No workers available")
    || includes sanitized (lit "insufficient") in
  let no_file :=
    includes sanitized (lit "not found") || includes sanitized (lit "file") in
  Audit (lit "proof_launch_failed") sanitized ::
  if timed_out then
    sendError responseSent (lit "Launch proof request timed out after 90 seconds. The coordinator may be slow, workers may not be available, or the coordinator is not responding. Check: 1) Coordinator is running, 2) Workers are registered and idle, 3) Compute capacity requested is available.") 504
  else if cancelled then
    sendError responseSent (lit "The coordinator cancelled the request. This usually means no workers are connected or available. Check: 1) Workers are running and connected (check Worker Management), 2) Workers show " ++ quote ++ lit "Idle" ++ quote ++ lit " status, 3) Coordinator is running properly. If workers show " ++ quote ++ lit "channel closed" ++ quote ++ lit " errors, try restarting the worker.") 503
  else if no_workers then
    sendError responseSent (lit "No workers available or insufficient compute capacity. Register workers first using the Worker Management panel.") 503
  else if no_file then
    sendError responseSent (lit "File not found or invalid path") 400
  else sendError responseSent sanitized 500.

(** From the audit record of the launch to the response.  While
    [LaunchProof] is awaited the timer of the endpoint may fire: it answers
    504 and sets [responseSent], and what the handler would answer once the
    call has settled is dropped. *)
Definition forward_launch (coord : coordinator) (b : launch_body) : list effect :=
  let launchRequest := {|
    lq_block_id := ToString (block_id b);
    lq_compute_capacity := ToNumber StringToNumber (compute_capacity b);
    lq_input_path := ToString (input_path b)
  |} in
  let responseSent := launch_outlasts_timer coord in
  Audit (lit "proof_launch_initiated") [] ::
  Rpc (lit "LaunchProof") ::
  (if launch_outlasts_timer coord
   then sendError false endpoint_timeout_message 504 else [])
  ++ match LaunchProof coord launchRequest with
     | Rejects error => launch_failure responseSent error
     | Resolves response =>
         let result :=
           match lp_result_launch_proof response with
           | Some r => r
           | None =>
               match lp_launch_proof response with
               | Some r => r
               | None =>
                   match lp_result response with
                   | Some r => r
                   | None => {| lr_job_id := lp_job_id response; lr_result_job_id := None |}
                   end
               end
           end in
         let jobId := str_or (lr_job_id result) (str_or (lr_result_job_id result) []) in
         if is_empty jobId then
           sendError responseSent (lit "Coordinator returned empty job_id. The launch may have failed. Check coordinator logs.") 500
         else
           Audit (lit "proof_launch_success") [] :: sendResponse responseSent jobId
     end.

(** The handler of [POST /api/proof/launch], after the middleware.  Every
    answer goes through [sendError] or [sendResponse].  The checks of the
    body run at once and every path that answers clears the timer of the
    endpoint first, so that up to the call of [LaunchProof] the flag
    [responseSent] is unset and the timer cannot answer after the handler
    has; [forward_launch] has the one place where it can. *)
Definition launch_handler (coord : coordinator) (req : request launch_body)
  : list effect :=
  let b := req_body req in
  Validation (lit "required fields") ::
  if negb (truthy (block_id b)) || negb (truthy (compute_capacity b))
     || negb (truthy (input_path b)) then
    sendError false (lit "Missing required fields: block_id, compute_capacity, input_path") 400
    ++ [Audit (lit "proof_launch_rejected") (lit "missing_fields")]
  else
  Validation (lit "block_id") ::
  match validateJobId (block_id b) with
  | Invalid error =>
      sendError false (lit "Invalid block_id: " ++ error) 400
      ++ [Audit (lit "proof_launch_rejected") (lit "invalid_block_id")]
  | Valid =>
  Validation (lit "compute_capacity") ::
  match validateComputeCapacity StringToNumber cfg (compute_capacity b) with
  | Invalid error =>
      sendError false error 400
      ++ [Audit (lit "proof_launch_rejected") (lit "invalid_capacity")]
  | Valid =>
  Validation (lit "input_path") ::
  match validatePath cfg path_resolve (input_path b) (lit "input") with
  | Invalid error =>
      sendError false (lit "Invalid input_path: " ++ error) 400
      ++ [Audit (lit "proof_launch_rejected") (lit "invalid_input_path")]
  | Valid =>
  let elf_checked :=
    if truthy (elf_path b) then
      ([Validation (lit "elf_path")],
       validatePath cfg path_resolve (elf_path b) (lit "elf"))
    else ([], Valid) in
  fst elf_checked ++
  match snd elf_checked with
  | Invalid error =>
      sendError false (lit "Invalid elf_path: " ++ error) 400
      ++ [Audit (lit "proof_launch_rejected") (lit "invalid_elf_path")]
  | Valid =>
  let '(checked, guard) := pre_launch_checks coord (block_id b) in
  checked ++
  match guard with
  | GuardRejected => []
  | GuardPassed | GuardSkipped => forward_launch coord b
  end
  end end end end.

(** The route: the [rateLimit] middleware, then the handler. *)
Definition launch_endpoint (coord : coordinator) (now : Z)
    (req : request launch_body) (rateLimitMap : gmap jsstring rate_record)
  : gmap jsstring rate_record * list effect :=
  let key := client_key req in
  match rateLimit cfg key now rateLimitMap with
  | (m, Reject status error) =>
      (m, [RateLimitCheck key; Respond status (ErrorBody error)])
  | (m, Next) =>
      (m, RateLimitCheck key :: launch_handler coord req)
  end.

End LaunchEndpoint.

(** ** Process supervisor: binary discovery and worker start *)

(** The host as the supervisor sees it. *)
Record host := {
  env_HOME : option jsstring;             (* [process.env.HOME] *)
  which : jsstring -> option jsstring;    (* trimmed output of [which name]; [None] when the command fails *)
  existsSync : jsstring -> bool;          (* [fs.existsSync] *)
  ZISK_REPO : option jsstring             (* what [findZiskRepo()] returned at start-up *)
}.

Inductive spawn_result :=
| Reply (status : Z) (error : jsstring)
| Spawn (id binPath : jsstring) (args : list jsstring) (cwd : jsstring).

(** The body of [POST /api/worker/start]; the text fields are strings when
    present. *)
Record worker_start_body := {
  workerId : option jsstring;
  elfPath : option jsstring;
  inputPath : option jsstring;
  provingKeyPath : option jsstring;
  computeCapacity : jsval
}.

Section Supervisor.

(** [path.join] and [path.dirname] of Node's [path] module. *)
Variable path_join : list jsstring -> jsstring.
Variable path_dirname : jsstring -> jsstring.

Variable h : host.

(** The [try] block around [execSync('which ' + name)]. *)
Definition lookup_in_PATH (name : jsstring) : option jsstring :=
  match which h name with
  | Some whichResult =>
      if negb (is_empty whichResult) && existsSync h whichResult
      then Some whichResult else None
  | None => None
  end.

Definition commonPaths (name : jsstring) : list jsstring :=
  [path_join [str_or (env_HOME h) []; lit ".zisk"; lit "bin"; name];
   path_join [str_or (env_HOME h) []; lit ".local"; lit "bin"; name];
   lit "/usr/local/bin/" ++ name;
   lit "/usr/bin/" ++ name].

(** The build directories under the repository, when one was found. *)
Definition lookup_in_repo (name : jsstring) : option jsstring :=
  match ZISK_REPO h with
  | Some repo =>
      let releaseBin := path_join [repo; lit "target"; lit "release"; name] in
      let debugBin := path_join [repo; lit "target"; lit "debug"; name] in
      if existsSync h releaseBin then Some releaseBin
      else if existsSync h debugBin then Some debugBin
      else None
  | None => None
  end.

Definition findCoordinatorBinary : option jsstring :=
  match lookup_in_PATH (lit "zisk-coordinator") with
  | Some whichResult => Some whichResult
  | None =>
      match find (existsSync h) (commonPaths (lit "zisk-coordinator")) with
      | Some binPath => Some binPath
      | None => lookup_in_repo (lit "zisk-coordinator")
      end
  end.

Definition findWorkerBinary : option jsstring :=
  match find (existsSync h) (commonPaths (lit "zisk-worker")) with
  | Some binPath => Some binPath
  | None =>
      match lookup_in_PATH (lit "zisk-worker") with
      | Some whichResult => Some whichResult
      | None => lookup_in_repo (lit "zisk-worker")
      end
  end.

(** The discovery the specification describes, for either binary: an
    override from the configuration, the [PATH], the conventional
    directories, the build directories. *)
Definition spec_discovery (override : option jsstring) (name : jsstring)
  : option jsstring :=
  let candidates :=
    match override with Some p => [p] | None => [] end
    ++ match which h name with Some p => [p] | None => [] end
    ++ commonPaths name
    ++ match ZISK_REPO h with
       | Some repo => [path_join [repo; lit "target"; lit "release"; name];
                       path_join [repo; lit "target"; lit "debug"; name]]
       | None => []
       end in
  find (existsSync h) candidates.

Variable COORDINATOR_URL : jsstring.

(** The arguments for the compute capacity of a worker.  The capacity read
    and its [String(capacity)] are the exact ones up to [MAX_SAFE_INTEGER];
    above it [parseInt] rounds, and from 1e21 on [String] prints an
    exponent, which this definition does not follow. *)
Definition capacity_args (computeCapacity : jsval) : Z * jsstring + list jsstring :=
  if truthy computeCapacity then
    match parseInt computeCapacity with
    | None => inl (400, lit "Compute capacity must be a positive integer")
    | Some capacity =>
        if capacity <? 1 then
          inl (400, lit "Compute capacity must be a positive integer")
        else inr [lit "--compute-capacity"; dec capacity]
    end
  else inr [lit "--compute-capacity"; lit "10"].

(** The handler of [POST /api/worker/start], up to the [spawn]; [now] is
    what [Date.now()] returns. *)
Definition worker_start (now : Z) (b : worker_start_body) : spawn_result :=
  match elfPath b, inputPath b with
  | Some (e :: elf), Some (i :: input) =>
      let elfPath := e :: elf in
      let inputPath := i :: input in
      match findWorkerBinary with
      | None =>
          Reply 500 (lit "zisk-worker binary not found. Please build it first: cargo build --release --bin zisk-worker"
                     ++ [10%N]
                     ++ lit "Or install it globally: cargo install --path distributed --bin zisk-worker")
      | Some binPath =>
          let cwd := match ZISK_REPO h with
                     | Some repo => repo
                     | None => path_dirname binPath
                     end in
          if negb (existsSync h elfPath) then
            Reply 400 (lit "ELF file not found: " ++ elfPath)
          else
            let inputDir := path_dirname inputPath in
            if negb (existsSync h inputDir) then
              Reply 400 (lit "Input directory not found: " ++ inputDir)
            else if negb (existsSync h inputPath) then
              Reply 400 (lit "Input file not found: " ++ inputPath)
            else
              let id := str_or (workerId b) (lit "worker-" ++ dec now) in
              let coordinatorUrl :=
                if startsWith COORDINATOR_URL (lit "http://")
                   || startsWith COORDINATOR_URL (lit "https://")
                then COORDINATOR_URL
                else lit "http://" ++ COORDINATOR_URL in
              let args := [lit "--coordinator-url"; coordinatorUrl;
                           lit "--elf"; elfPath;
                           lit "--inputs-folder"; inputDir] in
              match capacity_args (computeCapacity b) with
              | inl (status, error) => Reply status error
              | inr capacity =>
                  let proving :=
                    match provingKeyPath b with
                    | Some (c :: p) => [lit "--proving-key"; c :: p]
                    | _ => []
                    end in
                  Spawn id binPath (args ++ capacity ++ proving) cwd
              end
      end
  | _, _ => Reply 400 (lit "ELF path and input path are required")
  end.

End Supervisor.

(** A [path.join] for segments without [.] and [..]: the non-empty segments
    separated by one slash. *)
Definition simple_join (parts : list jsstring) : jsstring :=
  join (lit "/") (filter (fun p => p ≠ []) parts).

(** ** Predicates of the specification *)

(** [s] contains [needle] as a substring. *)
Definition contains (s needle : jsstring) : Prop :=
  ∃ before after, s = before ++ needle ++ after.

(** [s] matches [^[cls]{lo,hi}$]. *)
Definition matches_bounded (cls : code_unit -> bool) (lo hi : nat) (s : jsstring) : Prop :=
  (lo <= length s <= hi)%nat ∧ Forall (fun c => cls c = true) s.

(** The conditions under which the specification has [validatePath]
    reject a string. *)
Definition spec_path_rejected (cfg : config) (path_resolve : jsstring -> jsstring)
    (p kind : jsstring) : Prop :=
  p = []
  ∨ (512 < length p)%nat
  ∨ contains p (lit "..")
  ∨ contains p (lit "//")
  ∨ (∃ c, c ∈ p ∧ path_class c = false)
  ∨ (∃ roots, ALLOWED_INPUT_PATHS cfg = Some roots ∧ kind = lit "input"
              ∧ ∀ root, root ∈ roots → ¬ path_resolve root `prefix_of` path_resolve p).

(** The decisions taken for the requests of one client, in order. *)
Definition decisions_for (key : jsstring) (out : list (jsstring * admission))
  : list admission :=
  map snd (filter (fun ka => fst ka = key) out).

(** The number of requests of one client among the events. *)
Fixpoint requests_of (key : jsstring) (evs : list rl_event) : nat :=
  match evs with
  | [] => 0
  | Request k _ :: rest =>
      if bool_decide (k = key) then S (requests_of key rest) else requests_of key rest
  | Sweep _ :: rest => requests_of key rest
  end.

(** An event does not end the window of [key] that closes at [reset]: a
    request of that client or a sweep comes no later than [reset]. *)
Definition within_window (key : jsstring) (reset : Z) (ev : rl_event) : Prop :=
  match ev with
  | Request k now => k = key → now <= reset
  | Sweep now => now <= reset
  end.

(** A request of [key] at [now] starts a window: the client has no record,
    or its record has expired. *)
Definition opens_window (m : gmap jsstring rate_record) (key : jsstring) (now : Z)
  : Prop :=
  match m !! key with
  | None => True
  | Some record => resetTime record < now
  end.

(** A small configuration for examples: two requests per second. *)
Definition example_config : config := {|
  DEBUG := false;
  MAX_CAPACITY := 1000;
  ALLOWED_INPUT_PATHS := None;
  RATE_LIMIT_WINDOW_MS := 1000;
  RATE_LIMIT_MAX_REQUESTS := 2
|}.

(** ** States of a call, for the properties of the wrapper *)

Section CallPhases.

Variable Resp : Type.

(** Nothing has reached the promise yet. *)
Definition unsettled (st : call_state Resp) : Prop :=
  completed st = false ∧ settlements st = []
  ∧ (timer_pending st = true → timeoutId st = true).

(** The call waits for the transport, under its deadline. *)
Definition pending (st : call_state Resp) : Prop :=
  unsettled st ∧ timer_pending st = true.

(** [finish] has run: the promise got its one call and the timer is gone. *)
Definition finished (st : call_state Resp) : Prop :=
  completed st = true ∧ timer_pending st = false ∧ timeoutId st = false
  ∧ length (settlements st) = 1%nat.

(** The call was refused before it reached the transport: the promise is
    rejected, no handler is registered and no timer is left. *)
Definition inert (st : call_state Resp) : Prop :=
  callback_given Resp st = false ∧ listening Resp st = false
  ∧ timer_pending st = false ∧ timeoutId st = false
  ∧ length (settlements st) = 1%nat.

(** What a call can be after its start and after each event. *)
Definition phase (st : call_state Resp) : Prop :=
  inert st ∨ finished st ∨ pending st.

End CallPhases.

Arguments unsettled {Resp}.
Arguments pending {Resp}.
Arguments finished {Resp}.
Arguments inert {Resp}.
Arguments phase {Resp}.

(** ** Predicates on the effects of the launch endpoint *)

Definition is_validation (e : effect) : bool :=
  match e with Validation _ => true | _ => false end.

Definition is_rate_limit_check (e : effect) : bool :=
  match e with RateLimitCheck _ => true | _ => false end.

Definition is_rpc (e : effect) : bool :=
  match e with Rpc _ => true | _ => false end.

(** A [LaunchProof] call was issued. *)
Definition launches (effs : list effect) : Prop :=
  Rpc (lit "LaunchProof") ∈ effs.

(** The body passes every check of the handler. *)
Definition validates (cfg : config) (path_resolve : jsstring -> jsstring)
    (StringToNumber : jsstring -> option Z) (b : launch_body) : bool :=
  truthy (block_id b) && truthy (compute_capacity b) && truthy (input_path b)
  && is_valid (validateJobId (block_id b))
  && is_valid (validateComputeCapacity StringToNumber cfg (compute_capacity b))
  && is_valid (validatePath cfg path_resolve (input_path b) (lit "input"))
  && (if truthy (elf_path b)
      then is_valid (validatePath cfg path_resolve (elf_path b) (lit "elf"))
      else true).

(** The checks a valid body goes through. *)
Definition validation_steps (b : launch_body) : list effect :=
  [Validation (lit "required fields"); Validation (lit "block_id");
   Validation (lit "compute_capacity"); Validation (lit "input_path")]
  ++ (if truthy (elf_path b) then [Validation (lit "elf_path")] else []).

(** Some job of the answer to [JobsList] carries the block id. *)
Definition active_duplicate (coord : coordinator) (block_id : jsval) : Prop :=
  ∃ existingJobs j s,
    JobsList coord = Resolves existingJobs ∧ j ∈ jobs_of existingJobs
    ∧ jobBlockId_of j = Some s ∧ block_id = VStr s.

(** A reading of [Number] for examples: the decimal integers. *)
Definition decimal_StringToNumber (s : jsstring) : option Z :=
  match span_digits s with
  | (d :: ds, []) => Some (digits_value (d :: ds))
  | _ => None
  end.

(** A coordinator with one worker, busy with the job of block "b1". *)
Definition busy_coordinator : coordinator := {|
  SystemStatus := Resolves {|
    ss_result_status := Some {| total_workers := Some 1; idle_workers := Some 0 |};
    ss_status := None |};
  JobsList := Resolves {|
    jl_result_jobs_list_jobs :=
      Some [{| job_block_id := Some (lit "b1"); job_block_block_id := None;
               job_job_id := Some (lit "job-1") |}];
    jl_jobs_list_jobs := None;
    jl_jobs := None |};
  LaunchProof := fun _ => Resolves {|
    lp_result_launch_proof := Some {| lr_job_id := Some (lit "job-2");
                                      lr_result_job_id := None |};
    lp_launch_proof := None; lp_result := None; lp_job_id := None |};
  launch_outlasts_timer := false
|}.

(** A coordinator with an idle worker and no job. *)
Definition idle_coordinator : coordinator := {|
  SystemStatus := Resolves {|
    ss_result_status := Some {| total_workers := Some 1; idle_workers := Some 1 |};
    ss_status := None |};
  JobsList := Resolves {|
    jl_result_jobs_list_jobs := Some []; jl_jobs_list_jobs := None; jl_jobs := None |};
  LaunchProof := LaunchProof busy_coordinator;
  launch_outlasts_timer := false
|}.

(** A coordinator that fails the status query and would report the job of
    block "b1" as active. *)
Definition unreachable_status_coordinator : coordinator := {|
  SystemStatus := Rejects (new_Error (lit "gRPC call SystemStatus timed out after 5000ms"));
  JobsList := JobsList busy_coordinator;
  LaunchProof := LaunchProof busy_coordinator;
  launch_outlasts_timer := false
|}.

Definition example_request (b : launch_body) : request launch_body := {|
  req_ip := Some (lit "10.0.0.7");
  req_remoteAddress := None;
  req_forwarded_for := None;
  req_user_agent := None;
  req_body := b
|}.

(** [{ block_id: "b1", compute_capacity: 10, input_path: "/data/in.bin" }] *)
Definition example_launch : launch_body := {|
  block_id := VStr (lit "b1");
  compute_capacity := VNum 10;
  input_path := VStr (lit "/data/in.bin");
  elf_path := VUndefined
|}.

(** The same without a block id. *)
Definition example_invalid_launch : launch_body := {|
  block_id := VUndefined;
  compute_capacity := VNum 10;
  input_path := VStr (lit "/data/in.bin");
  elf_path := VUndefined
|}.

(** A coordinator with a worker to spare while the job of block "b1" runs. *)
Definition duplicate_coordinator : coordinator := {|
  SystemStatus := Resolves {|
    ss_result_status := Some {| total_workers := Some 2; idle_workers := Some 1 |};
    ss_status := None |};
  JobsList := JobsList busy_coordinator;
  LaunchProof := LaunchProof busy_coordinator;
  launch_outlasts_timer := false
|}.

(** ** Candidate lists of the binary discovery *)

Section DiscoveryCandidates.

Variable path_join : list jsstring -> jsstring.
Variable h : host.

(** What the [PATH] lookup contributes: the non-empty answer of [which]. *)
Definition path_candidates (name : jsstring) : list jsstring :=
  match which h name with
  | Some (c :: p) => [c :: p]
  | _ => []
  end.

(** The release and debug outputs under the repository root. *)
Definition repo_candidates (name : jsstring) : list jsstring :=
  match ZISK_REPO h with
  | Some repo => [path_join [repo; lit "target"; lit "release"; name];
                  path_join [repo; lit "target"; lit "debug"; name]]
  | None => []
  end.

End DiscoveryCandidates.

(** A host with a worker binary installed in /usr/local/bin and another one
    first on the [PATH]. *)
Definition two_workers_host : host := {|
  env_HOME := Some (lit "/home/zisk");
  which := fun name =>
    if jsstring_eqb name (lit "zisk-worker")
    then Some (lit "/opt/zisk/bin/zisk-worker") else None;
  existsSync := fun p =>
    jsstring_eqb p (lit "/opt/zisk/bin/zisk-worker")
    || jsstring_eqb p (lit "/usr/local/bin/zisk-worker");
  ZISK_REPO := None
|}.

(** The argument list carries the two capacity arguments in order. *)
Definition carries (args capacity : list jsstring) : Prop :=
  ∃ before after, args = before ++ capacity ++ after.

Definition capacity_error : Z * jsstring :=
  (400, lit "Compute capacity must be a positive integer").

(** ** Words that a replacement cannot produce *)

(** One of the two strings is a prefix of the other. *)
Definition prefix_either (a b : jsstring) : bool :=
  startsWith a b || startsWith b a.

(** Some non-empty suffix of [repl] and [w] are prefixes one of the other:
    an occurrence of [w] could start inside an inserted [repl]. *)
Fixpoint overlaps_left (repl w : jsstring) : bool :=
  match repl with
  | [] => false
  | _ :: repl' => prefix_either repl w || overlaps_left repl' w
  end.

(** [repl] and some non-empty suffix of [w] are prefixes one of the other:
    an occurrence of [w] could run into an inserted [repl]. *)
Fixpoint overlaps_right (repl w : jsstring) : bool :=
  match w with
  | [] => false
  | _ :: w' => prefix_either repl w || overlaps_right repl w'
  end.

(** ** What the specification asks of a sanitized message *)

Definition host_char (c : code_unit) : bool :=
  is_lower c || is_upper c || is_digit c || (c =? 46)%N || (c =? 45)%N.

(** A fragment that looks like [host:port]: a character of a host name or
    address, a colon and a digit. *)
Definition resembles_host_port (s : jsstring) : Prop :=
  ∃ c d, host_char c = true ∧ is_digit d = true ∧ contains s [c; 58%N; d].

(** A fragment that looks like a filesystem path: a slash and the first
    character of a name. *)
Definition resembles_path (s : jsstring) : Prop :=
  ∃ c, (is_lower c || is_upper c || is_digit c) = true ∧ contains s [47%N; c].

(** The text of the error that [sanitizeError] works on:
    [error.message || String(error)]. *)
Definition message_of (e : js_error) : jsstring :=
  str_or (Some (err_message e)) (err_string e).

(** What [sanitizeError] does keep out of its result: the words [proto] and
    [PROTO_PATH], and the two local addresses followed by a port. *)
Definition sanitized (msg : jsstring) : Prop :=
  ¬ contains msg (lit "proto")
  ∧ ¬ contains msg (lit "PROTO_PATH")
  ∧ (∀ d, is_digit d = true → ¬ contains msg (lit "localhost" ++ lit ":" ++ [d]))
  ∧ (∀ d, is_digit d = true → ¬ contains msg (lit "127.0.0.1" ++ lit ":" ++ [d])).

(** The message has none of the three marks that send it through the
    replacement of host and port. *)
Definition without_address (error : option js_error) : Prop :=
  match error with
  | None => True
  | Some e =>
      includes (message_of e) (lit "localhost") = false
      ∧ includes (message_of e) (lit "127.0.0.1") = false
      ∧ includes (message_of e) (lit ":") = false
  end.

(** ** Further predicates on the events of the rate limiter *)

(** The events that can matter to one client: its own requests and the
    sweeps. *)
Fixpoint own_events (key : jsstring) (evs : list rl_event) : list rl_event :=
  match evs with
  | [] => []
  | Request k now :: rest =>
      if bool_decide (k = key) then Request k now :: own_events key rest
      else own_events key rest
  | Sweep now :: rest => Sweep now :: own_events key rest
  end.

(** The events without the sweeps. *)
Fixpoint without_sweeps (evs : list rl_event) : list rl_event :=
  match evs with
  | [] => []
  | Request k now :: rest => Request k now :: without_sweeps rest
  | Sweep _ :: rest => without_sweeps rest
  end.

Definition event_time (ev : rl_event) : Z :=
  match ev with
  | Request _ now => now
  | Sweep now => now
  end.

(** The clock does not run backwards: from [t] on, each event comes no
    earlier than the one before. *)
Fixpoint clock_monotone (t : Z) (evs : list rl_event) : Prop :=
  match evs with
  | [] => True
  | ev :: rest => t <= event_time ev ∧ clock_monotone (event_time ev) rest
  end.

(** [swept] is [full] less some records that had expired before [t]. *)
Definition swept_before (t : Z) (swept full : gmap jsstring rate_record) : Prop :=
  ∀ key,
    swept !! key = full !! key
    ∨ (swept !! key = None ∧ ∃ r, full !! key = Some r ∧ resetTime r < t).

(** ** Who wins a call *)

Section Verdicts.

Variable Resp : Type.
Variable method : jsstring.
Variable timeoutMs : Z.

(** The call object that the stub returned. *)
Variable shape : call_shape.

(** What a signal makes of a call that is still waiting, if anything:
    the ['error'] and ['status'] events only count when the call object
    could register handlers, and a status of [OK] or [CANCELLED] counts for
    nothing. *)
Definition signal_verdict (s : signal Resp) : option (settlement Resp) :=
  match s with
  | Callback (Some error) _ => Some (Rejected error)
  | Callback None response => Some (Resolved response)
  | ErrorEvent (Some error) =>
      if has_on shape then Some (Rejected error) else None
  | ErrorEvent None =>
      if has_on shape then Some (Resolved None) else None
  | StatusEvent code details =>
      if has_on shape then
        if (code =? grpc_status.OK) || (code =? grpc_status.CANCELLED) then None
        else Some (Rejected (new_Error
                     (str_or (Some details)
                             (lit "gRPC call failed with code " ++ dec code))))
      else None
  end.

(** The first signal that counts. *)
Fixpoint first_verdict (sigs : list (signal Resp)) : option (settlement Resp) :=
  match sigs with
  | [] => None
  | s :: rest =>
      match signal_verdict s with
      | Some o => Some o
      | None => first_verdict rest
      end
  end.

(** What an event makes of a waiting call: at the deadline the timeout
    error, unless the cancellation delivers a signal that counts. *)
Definition verdict (ev : event Resp) : option (settlement Resp) :=
  match ev with
  | Signal s => signal_verdict s
  | TimerExpiry during_cancel =>
      if has_cancel shape then
        match first_verdict during_cancel with
        | Some o => Some o
        | None => Some (Rejected (timeout_error method timeoutMs))
        end
      else Some (Rejected (timeout_error method timeoutMs))
  end.

(** Nothing has reached the promise and the handlers are in place: the
    callback given, the two others registered if they could be. *)
Definition hearing (st : call_state Resp) : Prop :=
  unsettled st ∧ callback_given Resp st = true
  ∧ listening Resp st = has_on shape.

(** A call that reached the transport and waits under its deadline. *)
Definition waiting (st : call_state Resp) : Prop :=
  hearing st ∧ timer_pending st = true ∧ call Resp st = Some shape.

End Verdicts.

Arguments signal_verdict {Resp}.
Arguments first_verdict {Resp}.
Arguments verdict {Resp}.
Arguments hearing {Resp}.
Arguments waiting {Resp}.

Definition is_signal {Resp} (ev : event Resp) : bool :=
  match ev with Signal _ => true | TimerExpiry _ => false end.

(** ** Responses among the effects *)

(** The responses sent, in order. *)
Fixpoint responses (effs : list effect) : list (Z * response_body) :=
  match effs with
  | [] => []
  | Respond status body :: rest => (status, body) :: responses rest
  | _ :: rest => responses rest
  end.

(** The request that the endpoint builds for [LaunchProof]. *)
Definition launch_request_of (StringToNumber : jsstring -> option Z)
    (b : launch_body) : launch_request := {|
  lq_block_id := ToString (block_id b);
  lq_compute_capacity := ToNumber StringToNumber (compute_capacity b);
  lq_input_path := ToString (input_path b)
|}.

(** Where the endpoint reads the job id of a [LaunchProof] answer. *)
Definition launched_job_id (response : LaunchProofResponse) : jsstring :=
  let result :=
    match lp_result_launch_proof response with
    | Some r => r
    | None =>
        match lp_launch_proof response with
        | Some r => r
        | None =>
            match lp_result response with
            | Some r => r
            | None => {| lr_job_id := lp_job_id response; lr_result_job_id := None |}
            end
        end
    end in
  str_or (lr_job_id result) (str_or (lr_result_job_id result) []).

Definition internal_server_error : jsstring := lit "Internal server error".

(** A coordinator with an idle worker on which [LaunchProof] runs into the
    deadline of the wrapper. *)
Definition slow_coordinator : coordinator := {|
  SystemStatus := SystemStatus idle_coordinator;
  JobsList := JobsList idle_coordinator;
  LaunchProof := fun _ => Rejects (timeout_error (lit "LaunchProof") 90000);
  launch_outlasts_timer := false
|}.

(** A coordinator with an idle worker that goes down while [LaunchProof] is
    pending, after the timer of the endpoint has fired. *)
Definition late_coordinator : coordinator := {|
  SystemStatus := SystemStatus idle_coordinator;
  JobsList := JobsList idle_coordinator;
  LaunchProof := fun _ =>
    Rejects {| err_code := VNum grpc_status.UNAVAILABLE;
               err_message := lit "14 UNAVAILABLE: Connection dropped";
               err_string := lit "Error: 14 UNAVAILABLE: Connection dropped" |};
  launch_outlasts_timer := true
|}.

(** ** Process supervisor: the tracked processes *)

(** A [ChildProcess] handle as the supervisor reads it. *)
Record child := {
  pid : Z;
  killed : bool;
  exitCode : option Z
}.

(** [!proc.killed && proc.exitCode === null] *)
Definition alive (proc : child) : bool :=
  negb (killed proc) && match exitCode proc with None => true | Some _ => false end.

(** How a child process ends, as its [exit] event reports it: with an exit
    code, or by a signal.  The handle of a process ended by a signal keeps
    [exitCode] null, and [killed] false when the signal was not sent through
    the handle. *)
Inductive exit_status :=
| ExitCode (code : Z)
| ExitSignal (signal : jsstring).

(** [exitCode] of the handle of a process that has ended or not. *)
Definition exitCode_after (ended : option exit_status) : option Z :=
  match ended with
  | Some (ExitCode code) => Some code
  | Some (ExitSignal _) | None => None
  end.

(** [proc.killed || proc.exitCode !== null], what the start handlers test
    after their wait. *)
Definition failed_to_start (proc : child) : bool :=
  killed proc || match exitCode proc with Some _ => true | None => false end.

(** A [Map] keyed by worker id; its entries are kept in insertion order,
    which is the order of [entries()]. *)
Definition worker_map := list (jsstring * child).

Fixpoint map_get (id : jsstring) (m : worker_map) : option child :=
  match m with
  | [] => None
  | (k, proc) :: rest => if bool_decide (k = id) then Some proc else map_get id rest
  end.

(** [m.set(id, proc)]: a known key keeps its place, a new one goes last. *)
Fixpoint map_set (id : jsstring) (proc : child) (m : worker_map) : worker_map :=
  match m with
  | [] => [(id, proc)]
  | (k, p) :: rest =>
      if bool_decide (k = id) then (k, proc) :: rest
      else (k, p) :: map_set id proc rest
  end.

Definition map_delete (id : jsstring) (m : worker_map) : worker_map :=
  List.filter (fun entry => negb (bool_decide (fst entry = id))) m.

(** The [processes] object. *)
Record processes := {
  proc_coordinator : option child;
  proc_workers : worker_map
}.

(** What [findCoordinatorProcess] hands to its callback: [null], a process
    id, or the [NaN] that [parseInt] gives for an unreadable one. *)
Inductive found_pid :=
| NotFound
| FoundPid (p : Z)
| FoundNaN.

(** [!!pid] *)
Definition pid_truthy (f : found_pid) : bool :=
  match f with
  | FoundPid p => negb (p =? 0)
  | _ => false
  end.

(** [a === b] *)
Definition pid_strict_eq (a b : found_pid) : bool :=
  match a, b with
  | NotFound, NotFound => true
  | FoundPid p, FoundPid q => p =? q
  | _, _ => false
  end.

(** What the supervisor does to the operating system. *)
Inductive sup_action :=
| Kill (p : Z) (signal : jsstring)            (* [proc.kill] and [process.kill] *)
| Taskkill (p : Z)                            (* [taskkill /PID p /F] *)
| SpawnProcess (binPath : jsstring) (args : list jsstring) (cwd : jsstring).

Record worker_status := {
  ws_workerId : jsstring;
  ws_running : bool;
  ws_pid : Z
}.

(** The bodies the process endpoints answer with (time stamps left out). *)
Inductive sup_response :=
| SupError (status : Z) (error : jsstring)
| SupSuccess (message : jsstring) (p : option Z)
| WorkerStarted (workerId : jsstring) (p : Z)
| CoordinatorStatus (running : bool) (p : option found_pid) (managed : bool)
| WorkersStatus (workers : list worker_status) (managedPids : list Z)
                (coordinatorRunning : bool).

(** [processes.coordinator !== null && !killed && exitCode === null] *)
Definition managed_running (st : processes) : bool :=
  match proc_coordinator st with
  | Some proc => alive proc
  | None => false
  end.

(** The handler of [POST /api/worker/stop/:workerId]. *)
Definition worker_stop (workerId : jsstring) (st : processes)
  : processes * list sup_action * sup_response :=
  match map_get workerId (proc_workers st) with
  | None => (st, [], SupError 404 (lit "Worker not found"))
  | Some workerProcess =>
      ({| proc_coordinator := proc_coordinator st;
          proc_workers := map_delete workerId (proc_workers st) |},
       [Kill (pid workerProcess) (lit "SIGTERM")],
       SupSuccess (lit "Worker stopped") None)
  end.

(** [processes.workers.set(id, workerProcess)] of the worker start. *)
Definition track_worker (id : jsstring) (proc : child) (st : processes) : processes :=
  {| proc_coordinator := proc_coordinator st;
     proc_workers := map_set id proc (proc_workers st) |}.

(** The ['exit'] handler registered for the worker started as [id]. *)
Definition worker_exited (id : jsstring) (st : processes) : processes :=
  {| proc_coordinator := proc_coordinator st;
     proc_workers := map_delete id (proc_workers st) |}.

(** The ['exit'] handler registered for a coordinator. *)
Definition coordinator_exited (st : processes) : processes :=
  {| proc_coordinator := None; proc_workers := proc_workers st |}.

(** What the stop of an external coordinator meets: the platform, the two
    process listings 1.5 seconds apart, and whether the commands fail. *)
Record stop_env := {
  win32 : bool;                  (* [process.platform === 'win32'] *)
  found_first : found_pid;
  taskkill_fails : bool;
  sigterm_throws : bool;
  found_again : found_pid
}.

(** The handler of [POST /api/coordinator/stop]. *)
Definition coordinator_stop (env : stop_env) (st : processes)
  : processes * list sup_action * sup_response :=
  match proc_coordinator st with
  | Some proc =>
      ({| proc_coordinator := None; proc_workers := proc_workers st |},
       [Kill (pid proc) (lit "SIGTERM")],
       SupSuccess (lit "Coordinator stopped") None)
  | None =>
      match found_first env with
      | FoundPid p =>
          if p =? 0 then (st, [], SupError 400 (lit "Coordinator is not running"))
          else if win32 env then
            if taskkill_fails env then
              (st, [Taskkill p], SupError 500 (lit "Failed to stop coordinator"))
            else (st, [Taskkill p], SupSuccess (lit "Coordinator stopped") None)
          else if sigterm_throws env then
            (st, [Kill p (lit "SIGTERM")], SupError 500 (lit "Failed to stop coordinator"))
          else if pid_strict_eq (found_again env) (FoundPid p) then
            (st, [Kill p (lit "SIGTERM"); Kill p (lit "SIGKILL")],
             SupSuccess (lit "Coordinator stopped") None)
          else (st, [Kill p (lit "SIGTERM")], SupSuccess (lit "Coordinator stopped") None)
      | _ => (st, [], SupError 400 (lit "Coordinator is not running"))
      end
  end.

(** The handler of [GET /api/coordinator/process-status]; [external] is what
    the process listing finds. *)
Definition coordinator_process_status (external : found_pid) (st : processes)
  : sup_response :=
  match proc_coordinator st with
  | Some proc =>
      if alive proc then CoordinatorStatus true (Some (FoundPid (pid proc))) true
      else if pid_truthy external then CoordinatorStatus true (Some external) false
      else CoordinatorStatus false None false
  | None =>
      if pid_truthy external then CoordinatorStatus true (Some external) false
      else CoordinatorStatus false None false
  end.

Section CoordinatorStart.

Variable path_join : list jsstring -> jsstring.
Variable path_dirname : jsstring -> jsstring.
Variable h : host.

(** The handler of [POST /api/coordinator/start].  [external] is what the
    process listing finds, [new_pid] the id of the process spawned and
    [early_exit] how it ends if it does within the second that the handler
    waits; no other request is handled during that second.  The [exit]
    handler drops the handle however the process ends; the test after the
    wait reads [killed] and [exitCode] of the handle alone, so a process
    ended by a signal passes it.  The [spawn] itself is taken to succeed. *)
Definition coordinator_start (external : found_pid) (new_pid : Z)
    (early_exit : option exit_status) (st : processes)
  : processes * list sup_action * sup_response :=
  if managed_running st then
    (st, [], SupError 400 (lit "Coordinator is already running (managed by dashboard)"))
  else
    match external with
    | FoundPid _ | FoundNaN =>
        (st, [], SupError 400 (lit "Coordinator is already running externally. Please stop it first or use the existing instance."))
    | NotFound =>
        match findCoordinatorBinary path_join h with
        | None =>
            (st, [],
             SupError 500 (lit "zisk-coordinator binary not found. Please build it first: cargo build --release --bin zisk-coordinator"
                           ++ [10%N]
                           ++ lit "Or install it globally: cargo install --path distributed --bin zisk-coordinator"))
        | Some binPath =>
            let cwd := match ZISK_REPO h with
                       | Some repo => repo
                       | None => path_dirname binPath
                       end in
            let spawned := [SpawnProcess binPath [] cwd] in
            let coordinatorProcess :=
              {| pid := new_pid; killed := false;
                 exitCode := exitCode_after early_exit |} in
            let tracked :=
              {| proc_coordinator := Some coordinatorProcess;
                 proc_workers := proc_workers st |} in
            let after_wait :=
              match early_exit with
              | Some _ => coordinator_exited tracked
              | None => tracked
              end in
            if failed_to_start coordinatorProcess then
              (after_wait, spawned,
               SupError 500 (lit "Coordinator failed to start. Check logs."))
            else
              (after_wait, spawned,
               SupSuccess (lit "Coordinator started successfully") (Some new_pid))
        end
    end.

End CoordinatorStart.

(** What [GET /api/worker/process-status] resolves for one tracked worker:
    [isProcessRunning] is asked only when the handle looks alive. *)
Definition worker_with_status (isRunning : Z -> bool) (entry : jsstring * child)
  : worker_status :=
  let procStatus := alive (snd entry) in
  {| ws_workerId := fst entry;
     ws_running := if procStatus then isRunning (pid (snd entry)) && procStatus
                   else false;
     ws_pid := pid (snd entry) |}.

(** One round of the clean-up [forEach]. *)
Definition cleanup_dead (m : worker_map) (worker : worker_status) : worker_map :=
  if ws_running worker then m
  else match map_get (ws_workerId worker) m with
       | Some _ => map_delete (ws_workerId worker) m
       | None => m
       end.

(** An entry that the status check keeps. *)
Definition still_running (isRunning : Z -> bool) (entry : jsstring * child) : bool :=
  alive (snd entry) && isRunning (pid (snd entry)).

(** The handler of [GET /api/worker/process-status].  [external] is what the
    process listing finds for the coordinator and [isRunning] what
    [isProcessRunning] reports for a process id. *)
Definition worker_process_status (external : found_pid) (isRunning : Z -> bool)
    (st : processes) : processes * sup_response :=
  let coordinatorRunning :=
    managed_running st
    || match external with NotFound => false | _ => true end in
  if negb coordinatorRunning then
    ({| proc_coordinator := proc_coordinator st; proc_workers := [] |},
     WorkersStatus [] [] false)
  else
    let workersWithStatus := map (worker_with_status isRunning) (proc_workers st) in
    let runningWorkers := List.filter ws_running workersWithStatus in
    ({| proc_coordinator := proc_coordinator st;
        proc_workers := fold_left cleanup_dead workersWithStatus (proc_workers st) |},
     WorkersStatus runningWorkers (map ws_pid runningWorkers) true).

Section WorkerStartEndpoint.

Variable path_join : list jsstring -> jsstring.
Variable path_dirname : jsstring -> jsstring.
Variable h : host.
Variable COORDINATOR_URL : jsstring.

(** The handler of [POST /api/worker/start] with what follows the [spawn]:
    [new_pid] is the id of the process spawned and [early_exit] how it ends
    if it does within the second that the handler waits; no other request
    is handled during that second.  The [exit] handler untracks the id
    however the process ends; the test after the wait reads [killed] and
    [exitCode] of the handle alone, so a process ended by a signal passes
    it.  The [spawn] itself is taken to succeed. *)
Definition worker_start_endpoint (now : Z) (b : worker_start_body) (new_pid : Z)
    (early_exit : option exit_status) (st : processes)
  : processes * list sup_action * sup_response :=
  match worker_start path_join path_dirname h COORDINATOR_URL now b with
  | Reply status error => (st, [], SupError status error)
  | Spawn id binPath args cwd =>
      let workerProcess :=
        {| pid := new_pid; killed := false;
           exitCode := exitCode_after early_exit |} in
      let tracked := track_worker id workerProcess st in
      let after_wait :=
        match early_exit with
        | Some _ => worker_exited id tracked
        | None => tracked
        end in
      if failed_to_start workerProcess then
        (worker_exited id after_wait,
         [SpawnProcess binPath args cwd],
         SupError 500 (lit "Worker failed to start. Check logs."))
      else
        (after_wait, [SpawnProcess binPath args cwd], WorkerStarted id new_pid)
  end.

End WorkerStartEndpoint.

(** [path.dirname] on an absolute path without a trailing slash, for the
    examples. *)
Fixpoint simple_dirname_aux (s : jsstring) : option jsstring :=
  match s with
  | [] => None
  | c :: rest =>
      match simple_dirname_aux rest with
      | Some dir => Some (c :: dir)
      | None => if (c =? 47)%N then Some [] else None
      end
  end.

Definition simple_dirname (s : jsstring) : jsstring :=
  match simple_dirname_aux s with
  | Some [] => lit "/"
  | Some dir => dir
  | None => lit "."
  end.

(** A host where both binaries are installed and a program with its input
    is on disk. *)
Definition ready_host : host := {|
  env_HOME := None;
  which := fun _ => None;
  existsSync := fun p =>
    existsb (jsstring_eqb p)
      [lit "/usr/local/bin/zisk-worker"; lit "/usr/local/bin/zisk-coordinator";
       lit "/data/prog.elf"; lit "/data/input.bin"; lit "/data"];
  ZISK_REPO := None
|}.

Definition ready_body : worker_start_body := {|
  workerId := Some (lit "w1");
  elfPath := Some (lit "/data/prog.elf");
  inputPath := Some (lit "/data/input.bin");
  provingKeyPath := None;
  computeCapacity := VUndefined
|}.

(** ** Job endpoints *)

Section JobEndpoints.

Variable cfg : config.

(** A [JobStatus] message; the handler copies its fields into the JSON it
    answers with. *)
Variable Job : Type.

(** The fields of a [JobStatusResponse] that the handler looks at. *)
Record job_status_response := {
  jsr_result_job : option Job;        (* [response.result?.job] *)
  jsr_job : option Job;               (* [response.job] *)
  jsr_result_error : bool             (* [response.result?.error], as a condition *)
}.

Inductive job_body :=
| JobError (error : jsstring)
| JobJson (job : Job).

Inductive job_effect :=
| JobRpc (method : jsstring) (job_id : jsstring)
| JobRespond (status : Z) (body : job_body).

(** The handler of [GET /api/job/:jobId]; [jobId] is the route parameter and
    [rpc] how [grpcCall('JobStatus', { job_id })] ends. *)
Definition job_status_endpoint (rpc : jsstring -> rpc_outcome job_status_response)
    (jobId : jsstring) : list job_effect :=
  match validateJobId (VStr jobId) with
  | Invalid error => [JobRespond 400 (JobError error)]
  | Valid =>
      JobRpc (lit "JobStatus") jobId ::
      match rpc jobId with
      | Resolves response =>
          match jsr_result_job response with
          | Some job => [JobRespond 200 (JobJson job)]
          | None =>
              match jsr_job response with
              | Some job => [JobRespond 200 (JobJson job)]
              | None =>
                  if jsr_result_error response then
                    [JobRespond 404 (JobError (lit "Job not found"))]
                  else [JobRespond 404 (JobError (lit "Job not found"))]
              end
          end
      | Rejects error =>
          if strict_eq_num (err_code error) grpc_status.NOT_FOUND
             || (negb (is_empty (err_message error))
                 && includes (err_message error) (lit "not found"))
          then [JobRespond 404 (JobError (lit "Job not found"))]
          else [JobRespond 500 (JobError (sanitizeError cfg (Some error)).2)]
      end
  end.

(** The handler of [POST /api/job/:jobId/cancel]. *)
Definition job_cancel_endpoint (jobId : jsstring) : list job_effect :=
  match validateJobId (VStr jobId) with
  | Invalid error => [JobRespond 400 (JobError error)]
  | Valid =>
      [JobRespond 501 (JobError (lit "Job cancellation not yet implemented in coordinator"))]
  end.

Definition job_rpcs (effs : list job_effect) : list (jsstring * jsstring) :=
  omap (fun e => match e with JobRpc m id => Some (m, id) | _ => None end) effs.

Definition job_responses (effs : list job_effect) : list (Z * job_body) :=
  omap (fun e => match e with JobRespond s b => Some (s, b) | _ => None end) effs.

End JobEndpoints.

Arguments JobError {Job}.
Arguments JobJson {Job}.
Arguments JobRpc {Job}.
Arguments JobRespond {Job}.
Arguments jsr_result_job {Job}.
Arguments jsr_job {Job}.
Arguments jsr_result_error {Job}.
Arguments job_rpcs {Job}.
Arguments job_responses {Job}.

(** ** Proof files *)

(** What the gateway reads of the file system for the proof files. *)
Inductive stat_outcome :=
| StatOk (size : Z)
| StatENOENT
| StatFails (error : js_error).

Record proof_store := {
  PROOFS_DIR : option jsstring;               (* [process.env.PROOFS_DIR] *)
  process_cwd : jsstring;                     (* [process.cwd()] *)
  access : jsstring -> bool;                  (* [fs.access] resolves *)
  readdir : jsstring -> option (list jsstring);  (* [fs.readdir]; [None] when it rejects *)
  stat : jsstring -> stat_outcome             (* [fs.stat] *)
}.

(** [l.filter(Boolean)] on strings that may be undefined. *)
Definition filter_Boolean (l : list (option jsstring)) : list jsstring :=
  omap (fun p => match p with
                 | Some (c :: s) => Some (c :: s)
                 | _ => None
                 end) l.

Inductive download_result :=
| DownloadInvalid (error : jsstring)                         (* 400 *)
| DownloadNotFound (jobId : jsstring)
    (searched_locations searched_patterns : list jsstring)   (* 404 *)
| DownloadGone (proofFile : jsstring)                        (* 404, [stat] found nothing *)
| DownloadFailed (error : jsstring)                          (* 500 *)
| DownloadStream (proofFile : jsstring) (size : Z).          (* the file is piped *)

Section Download.

Variable cfg : config.
Variable path_join : list jsstring -> jsstring.
Variable h : host.
Variable fs : proof_store.

Definition download_dirs : list jsstring :=
  filter_Boolean
    [PROOFS_DIR fs;
     Some (path_join [process_cwd fs; lit "proofs"]);
     Some (path_join [process_cwd fs; lit "distributed"; lit "proofs"]);
     Some (path_join [str_or (ZISK_REPO h) []; lit "proofs"]);
     Some (path_join [str_or (env_HOME h) []; lit "proofs"])].

Definition download_patterns (jobId : jsstring) : list jsstring :=
  [lit "proof_" ++ jobId ++ lit ".fri";
   lit "proof_" ++ jobId ++ lit ".bin";
   lit "vadcop_final_proof.bin"].

(** The inner loop: the first pattern of [dir] that can be accessed. *)
Fixpoint first_accessible (dir : jsstring) (patterns : list jsstring) : option jsstring :=
  match patterns with
  | [] => None
  | pattern :: rest =>
      let candidate := path_join [dir; pattern] in
      if access fs candidate then Some candidate else first_accessible dir rest
  end.

(** The outer loop, which stops at the first directory with a hit. *)
Fixpoint search_patterns (dirs patterns : list jsstring) : option jsstring :=
  match dirs with
  | [] => None
  | dir :: rest =>
      match first_accessible dir patterns with
      | Some (c :: proofFile) => Some (c :: proofFile)
      | _ => search_patterns rest patterns
      end
  end.

(** The second search: the first file of a readable directory whose name
    holds the job id. *)
Fixpoint search_listing (dirs : list jsstring) (jobId : jsstring) : option jsstring :=
  match dirs with
  | [] => None
  | dir :: rest =>
      match readdir fs dir with
      | Some files =>
          match find (fun f => includes f jobId) files with
          | Some (c :: f) => Some (path_join [dir; c :: f])
          | _ => search_listing rest jobId
          end
      | None => search_listing rest jobId
      end
  end.

(** The handler of [GET /api/proofs/:jobId/download]. *)
Definition download_endpoint (jobId : jsstring) : download_result :=
  match validateJobId (VStr jobId) with
  | Invalid error => DownloadInvalid error
  | Valid =>
      let possibleDirs := download_dirs in
      let possiblePatterns := download_patterns jobId in
      let proofFile :=
        match search_patterns possibleDirs possiblePatterns with
        | Some found => Some found
        | None => search_listing possibleDirs jobId
        end in
      match proofFile with
      | Some (c :: f) =>
          match stat fs (c :: f) with
          | StatOk size => DownloadStream (c :: f) size
          | StatENOENT => DownloadGone (c :: f)
          | StatFails error => DownloadFailed (sanitizeError cfg (Some error)).2
          end
      | _ => DownloadNotFound jobId possibleDirs possiblePatterns
      end
  end.

End Download.

(** *** The names of the proof files that are listed *)

(** [[a-f0-9-]] *)
Definition hex_class (c : code_unit) : bool :=
  in_range 97 102 c || is_digit c || (c =? 45)%N.

(** The longest prefix in a class, and what follows it. *)
Fixpoint span_class (cls : code_unit -> bool) (s : jsstring) : jsstring * jsstring :=
  match s with
  | c :: rest =>
      if cls c then let '(run, tl) := span_class cls rest in (c :: run, tl)
      else ([], s)
  | [] => ([], [])
  end.

(** What follows the prefix [p] of [s]. *)
Fixpoint strip_prefix (p s : jsstring) {struct p} : option jsstring :=
  match p, s with
  | [], _ => Some s
  | _ :: _, [] => None
  | a :: p', b :: s' => if (a =? b)%N then strip_prefix p' s' else None
  end.

(** [file.match(/^proof_([a-f0-9-]+)\.fri(\.compressed)?$/)]: the first group
    and whether the second took part.  The class holds no dot, so the first
    group is the whole run of class characters after [proof_]. *)
Definition match_proof_fri (file : jsstring) : option (jsstring * bool) :=
  match strip_prefix (lit "proof_") file with
  | Some rest =>
      match span_class hex_class rest with
      | ([], _) => None
      | (id, tl) =>
          if jsstring_eqb tl (lit ".fri") then Some (id, false)
          else if jsstring_eqb tl (lit ".fri.compressed") then Some (id, true)
          else None
      end
  | None => None
  end.

(** [file.match(/^proof_([a-f0-9-]+)\.bin$/)] *)
Definition match_proof_bin (file : jsstring) : option jsstring :=
  match strip_prefix (lit "proof_") file with
  | Some rest =>
      match span_class hex_class rest with
      | ([], _) => None
      | (id, tl) => if jsstring_eqb tl (lit ".bin") then Some id else None
      end
  | None => None
  end.

(** [file.match(/^vadcop_final_proof(\.compressed)?\.bin$/)]: whether the
    group took part. *)
Definition match_vadcop (file : jsstring) : option bool :=
  if jsstring_eqb file (lit "vadcop_final_proof.bin") then Some false
  else if jsstring_eqb file (lit "vadcop_final_proof.compressed.bin") then Some true
  else None.

(** The job id and the compression flag that [GET /api/proofs] reads off a
    file name; [None] when the name is none of the three patterns. *)
Definition classify_proof_file (file : jsstring) : option (jsstring * bool) :=
  match match_proof_fri file with
  | Some (jobId, isCompressed) => Some (jobId, isCompressed)
  | None =>
      match match_proof_bin file with
      | Some jobId => Some (jobId, false)
      | None =>
          match match_vadcop file with
          | Some isCompressed => Some (lit "latest", isCompressed)
          | None => None
          end
      end
  end.

(** Whether the listing takes the file up: it has a job id and is not a
    compressed proof. *)
Definition listed_proof_file (file : jsstring) : option jsstring :=
  match classify_proof_file file with
  | Some (c :: jobId, false) => Some (c :: jobId)
  | _ => None
  end.

(** ** Configuration strings *)

(** [s.split(sep)] for a separator of one character. *)
Fixpoint split_on (sep : code_unit) (s : jsstring) : list jsstring :=
  match s with
  | [] => [[]]
  | c :: rest =>
      if (c =? sep)%N then [] :: split_on sep rest
      else match split_on sep rest with
           | first :: others => (c :: first) :: others
           | [] => [[c]]
           end
  end.

(** [COORDINATOR_URL.split(':')[0] || 'localhost'] *)
Definition coordinator_host (COORDINATOR_URL : jsstring) : jsstring :=
  str_or (split_on 58 COORDINATOR_URL !! 0%nat) (lit "localhost").

(** [COORDINATOR_URL.split(':')[1] || '50051'] *)
Definition coordinator_port (COORDINATOR_URL : jsstring) : jsstring :=
  str_or (split_on 58 COORDINATOR_URL !! 1%nat) (lit "50051").

(** [ALLOWED_ORIGINS]: the variable split at the commas, or the three local
    origins. *)
Definition ALLOWED_ORIGINS (env_ALLOWED_ORIGINS : option jsstring) : list jsstring :=
  split_on 44
    (str_or env_ALLOWED_ORIGINS
       (lit "http://localhost:3000,http://localhost:5173,http://localhost:8080")).

(** The [origin] function given to [cors]: [true] when the callback gets
    [(null, true)], [false] when it gets an error. *)
Definition cors_origin (allowed : list jsstring) (origin : option jsstring) : bool :=
  match origin with
  | Some (c :: o) =>
      bool_decide (c :: o ∈ allowed) || bool_decide (lit "*" ∈ allowed)
  | _ => true
  end.

(** A proof store with one proof file, and one with none. *)
Definition one_proof_store : proof_store := {|
  PROOFS_DIR := Some (lit "/proofs");
  process_cwd := lit "/srv";
  access := fun f => jsstring_eqb f (lit "/proofs/proof_ab12.fri");
  readdir := fun _ => None;
  stat := fun f => if jsstring_eqb f (lit "/proofs/proof_ab12.fri")
                   then StatOk 1024 else StatENOENT
|}.

Definition empty_proof_store : proof_store := {|
  PROOFS_DIR := None;
  process_cwd := lit "/srv";
  access := fun _ => false;
  readdir := fun _ => None;
  stat := fun _ => StatENOENT
|}.

(** What follows a maximal run of a class: nothing, or a character outside
    the class. *)
Definition stops_class (cls : code_unit -> bool) (tl : jsstring) : Prop :=
  match tl with
  | c :: _ => cls c = false
  | [] => True
  end.

(** ** Listing processes *)

(** [s.trim()] *)
Definition trim (s : jsstring) : jsstring :=
  rev (skip_whitespace (rev (skip_whitespace s))).

(** [line.match(/^\S+\s+(\d+)/)]: the digits of the group.  Each of the three
    runs is followed by a character outside its class, so each is the longest
    run there is. *)
Definition match_pid_column (line : jsstring) : option jsstring :=
  match span_class (fun c => negb (is_js_whitespace c)) line with
  | ([], _) => None
  | (_, after_user) =>
      match span_class is_js_whitespace after_user with
      | ([], _) => None
      | (_, after_space) =>
          match span_digits after_space with
          | ([], _) => None
          | (ds, _) => Some ds
          end
      end
  end.

(** [parseInt(text, 10)] as the callback gets it: exact for a process id up
    to [MAX_SAFE_INTEGER], as [parseInt_string] is. *)
Definition pid_of_text (text : jsstring) : found_pid :=
  match parseInt_string text with
  | Some n => FoundPid n
  | None => FoundNaN
  end.

(** The loop over the lines of [ps aux]. *)
Fixpoint first_pid (lines : list jsstring) : found_pid :=
  match lines with
  | [] => NotFound
  | line :: rest =>
      if includes line (lit "zisk-coordinator") then
        match match_pid_column line with
        | Some ds => pid_of_text ds
        | None => first_pid rest
        end
      else first_pid rest
  end.

(** What a callback of [exec] does with an output that is not blank: call
    back with a value, or throw. *)
Inductive probe_result (A : Type) :=
| CallsBack (value : A)
| ThrowsError.
Arguments CallsBack {A}.
Arguments ThrowsError {A}.

(** The parsing of [findCoordinatorProcess]; on Windows the second field of
    the second line of the CSV output, without its quotes. *)
Definition parse_listing (on_win32 : bool) (stdout : jsstring) : probe_result found_pid :=
  let lines := split_on 10 (trim stdout) in
  if on_win32 then
    match lines with
    | _ :: second :: _ =>
        match split_on 44 second !! 1%nat with
        | Some field =>
            CallsBack (pid_of_text (List.filter (fun c => negb (c =? 34)%N) field))
        | None => ThrowsError
        end
    | _ => CallsBack NotFound
    end
  else CallsBack (first_pid lines).

(** What can happen after a probe has started its command. *)
Inductive probe_event :=
| ProbeTimer                                     (* the [setTimeout] callback is due *)
| ProbeExit (error : bool) (stdout : jsstring)   (* the callback of [exec] *)
| ProbeError.                                    (* the ['error'] event *)

Section Probe.

(** [findCoordinatorProcess] and [isProcessRunning] run a command under the
    same guard: a timer, the callback of [exec] and the ['error'] event of the
    child all end the probe, and the flag [callbackInvoked] lets the first of
    them alone call back. *)
Variable A : Type.
Variable nothing : A.                          (* [null], or [false] *)
Variable parse : jsstring -> probe_result A.   (* what is made of an output *)

Record probe_state := {
  callbackInvoked : bool;
  probe_timer_pending : bool;          (* set and neither fired nor cleared *)
  probe_callbacks : list A;            (* the calls of [callback], oldest first *)
  probe_kills : nat;             (* calls of [childProcess.kill()] *)
  probe_uncaught : nat                 (* exceptions thrown out of a handler *)
}.

Definition probe_start : probe_state := {|
  callbackInvoked := false; probe_timer_pending := true;
  probe_callbacks := []; probe_kills := 0; probe_uncaught := 0
|}.

Definition probe_step (st : probe_state) (e : probe_event) : probe_state :=
  match e with
  | ProbeTimer =>
      if probe_timer_pending st then
        if callbackInvoked st then
          {| callbackInvoked := true; probe_timer_pending := false;
             probe_callbacks := probe_callbacks st; probe_kills := probe_kills st;
             probe_uncaught := probe_uncaught st |}
        else
          {| callbackInvoked := true; probe_timer_pending := false;
             probe_callbacks := probe_callbacks st ++ [nothing];
             probe_kills := S (probe_kills st); probe_uncaught := probe_uncaught st |}
      else st
  | ProbeExit error stdout =>
      if callbackInvoked st then
        {| callbackInvoked := true; probe_timer_pending := false;
           probe_callbacks := probe_callbacks st; probe_kills := probe_kills st;
           probe_uncaught := probe_uncaught st |}
      else if error || is_empty stdout || (length (trim stdout) =? 0)%nat then
        {| callbackInvoked := true; probe_timer_pending := false;
           probe_callbacks := probe_callbacks st ++ [nothing];
           probe_kills := probe_kills st; probe_uncaught := probe_uncaught st |}
      else
        match parse stdout with
        | CallsBack value =>
            {| callbackInvoked := true; probe_timer_pending := false;
               probe_callbacks := probe_callbacks st ++ [value];
               probe_kills := probe_kills st; probe_uncaught := probe_uncaught st |}
        | ThrowsError =>
            {| callbackInvoked := true; probe_timer_pending := false;
               probe_callbacks := probe_callbacks st; probe_kills := probe_kills st;
               probe_uncaught := S (probe_uncaught st) |}
        end
  | ProbeError =>
      if callbackInvoked st then
        {| callbackInvoked := true; probe_timer_pending := false;
           probe_callbacks := probe_callbacks st; probe_kills := probe_kills st;
           probe_uncaught := probe_uncaught st |}
      else
        {| callbackInvoked := true; probe_timer_pending := false;
           probe_callbacks := probe_callbacks st ++ [nothing];
           probe_kills := probe_kills st; probe_uncaught := probe_uncaught st |}
  end.

Definition probe (events : list probe_event) : probe_state :=
  fold_left probe_step events probe_start.

End Probe.

Arguments callbackInvoked {A}.
Arguments probe_timer_pending {A}.
Arguments probe_callbacks {A}.
Arguments probe_kills {A}.
Arguments probe_uncaught {A}.

(** [findCoordinatorProcess(callback)] under the events that follow it. *)
Definition findCoordinatorProcess (on_win32 : bool)
    (events : list probe_event) : probe_state found_pid :=
  probe found_pid NotFound (parse_listing on_win32) events.

(** [isProcessRunning(pid, callback)] under the events that follow it. *)
Definition isProcessRunning (events : list probe_event) : probe_state bool :=
  probe bool false (fun _ => CallsBack true) events.

(** ** Discovery at start-up *)

(** What the gateway reads of its surroundings when it starts. *)
Record startup := {
  env_PROTO_PATH : option jsstring;        (* [process.env.PROTO_PATH] *)
  env_ZISK_ROOT : option jsstring;         (* [process.env.ZISK_ROOT] *)
  env_ZISK_HOME : option jsstring;         (* [process.env.ZISK_HOME] *)
  startup_HOME : option jsstring;          (* [process.env.HOME] *)
  startup_cwd : jsstring;                  (* [process.cwd()] *)
  script_dirname : jsstring;               (* [__dirname] *)
  exists_on_disk : jsstring -> bool        (* [fs.existsSync] *)
}.

Section Startup.

Variable path_join : list jsstring -> jsstring.
Variable s : startup.

Definition repo_paths : list jsstring :=
  filter_Boolean
    [env_ZISK_ROOT s;
     env_ZISK_HOME s;
     Some (path_join [startup_cwd s; lit ".."]);
     Some (path_join [startup_cwd s; lit "../.."])].

(** The test of the loop of [findZiskRepo]. *)
Definition looks_like_repo (repoPath : jsstring) : bool :=
  exists_on_disk s (path_join [repoPath; lit "Cargo.toml"])
  && exists_on_disk s (path_join [repoPath; lit "distributed"]).

(** The loop of [findZiskRepo]. *)
Fixpoint first_repo (paths : list jsstring) : option jsstring :=
  match paths with
  | [] => None
  | repoPath :: rest =>
      if looks_like_repo repoPath then Some repoPath else first_repo rest
  end.

(** [findZiskRepo()]; [None] is [null]. *)
Definition findZiskRepo : option jsstring := first_repo repo_paths.

Definition proto_file : jsstring :=
  lit "distributed/crates/grpc-api/proto/zisk_distributed_api.proto".

Definition proto_paths : list jsstring :=
  [path_join [startup_cwd s; proto_file];
   path_join [startup_cwd s; lit "../" ++ proto_file];
   path_join [startup_cwd s; lit "../../" ++ proto_file];
   path_join [script_dirname s; lit "../zisk/" ++ proto_file];
   path_join [script_dirname s; lit "../../zisk/" ++ proto_file];
   path_join [script_dirname s; lit "../../../zisk/" ++ proto_file];
   path_join [str_or (startup_HOME s) []; lit "zisk/" ++ proto_file]]
  ++ match env_ZISK_ROOT s with
     | Some (c :: root) => [path_join [c :: root; proto_file]]
     | _ => []
     end
  ++ match env_ZISK_HOME s with
     | Some (c :: home) => [path_join [c :: home; proto_file]]
     | _ => []
     end.

(** The loop of [findProtoPath]. *)
Fixpoint first_existing (paths : list jsstring) : option jsstring :=
  match paths with
  | [] => None
  | protoPath :: rest =>
      if exists_on_disk s protoPath then Some protoPath else first_existing rest
  end.

(** [findProtoPath()]; [None] is the error it throws when it finds nothing. *)
Definition findProtoPath : option jsstring :=
  match env_PROTO_PATH s with
  | Some (c :: p) =>
      if exists_on_disk s (c :: p) then Some (c :: p) else first_existing proto_paths
  | _ => first_existing proto_paths
  end.

End Startup.

(** The number of thousandths that the digits after a point stand for:
    one to three digits. *)
Definition read_fraction (f : jsstring) : option Z :=
  match f with
  | [a] => if is_digit a then Some (100 * digit_value a) else None
  | [a; b] =>
      if is_digit a && is_digit b
      then Some (100 * digit_value a + 10 * digit_value b) else None
  | [a; b; c] =>
      if is_digit a && is_digit b && is_digit c
      then Some (100 * digit_value a + 10 * digit_value b + digit_value c) else None
  | _ => None
  end.

(** The number of milliseconds that a numeral of seconds stands for: digits,
    then possibly a point and one to three digits. *)
Definition read_seconds (s : jsstring) : option Z :=
  match span_digits s with
  | ([], _) => None
  | (q, []) => Some (1000 * digits_value q)
  | (q, c :: f) =>
      if (c =? 46)%N then
        match read_fraction f with
        | Some r => Some (1000 * digits_value q + r)
        | None => None
        end
      else None
  end.

(** A configuration that allows no request at all. *)
Definition closed_config : config := {|
  DEBUG := false;
  MAX_CAPACITY := 1000;
  ALLOWED_INPUT_PATHS := None;
  RATE_LIMIT_WINDOW_MS := 60000;
  RATE_LIMIT_MAX_REQUESTS := 0
|}.

(** * Properties *)

(** ** Strings *)

Lemma startsWith_prefix (s p : jsstring) :
  startsWith s p = true ↔ p `prefix_of` s.
Proof.
  revert s; induction p as [|a p IH]; intros s; simpl.
  - split; [intros _; apply prefix_nil | done].
  - destruct s as [|b s].
    + split; [done | intros Hp; by apply prefix_nil_inv in Hp].
    + rewrite andb_true_iff, N.eqb_eq, IH. split.
      * intros [-> Hp]. by apply prefix_cons.
      * intros Hp. split.
        -- by apply prefix_cons_inv_1 in Hp.
        -- by apply prefix_cons_inv_2 in Hp.
Qed.

Lemma includes_contains (s needle : jsstring) :
  includes s needle = true ↔ contains s needle.
Proof.
  unfold contains. induction s as [|c s IH]; simpl.
  - rewrite orb_false_r, startsWith_prefix. split.
    + intros [k Hk]. exists [], k. done.
    + intros (a & b & Hab). symmetry in Hab.
      apply app_eq_nil in Hab as [-> Hab]. apply app_eq_nil in Hab as [-> ->].
      done.
  - rewrite orb_true_iff, startsWith_prefix, IH. split.
    + intros [[k Hk] | (a & b & Hab)].
      * exists [], k. done.
      * exists (c :: a), b. by rewrite Hab.
    + intros (a & b & Hab). destruct a as [|c' a]; simpl in Hab.
      * left. exists b. done.
      * right. injection Hab as _ Hab. eauto.
Qed.

Lemma includes_false_not_contains (s needle : jsstring) :
  includes s needle = false ↔ ¬ contains s needle.
Proof.
  rewrite <- includes_contains. destruct (includes s needle); split; try done.
Qed.

Lemma jsstring_eqb_eq (a b : jsstring) : jsstring_eqb a b = true ↔ a = b.
Proof. unfold jsstring_eqb. apply bool_decide_eq_true. Qed.

Lemma forallb_class (cls : code_unit -> bool) (s : jsstring) :
  forallb cls s = true ↔ Forall (fun c => cls c = true) s.
Proof.
  induction s as [|c s IH]; simpl.
  - split; [constructor | done].
  - rewrite andb_true_iff, IH. split.
    + intros [? ?]. by constructor.
    + intros H. by inversion H.
Qed.

Lemma test_class_plus_spec (cls : code_unit -> bool) (s : jsstring) :
  test_class_plus cls s = true ↔ s ≠ [] ∧ Forall (fun c => cls c = true) s.
Proof.
  destruct s as [|c s]; simpl.
  - split; [done | intros [? _]; done].
  - change (cls c && forallb cls s) with (forallb cls (c :: s)).
    rewrite forallb_class. split; [done | by intros [_ ?]].
Qed.

(** ** Validators *)

Lemma validateJobId_string (s : jsstring) :
  validateJobId (VStr s) = Valid
  ↔ (1 <= length s <= 128)%nat ∧ test_class_plus id_class s = true
    ∧ jsstring_eqb s (lit "undefined") = false ∧ jsstring_eqb s (lit "null") = false
    ∧ jsstring_eqb s (lit "true") = false ∧ jsstring_eqb s (lit "false") = false.
Proof.
  unfold validateJobId. destruct s as [|c s].
  { simpl. split; [done | intros [[? _] _]; lia]. }
  cbn [truthy is_empty negb].
  change (length (c :: s) =? 0)%nat with false. cbn [orb].
  destruct (Nat.ltb_spec 128 (length (c :: s))) as [Hlen|Hlen].
  { split; [done | intros [[_ ?] _]; lia]. }
  destruct (test_class_plus id_class (c :: s)); cbn [negb];
    [|split; [done | intros (_ & ? & _); done]].
  destruct (jsstring_eqb (c :: s) (lit "undefined")); cbn [orb];
    [split; [done | intros H; decompose [and] H; congruence]|].
  destruct (jsstring_eqb (c :: s) (lit "null")); cbn [orb];
    [split; [done | intros H; decompose [and] H; congruence]|].
  destruct (jsstring_eqb (c :: s) (lit "true")); cbn [orb];
    [split; [done | intros H; decompose [and] H; congruence]|].
  destruct (jsstring_eqb (c :: s) (lit "false")); cbn [orb];
    [split; [done | intros H; decompose [and] H; congruence]|].
  split; [intros _; split_and!; try done; simpl; lia | done].
Qed.

(** C5. [validateJobId] accepts exactly the strings that match
    [^[A-Za-z0-9_-]{1,128}$] and are none of the literals "undefined",
    "null", "true" and "false"; every value that is not a string is
    rejected. *)
Theorem validateJobId_accepts_iff (id : jsval) :
  validateJobId id = Valid
  ↔ ∃ s, id = VStr s ∧ matches_bounded id_class 1 128 s ∧ s ∉ reserved_literals.
Proof.
  unfold matches_bounded, reserved_literals. split.
  - destruct id as [| | | |s| |elems]; try done.
    rewrite validateJobId_string, test_class_plus_spec.
    intros (Hlen & [_ Hcls] & H1 & H2 & H3 & H4).
    exists s. split_and!; try done; try lia.
    rewrite !elem_of_cons, elem_of_nil.
    intros [E|[E|[E|[E|[]]]]]; apply jsstring_eqb_eq in E; congruence.
  - intros (s & -> & [Hlen Hcls] & Hres).
    rewrite validateJobId_string, test_class_plus_spec.
    rewrite !elem_of_cons, elem_of_nil in Hres.
    split_and!; try done; try lia.
    + intros ->. simpl in Hlen. lia.
    + apply not_true_is_false. rewrite jsstring_eqb_eq. tauto.
    + apply not_true_is_false. rewrite jsstring_eqb_eq. tauto.
    + apply not_true_is_false. rewrite jsstring_eqb_eq. tauto.
    + apply not_true_is_false. rewrite jsstring_eqb_eq. tauto.
Qed.

Lemma absolute_check_only_root (p : jsstring) :
  test_class_plus path_class p = true →
  startsWith p (lit "/") && negb (test_slash_class_plus path_class p) = true
  ↔ p = lit "/".
Proof.
  destruct p as [|c rest]; [done|]. intros Hcls.
  change (lit "/") with [47%N]. cbn [startsWith test_slash_class_plus].
  rewrite andb_true_r. rewrite (N.eqb_sym 47 c).
  destruct (N.eqb_spec c 47) as [->|Hc]; cbn [andb negb].
  - destruct rest as [|c' rest]; [done|].
    cbn [test_class_plus] in Hcls. apply andb_true_iff in Hcls as [_ Hcls].
    change (test_class_plus path_class (c' :: rest)) with (forallb path_class (c' :: rest)).
    rewrite Hcls. split; [done | intros [=]].
  - split; [done | intros [=]; done].
Qed.

Lemma allow_list_rejects (path_resolve : jsstring -> jsstring)
    (roots : list jsstring) (p : jsstring) :
  existsb (fun allowedPath => startsWith (path_resolve p) (path_resolve allowedPath)) roots
  = false
  ↔ ∀ root, root ∈ roots → ¬ path_resolve root `prefix_of` path_resolve p.
Proof.
  induction roots as [|r roots IH]; simpl.
  - split; [intros _ root Hin; by apply elem_of_nil in Hin | done].
  - rewrite orb_false_iff, IH. split.
    + intros [Hr Hrest] root Hin. apply elem_of_cons in Hin as [->|Hin].
      * rewrite <- startsWith_prefix. by rewrite Hr.
      * by apply Hrest.
    + intros Hall. split.
      * apply not_true_is_false. rewrite startsWith_prefix.
        apply Hall. by left.
      * intros root Hin. apply Hall. by right.
Qed.

Lemma Forall_class_false (cls : code_unit -> bool) (s : jsstring) :
  ¬ Forall (fun c => cls c = true) s ↔ ∃ c, c ∈ s ∧ cls c = false.
Proof.
  rewrite <- Exists_Forall_neg by (intros c; destruct (cls c); auto).
  rewrite Exists_exists. split; intros (c & Hin & Hc); exists c; split; try done.
  - by apply not_true_is_false.
  - by rewrite Hc.
Qed.

(** C6, as amended. [validatePath] rejects a string exactly when the string is
    empty, is longer than 512 characters, contains ".." or "//", contains a
    character outside [[A-Za-z0-9/._-]], is the lone slash "/", or, with an
    allow-list configured and the kind 'input', resolves to a path that no
    resolved root of the list is a prefix of. *)
Theorem validatePath_rejects_iff (cfg : config) (path_resolve : jsstring -> jsstring)
    (p kind : jsstring) :
  validatePath cfg path_resolve (VStr p) kind ≠ Valid
  ↔ spec_path_rejected cfg path_resolve p kind ∨ p = lit "/".
Proof.
  unfold validatePath, spec_path_rejected.
  destruct p as [|c0 p0] eqn:Ep.
  { simpl. split; [intros _; by do 2 left | done]. }
  rewrite <- Ep. assert (Hne : p ≠ []) by (by rewrite Ep).
  replace (negb (truthy (VStr p))) with false by (by rewrite Ep).
  replace (length p =? 0)%nat with false by (by rewrite Ep).
  cbn [orb]. clear Ep c0 p0.
  destruct (Nat.ltb_spec 512 (length p)) as [Hlen|Hlen].
  { split; [intros _; left; by right; left | done]. }
  destruct (includes p (lit "..")) eqn:Hdd.
  { apply includes_contains in Hdd. cbn [orb].
    split; [intros _; left; do 2 right; by left | done]. }
  destruct (includes p (lit "//")) eqn:Hss.
  { apply includes_contains in Hss. cbn [orb].
    split; [intros _; left; do 3 right; by left | done]. }
  apply includes_false_not_contains in Hdd, Hss. cbn [orb].
  destruct (test_class_plus path_class p) eqn:Hcls; cbn [negb]; cycle 1.
  { split; [intros _ | done]. left. do 4 right. left.
    apply Forall_class_false. intros HF.
    assert (test_class_plus path_class p = true) by (by apply test_class_plus_spec).
    congruence. }
  pose proof (absolute_check_only_root p Hcls) as Hroot.
  apply test_class_plus_spec in Hcls as [_ Hcls].
  destruct (startsWith p (lit "/") && negb (test_slash_class_plus path_class p)).
  { split; [intros _; right; by apply Hroot | done]. }
  assert (Hnot_root : p ≠ lit "/") by (intros E; by apply Hroot in E).
  assert (Hbase : ∀ Q : Prop,
             (p = [] ∨ (512 < length p)%nat ∨ contains p (lit "..")
              ∨ contains p (lit "//") ∨ (∃ c, c ∈ p ∧ path_class c = false) ∨ Q)
             ∨ p = lit "/" → Q).
  { intros Q [[?|[?|[?|[?|[Hc|?]]]]]|?]; try done; try lia.
    apply Forall_class_false in Hc. done. }
  destruct (ALLOWED_INPUT_PATHS cfg) as [roots|] eqn:Hallow; cycle 1.
  { split; [done|]. intros H. apply Hbase in H as (roots & ? & _). done. }
  destruct (jsstring_eqb kind (lit "input")) eqn:Hkind; cycle 1.
  { split; [done|]. intros H. apply Hbase in H as (roots' & _ & Hk & _).
    apply jsstring_eqb_eq in Hk. congruence. }
  apply jsstring_eqb_eq in Hkind.
  destruct (existsb _ roots) eqn:Hex; cbn [negb].
  - split; [done|]. intros H. apply Hbase in H as (roots' & [= <-] & _ & Hall).
    apply allow_list_rejects in Hall. congruence.
  - split; [intros _ | done]. left. do 5 right.
    exists roots. split_and!; try done. by apply allow_list_rejects.
Qed.

(** C6, counterexample. With no allow-list configured, the path "/" is not
    empty, has one character, contains neither ".." nor "//" and only
    characters of the class, and is rejected all the same. *)
Lemma validatePath_rejects_root_slash :
  validatePath default_config (fun p => p) (VStr (lit "/")) (lit "input")
  = Invalid (lit "Absolute path must start with a valid directory name")
  ∧ ¬ spec_path_rejected default_config (fun p => p) (lit "/") (lit "input").
Proof.
  split; [reflexivity|].
  unfold spec_path_rejected.
  intros [H|[H|[H|[H|[H|H]]]]].
  - discriminate H.
  - simpl in H. lia.
  - apply includes_contains in H. discriminate H.
  - apply includes_contains in H. discriminate H.
  - destruct H as (c & Hin & Hc).
    apply list_elem_of_singleton in Hin as ->. discriminate Hc.
  - destruct H as (roots & Hr & _). discriminate Hr.
Qed.

(** ** Rate limiter *)

Section RateLimiterProperties.

Variable cfg : config.

Local Abbreviation W := (RATE_LIMIT_WINDOW_MS cfg).
Local Abbreviation MAX := (RATE_LIMIT_MAX_REQUESTS cfg).

Lemma rateLimit_opens (key : jsstring) (now : Z) (m : gmap jsstring rate_record) :
  opens_window m key now →
  rateLimit cfg key now m
  = (<[key := {| count := 1; resetTime := now + W |}]> m, Next).
Proof.
  unfold opens_window, rateLimit. destruct (m !! key) as [r|]; [|done].
  intros Hexp. apply Z.ltb_lt in Hexp. by rewrite Hexp.
Qed.

Lemma rateLimit_other (key key' : jsstring) (now : Z)
    (m : gmap jsstring rate_record) :
  key' ≠ key → (rateLimit cfg key' now m).1 !! key = m !! key.
Proof.
  intros Hne. unfold rateLimit.
  destruct (m !! key') as [r|]; simpl.
  - destruct (resetTime r <? now); simpl; [by rewrite lookup_insert_ne|].
    destruct (MAX <=? count r); simpl; [done | by rewrite lookup_insert_ne].
  - by rewrite lookup_insert_ne.
Qed.

Lemma rateLimit_inside (key : jsstring) (now c reset : Z)
    (m : gmap jsstring rate_record) :
  m !! key = Some {| count := c; resetTime := reset |} →
  now <= reset →
  rateLimit cfg key now m
  = if MAX <=? c then (m, Reject 429 (rate_limit_message cfg))
    else (<[key := {| count := c + 1; resetTime := reset |}]> m, Next).
Proof.
  intros Hm Hnow. unfold rateLimit. rewrite Hm. simpl.
  replace (reset <? now) with false; [done|].
  symmetry. by apply Z.ltb_ge.
Qed.

Lemma sweep_keeps (key : jsstring) (now : Z) (r : rate_record)
    (m : gmap jsstring rate_record) :
  m !! key = Some r → now <= resetTime r → sweep now m !! key = Some r.
Proof.
  intros Hm Hnow. unfold sweep. apply map_lookup_filter_Some.
  split; [done|]. simpl. lia.
Qed.

Lemma decisions_for_cons (key k : jsstring) (a : admission)
    (out : list (jsstring * admission)) :
  decisions_for key ((k, a) :: out)
  = if bool_decide (k = key) then a :: decisions_for key out
    else decisions_for key out.
Proof.
  unfold decisions_for. rewrite filter_cons. cbn [fst].
  case_decide; case_bool_decide; done.
Qed.

(** Inside a window the decisions only depend on the count reached: the
    requests up to the limit pass, all later ones are refused. *)
Lemma window_decisions (key : jsstring) (reset : Z) (evs : list rl_event) :
  Forall (within_window key reset) evs →
  ∀ (c : Z) (m : gmap jsstring rate_record),
    1 <= c <= MAX →
    m !! key = Some {| count := c; resetTime := reset |} →
    let n := requests_of key evs in
    let admitted := Nat.min n (Z.to_nat (MAX - c)) in
    decisions_for key (run_rate_limiter cfg evs m).2
    = replicate admitted Next
      ++ replicate (n - admitted) (Reject 429 (rate_limit_message cfg)).
Proof.
  induction 1 as [|ev evs Hev Hevs IH]; intros c m Hc Hm; [done|].
  destruct ev as [k now | now]; simpl in Hev; cbn [run_rate_limiter requests_of].
  - destruct (rateLimit cfg k now m) as [m1 a] eqn:Hrl.
    destruct (run_rate_limiter cfg evs m1) as [m2 out] eqn:Hrun.
    cbn [snd]. rewrite decisions_for_cons.
    case_bool_decide as Hk.
    + subst k. rewrite rateLimit_inside with (c := c) (reset := reset) in Hrl
        by (try done; by apply Hev).
      destruct (Z.leb_spec MAX c) as [Hfull|Hroom].
      * injection Hrl as <- <-.
        specialize (IH c m Hc Hm). rewrite Hrun in IH. cbn [snd] in IH.
        cbv zeta in IH. rewrite IH.
        replace (Z.to_nat (MAX - c)) with 0%nat by lia.
        rewrite !Nat.min_0_r, !Nat.sub_0_r. done.
      * injection Hrl as <- <-.
        specialize (IH (c + 1) (<[key := {| count := c + 1; resetTime := reset |}]> m)).
        rewrite Hrun in IH. cbn [snd] in IH. cbv zeta in IH.
        rewrite IH; [|lia|by rewrite lookup_insert_eq].
        replace (Z.to_nat (MAX - c)) with (S (Z.to_nat (MAX - (c + 1)))) by lia.
        rewrite <- Nat.succ_min_distr. done.
    + specialize (IH c m1 Hc). rewrite Hrun in IH. cbn [snd] in IH.
      cbv zeta in IH. rewrite IH; [done|].
      replace m1 with (rateLimit cfg k now m).1 by (by rewrite Hrl).
      by rewrite rateLimit_other.
  - apply IH; [done|]. by apply sweep_keeps.
Qed.

End RateLimiterProperties.

(** ** The gRPC call wrapper *)

Section GrpcCallProperties.

Variable Resp : Type.
Variable method : jsstring.
Variable timeoutMs : Z.

Implicit Types (st : call_state Resp) (s : signal Resp) (ev : event Resp).

Lemma clear_timer_unsettled st : unsettled st → unsettled (clear_timer Resp st).
Proof.
  intros (Hc & Hs & Ht). unfold clear_timer, unsettled.
  destruct (timeoutId st) eqn:Hid; [done|]. by rewrite Hid.
Qed.

Lemma clear_timer_finished st : finished st → clear_timer Resp st = st.
Proof. intros (_ & _ & Hid & _). unfold clear_timer. by rewrite Hid. Qed.

Lemma finish_unsettled error response st :
  unsettled st → finished (finish Resp error response st).
Proof.
  intros (Hc & Hs & Ht). unfold finish, finished. rewrite Hc.
  unfold clear_timer. cbn [set_completed timeoutId].
  destruct (timeoutId st) eqn:Hid.
  - destruct error; simpl; rewrite Hs; done.
  - assert (timer_pending st = false) as Hp.
    { destruct (timer_pending st); [by specialize (Ht eq_refl)|done]. }
    destruct error; simpl; rewrite Hs, Hp; done.
Qed.

Lemma finish_finished error response st :
  finished st → finish Resp error response st = st.
Proof. intros (Hc & _). unfold finish. by rewrite Hc. Qed.

Lemma deliver_finished s st : finished st → deliver Resp s st = st.
Proof.
  intros (Hc & _). unfold deliver.
  destruct s; rewrite Hc; simpl; rewrite ?andb_false_r;
    repeat case_match; done.
Qed.

Lemma deliver_inert s st : inert st → deliver Resp s st = st.
Proof.
  intros (Hcb & Hl & _). unfold deliver. destruct s; by rewrite ?Hcb, ?Hl.
Qed.

(** A signal either leaves the state as it is or finishes the call. *)
Lemma deliver_unsettled s st :
  unsettled st → deliver Resp s st = st ∨ finished (deliver Resp s st).
Proof.
  intros Hu. unfold deliver.
  destruct s; repeat case_match; auto using finish_unsettled.
Qed.

Lemma deliver_all_finished sigs st :
  finished st → deliver_all Resp sigs st = st.
Proof.
  intros Hf. induction sigs as [|s sigs IH]; [done|].
  unfold deliver_all in *. simpl. by rewrite deliver_finished.
Qed.

Lemma deliver_all_unsettled sigs st :
  unsettled st →
  deliver_all Resp sigs st = st ∨ finished (deliver_all Resp sigs st).
Proof.
  revert st. induction sigs as [|s sigs IH]; intros st Hu; [by left|].
  change (deliver_all Resp (s :: sigs) st)
    with (deliver_all Resp sigs (deliver Resp s st)).
  destruct (deliver_unsettled s st Hu) as [-> | Hf]; [by apply IH|].
  right. by rewrite deliver_all_finished.
Qed.

(** At its deadline a waiting call is finished, whatever the cancellation
    delivers: by a signal that came in during [call.cancel()], or by the
    timeout. *)
Lemma on_timer_pending during_cancel st :
  pending st → finished (on_timer Resp method timeoutMs during_cancel st).
Proof.
  intros [(Hc & Hs & Ht) Hp]. unfold on_timer. rewrite Hp.
  cbn [set_timer completed]. rewrite Hc. cbn [negb].
  set (st1 := set_timer Resp _ false st).
  assert (Hu1 : unsettled st1) by (split_and!; done).
  unfold cleanup.
  assert (Hu2 : unsettled (clear_timer Resp st1)) by (by apply clear_timer_unsettled).
  destruct Hu2 as (Hc2 & Hs2 & Ht2). rewrite Hc2. cbn [andb negb].
  destruct (call Resp (clear_timer Resp st1)) as [c|]; cycle 1.
  { apply finish_unsettled. split_and!; done. }
  destruct (has_cancel c); cycle 1.
  { apply finish_unsettled. split_and!; done. }
  set (st2 := count_cancel Resp _).
  assert (Hu3 : unsettled st2) by (split_and!; done).
  destruct (deliver_all_unsettled during_cancel st2 Hu3) as [-> | Hf].
  - by apply finish_unsettled.
  - by rewrite finish_finished.
Qed.

Lemma on_timer_no_timer during_cancel st :
  timer_pending st = false → on_timer Resp method timeoutMs during_cancel st = st.
Proof. intros Hp. unfold on_timer. by rewrite Hp. Qed.

Lemma step_settled st ev :
  inert st ∨ finished st → step Resp method timeoutMs st ev = st.
Proof.
  intros Hst. destruct ev as [s | during_cancel]; simpl.
  - destruct Hst; [by apply deliver_inert | by apply deliver_finished].
  - apply on_timer_no_timer. destruct Hst as [(_&_&?&_) | (_&?&_)]; done.
Qed.

Lemma step_phase st ev : phase st → phase (step Resp method timeoutMs st ev).
Proof.
  intros [Hi | [Hf | Hp]].
  - rewrite step_settled by auto. by left.
  - rewrite step_settled by auto. right; by left.
  - right. destruct ev as [s | during_cancel]; simpl.
    + destruct (deliver_unsettled s st (proj1 Hp)) as [-> | Hf]; auto.
    + left. by apply on_timer_pending.
Qed.

Lemma deliver_all_pending sigs st :
  pending st → pending (deliver_all Resp sigs st) ∨ finished (deliver_all Resp sigs st).
Proof.
  intros Hp. destruct (deliver_all_unsettled sigs st (proj1 Hp)) as [-> | Hf]; auto.
Qed.

Lemma grpcCall_start_phase cl : phase (grpcCall_start Resp method cl).
Proof.
  destruct cl as [|method_exists behaviour]; [left; done|].
  unfold grpcCall_start. set (armed := set_timer Resp true true _).
  destruct method_exists; cbn [negb]; [|left; done].
  assert (Hp : pending (set_call Resp None true false armed)) by done.
  destruct behaviour as [sync thrown | sync c].
  - right; left.
    destruct (deliver_all_pending sync _ Hp) as [[Hu Hpend] | Hf].
    + apply finish_unsettled. unfold cleanup. cbn [andb].
      by apply clear_timer_unsettled.
    + unfold cleanup. cbn [andb].
      rewrite clear_timer_finished by done. by rewrite finish_finished.
  - right.
    destruct (deliver_all_pending sync _ Hp) as [[(?&?&?) ?] | (?&?&?&?)].
    + right. done.
    + left. done.
Qed.

Lemma grpcCall_phase cl evs : phase (grpcCall Resp method timeoutMs cl evs).
Proof.
  unfold grpcCall. generalize (grpcCall_start_phase cl).
  generalize (grpcCall_start Resp method cl).
  induction evs as [|ev evs IH]; intros st Hst; [done|].
  simpl. apply IH. by apply step_phase.
Qed.

Lemma settled_phase st :
  phase st → settlements st ≠ [] → inert st ∨ finished st.
Proof.
  intros [Hi | [Hf | [(_ & Hs & _) _]]] Hne; auto. done.
Qed.

Lemma run_settled st evs :
  inert st ∨ finished st → fold_left (step Resp method timeoutMs) evs st = st.
Proof.
  intros Hst. induction evs as [|ev evs IH]; [done|].
  simpl. by rewrite step_settled.
Qed.


End GrpcCallProperties.

(** ** The launch endpoint *)

Section LaunchProperties.

Variable cfg : config.
Variable path_resolve : jsstring -> jsstring.
Variable StringToNumber : jsstring -> option Z.

Local Abbreviation handler := (launch_handler cfg path_resolve StringToNumber).
Local Abbreviation valid_body := (validates cfg path_resolve StringToNumber).

Lemma is_valid_true (v : validation) : is_valid v = true → v = Valid.
Proof. by destruct v. Qed.

(** A valid body is checked field by field and reaches the inner [try]. *)
Lemma launch_handler_valid (coord : coordinator) (req : request launch_body) :
  valid_body (req_body req) = true →
  handler coord req
  = validation_steps (req_body req)
    ++ (pre_launch_checks coord (block_id (req_body req))).1
    ++ match (pre_launch_checks coord (block_id (req_body req))).2 with
       | GuardRejected => []
       | GuardPassed | GuardSkipped =>
           forward_launch cfg StringToNumber coord (req_body req)
       end.
Proof.
  unfold validates, launch_handler, validation_steps.
  set (b := req_body req). intros Hv.
  repeat (apply andb_true_iff in Hv as [Hv ?]).
  rewrite Hv. replace (truthy (compute_capacity b)) with true by done.
  replace (truthy (input_path b)) with true by done. cbn [negb orb].
  rewrite (is_valid_true (validateJobId (block_id b))) by done.
  rewrite (is_valid_true (validateComputeCapacity _ _ _)) by done.
  rewrite (is_valid_true (validatePath _ _ (input_path b) _)) by done.
  destruct (truthy (elf_path b)).
  - rewrite (is_valid_true (validatePath _ _ (elf_path b) _)) by done.
    cbn [fst snd app]. by destruct (pre_launch_checks _ _) as [checked []].
  - cbn [fst snd app]. by destruct (pre_launch_checks _ _) as [checked []].
Qed.

(** An invalid body goes through some checks, is answered with 400 and the
    rejection is audited: nothing else happens. *)
Lemma launch_handler_invalid (coord : coordinator) (req : request launch_body) :
  valid_body (req_body req) = false →
  ∃ vals error reason,
    handler coord req
    = vals ++ [Respond 400 (ErrorBody error);
               Audit (lit "proof_launch_rejected") reason]
    ∧ forallb is_validation vals = true.
Proof.
  unfold validates, launch_handler.
  set (b := req_body req). intros Hv.
  destruct (truthy (block_id b) && truthy (compute_capacity b)
            && truthy (input_path b)) eqn:Hreq.
  - repeat (apply andb_true_iff in Hreq as [Hreq ?]).
    rewrite Hreq. replace (truthy (compute_capacity b)) with true by done.
    replace (truthy (input_path b)) with true by done.
    cbn [negb orb andb] in Hv |- *.
    destruct (validateJobId (block_id b)) as [|e1].
    2: { eexists [Validation (lit "required fields"); Validation (lit "block_id")], _, _; split; [reflexivity | done]. }
    destruct (validateComputeCapacity _ _ _) as [|e2].
    2: { eexists [Validation (lit "required fields"); Validation (lit "block_id");
                    Validation (lit "compute_capacity")], _, _; split; [reflexivity | done]. }
    destruct (validatePath _ _ (input_path b) _) as [|e3].
    2: { eexists [Validation (lit "required fields"); Validation (lit "block_id");
                    Validation (lit "compute_capacity"); Validation (lit "input_path")], _, _; split; [reflexivity | done]. }
    cbn [is_valid andb] in Hv.
    destruct (truthy (elf_path b)); [|done].
    destruct (validatePath _ _ (elf_path b) _) as [|e4]; [done|].
    cbn [fst snd].
    eexists [Validation (lit "required fields"); Validation (lit "block_id");
             Validation (lit "compute_capacity"); Validation (lit "input_path");
             Validation (lit "elf_path")], _, _; split; [reflexivity | done].
  - eexists [Validation (lit "required fields")], _, _.
    split; [|done]. cbn [app].
    replace (negb (truthy (block_id b)) || negb (truthy (compute_capacity b))
             || negb (truthy (input_path b))) with true; [done|].
    destruct (truthy (block_id b)), (truthy (compute_capacity b)),
      (truthy (input_path b)); done.
Qed.

Lemma find_finds {A} (f : A -> bool) (l : list A) (x : A) :
  x ∈ l → f x = true → ∃ y, find f l = Some y.
Proof.
  induction l as [|a l IH]; intros Hin Hx; [by apply elem_of_nil in Hin|].
  simpl. destruct (f a) eqn:Hfa; [by exists a|].
  apply elem_of_cons in Hin as [->|Hin]; [congruence | by apply IH].
Qed.

Lemma no_launch_among_validations (b : launch_body) (tail : list effect) :
  Rpc (lit "LaunchProof") ∉ tail →
  ¬ launches (validation_steps b ++ tail).
Proof.
  unfold launches, validation_steps. intros Htail Hin.
  apply elem_of_app in Hin as [Hin|Hin]; [|done].
  apply elem_of_app in Hin as [Hin|Hin].
  - rewrite !elem_of_cons, elem_of_nil in Hin.
    destruct Hin as [?|[?|[?|[?|[]]]]]; discriminate.
  - destruct (truthy (elf_path b)).
    + apply list_elem_of_singleton in Hin. discriminate.
    + by apply elem_of_nil in Hin.
Qed.

(** C1, as amended. For a body that passes validation, when the
    [SystemStatus] query answers: with no worker at all the request is
    refused with 503 and the job list is not queried; with workers but none
    idle it is refused with 503 and another message, again without querying
    the job list; with an idle worker the active jobs are queried and, when
    that query answers with a job of the same block id, the request is
    refused with 409.  None of the three issues a [LaunchProof] call. *)
Theorem launch_guard_rejections (coord : coordinator) (req : request launch_body)
    (systemStatus : SystemStatusResponse) :
  valid_body (req_body req) = true →
  SystemStatus coord = Resolves systemStatus →
  let b := req_body req in
  let totalWorkers := totalWorkers_of systemStatus in
  let idleWorkers := idleWorkers_of systemStatus in
  let effs := handler coord req in
  (totalWorkers = 0 →
     effs = validation_steps b
            ++ [Rpc (lit "SystemStatus");
                Respond 503 (ErrorBody no_workers_message);
                Audit (lit "proof_launch_rejected") (lit "no_workers_available")])
  ∧ (totalWorkers ≠ 0 → idleWorkers = 0 →
       effs = validation_steps b
              ++ [Rpc (lit "SystemStatus");
                  Respond 503 (ErrorBody (workers_busy_message totalWorkers));
                  Audit (lit "proof_launch_rejected") (lit "all_workers_busy")]
       ∧ workers_busy_message totalWorkers ≠ no_workers_message)
  ∧ (totalWorkers ≠ 0 → idleWorkers ≠ 0 → active_duplicate coord (block_id b) →
       effs = validation_steps b
              ++ [Rpc (lit "SystemStatus"); Rpc (lit "JobsList");
                  Respond 409 (ErrorBody (duplicate_message (block_id b)));
                  Audit (lit "proof_launch_rejected") (lit "duplicate_block_id")])
  ∧ (totalWorkers = 0 ∨ idleWorkers = 0 ∨ active_duplicate coord (block_id b) →
     ¬ launches effs).
Proof.
  intros Hvalid Hss b totalWorkers idleWorkers effs.
  assert (Heffs := launch_handler_valid coord req Hvalid).
  fold b effs in Heffs. unfold pre_launch_checks in Heffs. rewrite Hss in Heffs.
  fold totalWorkers idleWorkers in Heffs.
  assert (H0 : totalWorkers = 0 →
     effs = validation_steps b
            ++ [Rpc (lit "SystemStatus");
                Respond 503 (ErrorBody no_workers_message);
                Audit (lit "proof_launch_rejected") (lit "no_workers_available")]).
  { intros Ht. rewrite Ht in Heffs. by rewrite Heffs. }
  assert (H1 : totalWorkers ≠ 0 → idleWorkers = 0 →
     effs = validation_steps b
            ++ [Rpc (lit "SystemStatus");
                Respond 503 (ErrorBody (workers_busy_message totalWorkers));
                Audit (lit "proof_launch_rejected") (lit "all_workers_busy")]).
  { intros Ht Hi. apply Z.eqb_neq in Ht. rewrite Ht, Hi in Heffs.
    by rewrite Heffs. }
  assert (H2 : totalWorkers ≠ 0 → idleWorkers ≠ 0 →
     active_duplicate coord (block_id b) →
     effs = validation_steps b
            ++ [Rpc (lit "SystemStatus"); Rpc (lit "JobsList");
                Respond 409 (ErrorBody (duplicate_message (block_id b)));
                Audit (lit "proof_launch_rejected") (lit "duplicate_block_id")]).
  { intros Ht Hi (existingJobs & j & s & Hjl & Hin & Hj & Hb).
    apply Z.eqb_neq in Ht, Hi. rewrite Ht, Hi, Hjl in Heffs.
    destruct (find_finds (fun job => strict_eq_str (jobBlockId_of job) (block_id b))
                (jobs_of existingJobs) j Hin) as [dup Hdup].
    { rewrite Hj, Hb. simpl. by apply jsstring_eqb_eq. }
    rewrite Hdup in Heffs. by rewrite Heffs. }
  split_and!; try done.
  - intros Ht Hi. split; [by apply H1|]. discriminate.
  - intros Hcase.
    destruct (Z.eq_dec totalWorkers 0) as [Ht|Ht].
    { rewrite (H0 Ht). apply no_launch_among_validations.
      rewrite !elem_of_cons, elem_of_nil. intros [?|[?|[?|[]]]]; discriminate. }
    destruct (Z.eq_dec idleWorkers 0) as [Hi|Hi].
    { rewrite (H1 Ht Hi). apply no_launch_among_validations.
      rewrite !elem_of_cons, elem_of_nil. intros [?|[?|[?|[]]]]; discriminate. }
    destruct Hcase as [?|[?|Hdup]]; try done.
    rewrite (H2 Ht Hi Hdup). apply no_launch_among_validations.
    rewrite !elem_of_cons, elem_of_nil. intros [?|[?|[?|[?|[]]]]]; discriminate.
Qed.

(** C10. For a body that passes validation, when the [SystemStatus] query
    fails, or when it reports an idle worker and the [JobsList] query fails,
    the error is swallowed: after the queries nothing is sent and the
    handler goes on to audit the launch and to call [LaunchProof]. *)
Theorem launch_guard_fails_open (coord : coordinator) (req : request launch_body) :
  valid_body (req_body req) = true →
  ((∃ checkError, SystemStatus coord = Rejects checkError)
   ∨ (∃ systemStatus checkError,
        SystemStatus coord = Resolves systemStatus
        ∧ totalWorkers_of systemStatus ≠ 0 ∧ idleWorkers_of systemStatus ≠ 0
        ∧ JobsList coord = Rejects checkError)) →
  let b := req_body req in
  ∃ queries after,
    handler coord req
    = validation_steps b ++ queries
      ++ (Audit (lit "proof_launch_initiated") []
          :: Rpc (lit "LaunchProof") :: after)
    ∧ forallb is_rpc queries = true
    ∧ (Rpc (lit "LaunchProof") ∉ queries)
    ∧ forward_launch cfg StringToNumber coord b
      = Audit (lit "proof_launch_initiated") [] :: Rpc (lit "LaunchProof") :: after
    ∧ launches (handler coord req).
Proof.
  intros Hvalid Hfail b.
  assert (Heffs := launch_handler_valid coord req Hvalid). fold b in Heffs.
  assert (∃ queries,
            pre_launch_checks coord (block_id b) = (queries, GuardSkipped)
            ∧ forallb is_rpc queries = true
            ∧ Rpc (lit "LaunchProof") ∉ queries) as (queries & Hpre & Hq & Hnl).
  { unfold pre_launch_checks.
    destruct Hfail as [(e & ->) | (ss & e & -> & Ht & Hi & ->)].
    - exists [Rpc (lit "SystemStatus")]. split_and!; try done.
      rewrite list_elem_of_singleton. discriminate.
    - apply Z.eqb_neq in Ht, Hi. rewrite Ht, Hi.
      exists [Rpc (lit "SystemStatus"); Rpc (lit "JobsList")].
      split_and!; try done.
      rewrite !elem_of_cons, elem_of_nil. intros [?|[?|[]]]; discriminate. }
  rewrite Hpre in Heffs. cbn [fst snd] in Heffs.
  exists queries. eexists. split_and!; [|done|done|reflexivity|].
  - rewrite Heffs. reflexivity.
  - rewrite Heffs. unfold launches, forward_launch.
    rewrite !elem_of_app. do 2 right. right. left.
Qed.

Lemma launch_failure_effects (responseSent : bool) (error : js_error) :
  forallb (fun e => negb (is_validation e) && negb (is_rate_limit_check e))
          (launch_failure cfg responseSent error) = true.
Proof.
  unfold launch_failure, sendError. destruct responseSent; cbn [forallb];
    repeat match goal with |- context [if ?c then _ else _] => destruct c end;
    reflexivity.
Qed.

Lemma forward_launch_effects (coord : coordinator) (b : launch_body) :
  forallb (fun e => negb (is_validation e) && negb (is_rate_limit_check e))
          (forward_launch cfg StringToNumber coord b) = true.
Proof.
  unfold forward_launch. cbv zeta.
  cbn [forallb is_validation is_rate_limit_check negb andb].
  rewrite forallb_app. apply andb_true_iff. split.
  { by destruct (launch_outlasts_timer coord). }
  destruct (LaunchProof coord _); [|apply launch_failure_effects].
  unfold sendError, sendResponse.
  destruct (is_empty _), (launch_outlasts_timer coord); reflexivity.
Qed.

Lemma pre_launch_checks_effects (coord : coordinator) (block_id : jsval) :
  forallb (fun e => negb (is_validation e) && negb (is_rate_limit_check e))
          (pre_launch_checks coord block_id).1 = true.
Proof. unfold pre_launch_checks. repeat case_match; reflexivity. Qed.

(** C3, as amended. The rate-limit check comes first and its effect on
    the shared map is all that the endpoint does to it; the checks of
    validation follow, and nothing but the response, the audit record and
    the calls to the coordinator comes after them.  A request refused by
    the rate limiter is not validated and makes no call; a request that
    fails validation makes no call, and has been counted by the rate
    limiter all the same. *)
Theorem launch_pipeline_order (coord : coordinator) (now : Z)
    (req : request launch_body) (m : gmap jsstring rate_record) :
  let key := client_key req in
  let result := launch_endpoint cfg path_resolve StringToNumber coord now req m in
  result.1 = (rateLimit cfg key now m).1
  ∧ ∃ vals rest,
      result.2 = RateLimitCheck key :: vals ++ rest
      ∧ forallb is_validation vals = true
      ∧ forallb (fun e => negb (is_validation e) && negb (is_rate_limit_check e)) rest
        = true
      ∧ ((rateLimit cfg key now m).2 ≠ Next →
         vals = [] ∧ forallb (fun e => negb (is_rpc e)) rest = true)
      ∧ (valid_body (req_body req) = false →
         forallb (fun e => negb (is_rpc e)) rest = true).
Proof.
  intros key result. unfold result, launch_endpoint. fold key.
  destruct (rateLimit cfg key now m) as [m1 [|status error]] eqn:Hrl; cbn [fst snd].
  - split; [done|].
    destruct (valid_body (req_body req)) eqn:Hvalid.
    + exists (validation_steps (req_body req)).
      eexists. split_and!.
      * rewrite launch_handler_valid by done. reflexivity.
      * unfold validation_steps. by destruct (truthy _).
      * rewrite forallb_app, pre_launch_checks_effects. cbn [andb].
        destruct ((pre_launch_checks _ _).2); [done| |]; apply forward_launch_effects.
      * done.
      * done.
    + destruct (launch_handler_invalid coord req Hvalid)
        as (vals & error & reason & Heffs & Hvals).
      exists vals. eexists. split_and!.
      * fold handler. rewrite Heffs. reflexivity.
      * done.
      * done.
      * done.
      * done.
  - split; [done|]. exists [], [Respond status (ErrorBody error)].
    split_and!; done.
Qed.


End LaunchProperties.

(** C1, counterexample. One worker, busy with the job of block "b1": a
    second valid request for "b1" finds an active job with its block id, and
    is answered with 503 before the job list is even queried, not with
    409. *)
Lemma busy_duplicate_is_unavailable :
  let effs := launch_handler default_config (fun p => p) decimal_StringToNumber
                busy_coordinator (example_request example_launch) in
  validates default_config (fun p => p) decimal_StringToNumber example_launch = true
  ∧ active_duplicate busy_coordinator (block_id example_launch)
  ∧ effs = validation_steps example_launch
           ++ [Rpc (lit "SystemStatus");
               Respond 503 (ErrorBody (workers_busy_message 1));
               Audit (lit "proof_launch_rejected") (lit "all_workers_busy")]
  ∧ ¬ (∃ body, Respond 409 body ∈ effs).
Proof.
  intros effs. split_and!.
  - vm_compute. reflexivity.
  - eexists _, {| job_block_id := Some (lit "b1"); job_block_block_id := None;
                  job_job_id := Some (lit "job-1") |}, (lit "b1").
    split_and!; [reflexivity | | reflexivity | reflexivity].
    simpl. apply list_elem_of_singleton. reflexivity.
  - vm_compute. reflexivity.
  - intros [body Hin].
    assert (Heffs : effs = validation_steps example_launch
              ++ [Rpc (lit "SystemStatus");
                  Respond 503 (ErrorBody (workers_busy_message 1));
                  Audit (lit "proof_launch_rejected") (lit "all_workers_busy")])
      by (vm_compute; reflexivity).
    rewrite Heffs in Hin. cbn [validation_steps example_launch elf_path truthy app] in Hin.
    rewrite !elem_of_cons, elem_of_nil in Hin.
    destruct Hin as [?|[?|[?|[?|[?|[?|[?|[]]]]]]]]; discriminate.
Qed.

(** C1 at work: with a worker to spare, the second request for "b1" is
    refused with 409. *)
Lemma launch_guard_rejections_witness :
  launch_handler default_config (fun p => p) decimal_StringToNumber
    duplicate_coordinator (example_request example_launch)
  = validation_steps example_launch
    ++ [Rpc (lit "SystemStatus"); Rpc (lit "JobsList");
        Respond 409 (ErrorBody (duplicate_message (VStr (lit "b1"))));
        Audit (lit "proof_launch_rejected") (lit "duplicate_block_id")].
Proof.
  assert (Hvalid : validates default_config (fun p => p) decimal_StringToNumber
                     (req_body (example_request example_launch)) = true)
    by (vm_compute; reflexivity).
  assert (Hss : SystemStatus duplicate_coordinator
                = Resolves {|
                    ss_result_status :=
                      Some {| total_workers := Some 2; idle_workers := Some 1 |};
                    ss_status := None |}) by reflexivity.
  pose proof (launch_guard_rejections default_config (fun p => p)
                decimal_StringToNumber duplicate_coordinator
                (example_request example_launch) _ Hvalid Hss) as (_ & _ & H409 & _).
  apply H409.
  - discriminate.
  - discriminate.
  - eexists _, {| job_block_id := Some (lit "b1"); job_block_block_id := None;
                  job_job_id := Some (lit "job-1") |}, (lit "b1").
    split_and!; [reflexivity | | reflexivity | reflexivity].
    simpl. apply list_elem_of_singleton. reflexivity.
Defined.

(** C10 at work: the status query times out; the request for "b1" goes on
    to [LaunchProof] although the job of block "b1" is active. *)
Lemma launch_guard_fails_open_witness :
  launches (launch_handler default_config (fun p => p) decimal_StringToNumber
              unreachable_status_coordinator (example_request example_launch)).
Proof.
  assert (Hvalid : validates default_config (fun p => p) decimal_StringToNumber
                     (req_body (example_request example_launch)) = true)
    by (vm_compute; reflexivity).
  assert (Hfail :
            (∃ checkError, SystemStatus unreachable_status_coordinator = Rejects checkError)
            ∨ (∃ systemStatus checkError,
                 SystemStatus unreachable_status_coordinator = Resolves systemStatus
                 ∧ totalWorkers_of systemStatus ≠ 0 ∧ idleWorkers_of systemStatus ≠ 0
                 ∧ JobsList unreachable_status_coordinator = Rejects checkError)).
  { left. eexists. reflexivity. }
  destruct (launch_guard_fails_open default_config (fun p => p)
              decimal_StringToNumber unreachable_status_coordinator
              (example_request example_launch) Hvalid Hfail)
    as (queries & after & _ & _ & _ & _ & Hlaunch).
  exact Hlaunch.
Defined.

(** C3, counterexample. A request without a block id fails validation, and
    the rate limiter has counted it before: the client's record is created
    with a count of 1, and the rate-limit check is the first thing done. *)
Lemma invalid_launch_is_counted :
  let req := example_request example_invalid_launch in
  let result := launch_endpoint default_config (fun p => p) decimal_StringToNumber
                  idle_coordinator 0 req ∅ in
  validates default_config (fun p => p) decimal_StringToNumber (req_body req) = false
  ∧ (∅ : gmap jsstring rate_record) !! client_key req = None
  ∧ result.1 !! client_key req = Some {| count := 1; resetTime := 60000 |}
  ∧ result.2
    = [RateLimitCheck (client_key req);
       Validation (lit "required fields");
       Respond 400 (ErrorBody (lit "Missing required fields: block_id, compute_capacity, input_path"));
       Audit (lit "proof_launch_rejected") (lit "missing_fields")].
Proof.
  intros req result. split_and!.
  - reflexivity.
  - reflexivity.
  - unfold result, launch_endpoint, rateLimit.
    rewrite lookup_empty. cbn [fst]. by rewrite lookup_insert_eq.
  - vm_compute. reflexivity.
Qed.

(** ** Process supervisor *)

Section SupervisorProperties.

Variable path_join : list jsstring -> jsstring.
Variable h : host.

Lemma find_app_first {A} (f : A -> bool) (l1 l2 : list A) :
  find f (l1 ++ l2)
  = match find f l1 with
    | Some x => Some x
    | None => find f l2
    end.
Proof.
  induction l1 as [|a l1 IH]; [done|]. simpl. by destruct (f a).
Qed.

Lemma lookup_in_PATH_find (name : jsstring) :
  lookup_in_PATH h name = find (existsSync h) (path_candidates h name).
Proof.
  unfold lookup_in_PATH, path_candidates.
  destruct (which h name) as [[|c p]|]; [done| |done].
  simpl. by destruct (existsSync h (c :: p)).
Qed.

Lemma lookup_in_repo_find (name : jsstring) :
  lookup_in_repo path_join h name
  = find (existsSync h) (repo_candidates path_join h name).
Proof.
  unfold lookup_in_repo, repo_candidates.
  destruct (ZISK_REPO h) as [repo|]; [|done].
  simpl. by repeat destruct (existsSync h _).
Qed.

(** C8, as amended. Each discovery returns the first existing path of an
    ordered list of candidates, without any override from the
    configuration: for the coordinator the [PATH] lookup, then the four
    conventional installation paths, then the release and debug outputs
    under the repository root; for the worker the four conventional
    installation paths first, then the [PATH] lookup, then the build
    outputs. *)
Theorem discovery_order :
  findCoordinatorBinary path_join h
  = find (existsSync h)
      (path_candidates h (lit "zisk-coordinator")
       ++ commonPaths path_join h (lit "zisk-coordinator")
       ++ repo_candidates path_join h (lit "zisk-coordinator"))
  ∧ findWorkerBinary path_join h
    = find (existsSync h)
        (commonPaths path_join h (lit "zisk-worker")
         ++ path_candidates h (lit "zisk-worker")
         ++ repo_candidates path_join h (lit "zisk-worker")).
Proof.
  unfold findCoordinatorBinary, findWorkerBinary.
  rewrite !find_app_first, !lookup_in_PATH_find, !lookup_in_repo_find.
  split; reflexivity.
Qed.

End SupervisorProperties.

(** C8, counterexample. With a worker binary in /usr/local/bin and another
    one first on the [PATH], the discovery of the specification returns the
    one on the [PATH]; [findWorkerBinary] returns the one in
    /usr/local/bin. *)
Lemma worker_discovery_prefers_conventional :
  findWorkerBinary simple_join two_workers_host
  = Some (lit "/usr/local/bin/zisk-worker")
  ∧ spec_discovery simple_join two_workers_host None (lit "zisk-worker")
    = Some (lit "/opt/zisk/bin/zisk-worker")
  ∧ findWorkerBinary simple_join two_workers_host
    ≠ spec_discovery simple_join two_workers_host None (lit "zisk-worker").
Proof.
  assert (H1 : findWorkerBinary simple_join two_workers_host
               = Some (lit "/usr/local/bin/zisk-worker")) by (vm_compute; reflexivity).
  assert (H2 : spec_discovery simple_join two_workers_host None (lit "zisk-worker")
               = Some (lit "/opt/zisk/bin/zisk-worker")) by (vm_compute; reflexivity).
  split_and!; [done | done |]. rewrite H1, H2. discriminate.
Qed.

(** ** Decimal numbers read back by [parseInt] *)

Lemma span_digits_uint (d : Decimal.uint) :
  span_digits (lit (NilEmpty.string_of_uint d))
  = (lit (NilEmpty.string_of_uint d), []).
Proof.
  induction d as [|d IH|d IH|d IH|d IH|d IH|d IH|d IH|d IH|d IH|d IH];
    [done|..];
    change (lit (NilEmpty.string_of_uint (?D d)))
      with (hd 0%N (lit (NilEmpty.string_of_uint (D Decimal.Nil)))
            :: lit (NilEmpty.string_of_uint d));
    cbn [hd lit NilEmpty.string_of_uint list_ascii_of_string map];
    cbn [span_digits]; fold (lit (NilEmpty.string_of_uint d)); by rewrite IH.
Qed.

Lemma digits_value_acc (d : Decimal.uint) (acc : positive) :
  fold_left (fun acc c => 10 * acc + digit_value c)
            (lit (NilEmpty.string_of_uint d)) (Z.pos acc)
  = Z.pos (Pos.of_uint_acc d acc).
Proof.
  revert acc.
  induction d as [|d IH|d IH|d IH|d IH|d IH|d IH|d IH|d IH|d IH|d IH];
    intros acc; [done|..];
    change (lit (NilEmpty.string_of_uint (?D d)))
      with (hd 0%N (lit (NilEmpty.string_of_uint (D Decimal.Nil)))
            :: lit (NilEmpty.string_of_uint d));
    cbn [hd lit NilEmpty.string_of_uint list_ascii_of_string map];
    fold (lit (NilEmpty.string_of_uint d));
    cbn [fold_left Pos.of_uint_acc]; rewrite <- IH; f_equal;
    unfold digit_value; simpl; lia.
Qed.

Lemma digits_value_uint (d : Decimal.uint) :
  digits_value (lit (NilEmpty.string_of_uint d)) = Z.of_N (Pos.of_uint d).
Proof.
  unfold digits_value.
  induction d as [|d IH|d IH|d IH|d IH|d IH|d IH|d IH|d IH|d IH|d IH];
    [done|..];
    change (lit (NilEmpty.string_of_uint (?D d)))
      with (hd 0%N (lit (NilEmpty.string_of_uint (D Decimal.Nil)))
            :: lit (NilEmpty.string_of_uint d));
    cbn [hd lit NilEmpty.string_of_uint list_ascii_of_string map];
    fold (lit (NilEmpty.string_of_uint d));
    cbn [fold_left Pos.of_uint];
    match goal with
    | |- fold_left _ _ ?a = _ =>
        let v := eval vm_compute in a in change a with v
    end;
    first [exact IH | apply digits_value_acc].
Qed.

(** The first character of a number in decimal is a digit. *)
Lemma uint_head_digit (d : Decimal.uint) :
  d ≠ Decimal.Nil →
  ∃ c rest, lit (NilEmpty.string_of_uint d) = c :: rest ∧ is_digit c = true.
Proof.
  destruct d; [done|..]; intros _; eexists _, _; split; reflexivity.
Qed.

Lemma digit_not_space_nor_sign (c : code_unit) :
  is_digit c = true → is_js_whitespace c = false ∧ c ≠ 45%N ∧ c ≠ 43%N.
Proof.
  unfold is_digit, is_js_whitespace, in_range.
  rewrite andb_true_iff, !N.leb_le. intros [Hlo Hhi].
  split_and!; try lia.
  repeat (apply orb_false_iff; split);
    rewrite ?andb_false_iff, ?N.leb_gt, ?N.eqb_neq; lia.
Qed.

(** [parseInt(String(n), 10)] is [n] for a positive integer [n]. *)
Lemma parseInt_dec_pos (p : positive) : parseInt (VNum (Z.pos p)) = Some (Z.pos p).
Proof.
  unfold parseInt, ToString, dec, parseInt_string.
  change (Z.to_int (Z.pos p)) with (Decimal.Pos (Pos.to_uint p)).
  cbn [NilZero.string_of_int].
  pose proof (Unsigned.to_uint_nonnil p) as Hnn.
  assert (Hs : NilZero.string_of_uint (Pos.to_uint p)
               = NilEmpty.string_of_uint (Pos.to_uint p)).
  { unfold NilZero.string_of_uint. by destruct (Pos.to_uint p). }
  rewrite Hs.
  destruct (uint_head_digit _ Hnn) as (c & rest & Hcs & Hc).
  destruct (digit_not_space_nor_sign c Hc) as (Hsp & Hminus & Hplus).
  pose proof (span_digits_uint (Pos.to_uint p)) as Hspan.
  pose proof (digits_value_uint (Pos.to_uint p)) as Hval.
  rewrite Unsigned.of_to in Hval.
  rewrite Hcs in Hspan, Hval |- *.
  cbn [skip_whitespace]. rewrite Hsp.
  assert (Hsign : split_sign (c :: rest) = (1, c :: rest)).
  { unfold split_sign. destruct c as [|q]; [done|].
    repeat (destruct q as [q|q|]; try done). }
  rewrite Hsign, Hspan. cbn [fst]. rewrite Hval. done.
Qed.

(** ** Worker start *)

(** C9, as amended. When [computeCapacity] is omitted (or falsy, as 0 and
    the empty string are) the worker gets a capacity of 10.  A supplied
    value is read with [parseInt(_, 10)], be it a number, a string or an
    array: the request is refused with 400 when that yields [NaN] or a
    number below 1, and otherwise the integer read, up to
    [MAX_SAFE_INTEGER] where the reading and the printing of the language
    are exact, is passed on as it is.  The arguments of a spawned worker
    carry the capacity so determined. *)
Theorem worker_capacity_rule (supplied : jsval) :
  (truthy supplied = false →
     capacity_args supplied = inr [lit "--compute-capacity"; lit "10"])
  ∧ (truthy supplied = true → parseInt supplied = None →
       capacity_args supplied = inl capacity_error)
  ∧ (∀ n, truthy supplied = true → parseInt supplied = Some n → n < 1 →
       capacity_args supplied = inl capacity_error)
  ∧ (∀ n, truthy supplied = true → parseInt supplied = Some n →
       1 <= n <= MAX_SAFE_INTEGER →
       capacity_args supplied = inr [lit "--compute-capacity"; dec n])
  ∧ (∀ n, 1 <= n <= MAX_SAFE_INTEGER →
       capacity_args (VNum n) = inr [lit "--compute-capacity"; dec n]
       ∧ capacity_args (VArr [VNum n]) = inr [lit "--compute-capacity"; dec n])
  ∧ (∀ path_join path_dirname h COORDINATOR_URL now b id binPath args cwd,
       supplied = computeCapacity b →
       worker_start path_join path_dirname h COORDINATOR_URL now b
       = Spawn id binPath args cwd →
       ∃ capacity, capacity_args supplied = inr capacity
                   ∧ carries args capacity).
Proof.
  assert (Hpos : ∀ n, 1 <= n <= MAX_SAFE_INTEGER →
            capacity_args (VNum n) = inr [lit "--compute-capacity"; dec n]
            ∧ capacity_args (VArr [VNum n]) = inr [lit "--compute-capacity"; dec n]).
  { intros n Hn. unfold capacity_args.
    destruct n as [|p|p]; try lia.
    change (parseInt (VArr [VNum (Z.pos p)])) with (parseInt (VNum (Z.pos p))).
    cbn [truthy]. change (Z.pos p =? 0) with false. cbn [negb].
    rewrite parseInt_dec_pos.
    replace (Z.pos p <? 1) with false; [done|].
    symmetry. apply Z.ltb_ge. lia. }
  split_and!.
  - intros Hf. unfold capacity_args. by rewrite Hf.
  - intros Ht Hnan. unfold capacity_args. by rewrite Ht, Hnan.
  - intros n Ht Hn Hlow. unfold capacity_args. rewrite Ht, Hn.
    by replace (n <? 1) with true by (symmetry; apply Z.ltb_lt; lia).
  - intros n Ht Hn Hrange. unfold capacity_args. rewrite Ht, Hn.
    by replace (n <? 1) with false by (symmetry; apply Z.ltb_ge; lia).
  - exact Hpos.
  - intros path_join path_dirname h COORDINATOR_URL now b id binPath args cwd
      -> Hspawn.
    unfold worker_start in Hspawn.
    destruct (elfPath b) as [[|e elf]|]; try discriminate.
    destruct (inputPath b) as [[|i input]|]; try discriminate.
    destruct (findWorkerBinary path_join h) as [bin|]; try discriminate.
    destruct (negb (existsSync h (e :: elf))); try discriminate.
    destruct (negb (existsSync h (path_dirname (i :: input)))); try discriminate.
    destruct (negb (existsSync h (i :: input))); try discriminate.
    destruct (capacity_args (computeCapacity b))
      as [[status error]|capacity]; try discriminate.
    injection Hspawn as _ _ <- _.
    exists capacity. split; [done|].
    eexists [_; _; _; _; _; _], _. reflexivity.
Qed.

(** C9, counterexample. With the default maximum of 1000, a worker start
    with a capacity of 5000 is accepted and the worker gets 5000, which the
    validation of a launch request refuses. *)
Lemma worker_capacity_exceeds_maximum :
  capacity_args (VNum 5000) = inr [lit "--compute-capacity"; lit "5000"]
  ∧ MAX_CAPACITY default_config < 5000
  ∧ validateComputeCapacity decimal_StringToNumber default_config (VNum 5000)
    = Invalid (lit "Compute capacity exceeds maximum allowed (1000 CU). Please reduce the capacity requirement.").
Proof. split_and!; [vm_compute; reflexivity | simpl; lia | vm_compute; reflexivity]. Qed.

(** [parseInt] reads the digits in front: "12abc" is a capacity of 12, and
    a capacity of 0 is taken as omitted. *)
Lemma worker_capacity_lenient :
  capacity_args (VStr (lit "12abc")) = inr [lit "--compute-capacity"; lit "12"]
  ∧ capacity_args (VNum 0) = inr [lit "--compute-capacity"; lit "10"]
  ∧ capacity_args (VStr (lit "-3")) = inl capacity_error.
Proof. split_and!; vm_compute; reflexivity. Qed.

(** ** Replacement of host and port *)

Section Replacement.

Variable host replacement : jsstring.

Local Abbreviation replace_aux := (fun fuel => replace_host_port_aux fuel host replacement).
Local Abbreviation replace := (replace_host_port host replacement).

Lemma span_digits_app (s : jsstring) :
  (span_digits s).1 ++ (span_digits s).2 = s.
Proof.
  induction s as [|c s IH]; [done|]. simpl.
  destruct (is_digit c); [|done].
  destruct (span_digits s) as [ds tl]. simpl in *. by rewrite IH.
Qed.

(** A match consumes the host, the colon and at least one digit. *)
Lemma match_host_port_suffix (s rest : jsstring) :
  match_host_port host s = Some rest →
  rest `suffix_of` s ∧ (length rest < length s)%nat.
Proof.
  unfold match_host_port. destruct (startsWith s (host ++ lit ":")); [|done].
  pose proof (span_digits_app (drop (length host + 1) s)) as Happ.
  destruct (span_digits (drop (length host + 1) s)) as [[|d ds] tl]; [done|].
  intros [= ->]. simpl in Happ.
  assert (Hs : s = take (length host + 1) s ++ (d :: ds) ++ rest).
  { rewrite <- (take_drop (length host + 1) s) at 1. by rewrite <- Happ. }
  split.
  - exists (take (length host + 1) s ++ d :: ds). by rewrite <- app_assoc.
  - apply (f_equal length) in Hs. rewrite !length_app in Hs. simpl in Hs. lia.
Qed.

Lemma startsWith_app (s p1 p2 : jsstring) :
  startsWith s (p1 ++ p2) = startsWith s p1 && startsWith (drop (length p1) s) p2.
Proof.
  revert s. induction p1 as [|a p1 IH]; intros s; [done|].
  destruct s as [|b s]; [done|]. simpl. rewrite IH. by rewrite andb_assoc.
Qed.

(** Where the host, a colon and a digit stand, there is a match. *)
Lemma match_host_port_found (s : jsstring) (d : code_unit) :
  is_digit d = true →
  startsWith s (host ++ lit ":" ++ [d]) = true →
  match_host_port host s ≠ None.
Proof.
  intros Hd Hs. unfold match_host_port.
  rewrite app_assoc, startsWith_app in Hs.
  apply andb_true_iff in Hs as [Hhost Hdigit]. rewrite Hhost.
  rewrite length_app in Hdigit. change (length (lit ":")) with 1%nat in Hdigit.
  destruct (drop (length host + 1) s) as [|d' tl]; [done|].
  simpl in Hdigit. rewrite andb_true_r in Hdigit.
  apply N.eqb_eq in Hdigit as <-. simpl. rewrite Hd.
  by destruct (span_digits tl).
Qed.

Lemma replace_aux_fuel (f1 f2 : nat) (s : jsstring) :
  (length s <= f1)%nat → (length s <= f2)%nat →
  replace_aux f1 s = replace_aux f2 s.
Proof.
  revert f2 s. induction f1 as [|f1 IH]; intros f2 s H1 H2.
  - destruct s; [|simpl in H1; lia]. by destruct f2.
  - destruct f2 as [|f2].
    + destruct s; [done | simpl in H2; lia].
    + destruct s as [|c t]; [done|]. simpl in H1, H2. cbn [replace_host_port_aux].
      destruct (match_host_port host (c :: t)) as [rest|] eqn:Hm.
      * apply match_host_port_suffix in Hm as [_ Hlen]. simpl in Hlen.
        f_equal. apply IH; lia.
      * f_equal. apply IH; lia.
Qed.

(** The two equations of the replacement. *)
Lemma replace_nil : replace [] = [].
Proof. done. Qed.

Lemma replace_cons (c : code_unit) (t : jsstring) :
  replace (c :: t)
  = match match_host_port host (c :: t) with
    | Some rest => replacement ++ replace rest
    | None => c :: replace t
    end.
Proof.
  unfold replace_host_port. cbn [length replace_host_port_aux].
  destruct (match_host_port host (c :: t)) as [rest|] eqn:Hm; [|done].
  apply match_host_port_suffix in Hm as [_ Hlen]. simpl in Hlen.
  f_equal. apply replace_aux_fuel; lia.
Qed.

(** Induction along the scan of the replacement. *)
Lemma replace_ind (P : jsstring → Prop) :
  P [] →
  (∀ c t rest, match_host_port host (c :: t) = Some rest → P rest → P (c :: t)) →
  (∀ c t, match_host_port host (c :: t) = None → P t → P (c :: t)) →
  ∀ s, P s.
Proof.
  intros Hnil Hmatch Hskip s.
  remember (length s) as n eqn:Hn. revert s Hn.
  induction n as [n IH] using lt_wf_ind. intros s ->.
  destruct s as [|c t]; [done|].
  destruct (match_host_port host (c :: t)) as [rest|] eqn:Hm.
  - apply (Hmatch c t rest Hm).
    apply match_host_port_suffix in Hm as [_ Hlen].
    by apply (IH (length rest)).
  - apply (Hskip c t Hm). apply (IH (length t)); [simpl; lia | done].
Qed.

Lemma startsWith_app_cases (a x w : jsstring) :
  startsWith (a ++ x) w = true → prefix_either a w = true.
Proof.
  unfold prefix_either. revert w. induction a as [|c a IH]; intros w Hw.
  - by destruct w.
  - destruct w as [|c' w]; [done|]. simpl in *.
    apply andb_true_iff in Hw as [Hc Hw]. rewrite Hc. simpl.
    rewrite (N.eqb_sym c c'), Hc. simpl. by apply IH.
Qed.

Lemma overlaps_right_tail (c : code_unit) (w : jsstring) :
  overlaps_right replacement (c :: w) = false → overlaps_right replacement w = false.
Proof. simpl. intros H. by apply orb_false_iff in H as [_ ?]. Qed.

Lemma overlaps_right_head (c : code_unit) (w x : jsstring) :
  overlaps_right replacement (c :: w) = false →
  startsWith (replacement ++ x) (c :: w) = false.
Proof.
  cbn [overlaps_right]. intros H. apply orb_false_iff in H as [H _].
  apply not_true_is_false. intros Hs. apply startsWith_app_cases in Hs. congruence.
Qed.

(** A word that cannot run into the replacement and starts the output
    starts the input too, at a place without a match. *)
Lemma replace_startsWith (w : jsstring) :
  ∀ s, w ≠ [] → overlaps_right replacement w = false →
       startsWith (replace s) w = true →
       startsWith s w = true ∧ match_host_port host s = None.
Proof.
  intros s. revert w. induction s as [| c t rest Hm IH | c t Hm IH] using replace_ind;
    intros w Hw Hov Hs.
  - destruct w; done.
  - rewrite replace_cons, Hm in Hs. destruct w as [|c' w]; [done|].
    by rewrite overlaps_right_head in Hs.
  - rewrite replace_cons, Hm in Hs. destruct w as [|c' w]; [done|].
    split; [|done]. simpl in Hs |- *.
    apply andb_true_iff in Hs as [Hc Hs]. rewrite Hc. simpl.
    destruct w as [|c'' w]; [done|].
    apply (IH (c'' :: w)); [done | by apply overlaps_right_tail in Hov | done].
Qed.

Lemma includes_skip_replacement (a x w : jsstring) :
  overlaps_left a w = false → includes (a ++ x) w = true → includes x w = true.
Proof.
  induction a as [|c a IH]; [done|]. intros Hov Hin.
  cbn [overlaps_left] in Hov. apply orb_false_iff in Hov as [Hhead Hov].
  change ((c :: a) ++ x) with (c :: (a ++ x)) in Hin. cbn [includes] in Hin.
  apply orb_true_iff in Hin as [Hs | Hin]; [|by apply IH].
  change (c :: (a ++ x)) with ((c :: a) ++ x) in Hs.
  apply startsWith_app_cases in Hs. congruence.
Qed.

(** An occurrence of such a word in the output is an occurrence in the
    input, at a place without a match. *)
Lemma replace_includes (w : jsstring) :
  w ≠ [] →
  overlaps_left replacement w = false → overlaps_right replacement w = false →
  ∀ s, includes (replace s) w = true →
       ∃ s', s' `suffix_of` s ∧ startsWith s' w = true
             ∧ match_host_port host s' = None.
Proof.
  intros Hw Hl Hr s.
  induction s as [| c t rest Hm IH | c t Hm IH] using replace_ind; intros Hin.
  - destruct w; [done|]. simpl in Hin. done.
  - rewrite replace_cons, Hm in Hin.
    apply includes_skip_replacement in Hin; [|done].
    destruct (IH Hin) as (s' & Hsuf & Hs' & Hnone).
    exists s'. split_and!; try done.
    apply match_host_port_suffix in Hm as [Hrest _]. by etrans.
  - pose proof (replace_cons c t) as Heq. rewrite Hm in Heq.
    rewrite Heq in Hin. cbn [includes] in Hin.
    apply orb_true_iff in Hin as [Hs | Hin].
    + rewrite <- Heq in Hs.
      destruct (replace_startsWith w (c :: t) Hw Hr Hs) as [Hsw Hnone].
      by exists (c :: t).
    + destruct (IH Hin) as (s' & Hsuf & Hs' & Hnone).
      exists s'. split_and!; try done. by apply suffix_cons_r.
Qed.

Lemma suffix_includes (s s' w : jsstring) :
  s' `suffix_of` s → startsWith s' w = true → includes s w = true.
Proof.
  intros [k ->] Hs. induction k as [|c k IH]; simpl.
  - destruct s'; simpl in *; by rewrite Hs.
  - by rewrite IH, orb_true_r.
Qed.

(** The replacement does not create a word that cannot overlap it. *)
Lemma replace_preserves_absence (w s : jsstring) :
  w ≠ [] →
  overlaps_left replacement w = false → overlaps_right replacement w = false →
  includes s w = false → includes (replace s) w = false.
Proof.
  intros Hw Hl Hr Hs. apply not_true_is_false. intros Hin.
  destruct (replace_includes w Hw Hl Hr s Hin) as (s' & Hsuf & Hs' & _).
  rewrite (suffix_includes s s' w Hsuf Hs') in Hs. done.
Qed.

(** After the replacement the host is nowhere followed by a colon and a
    digit. *)
Lemma replace_removes_all (d : code_unit) (s : jsstring) :
  is_digit d = true →
  overlaps_left replacement (host ++ lit ":" ++ [d]) = false →
  overlaps_right replacement (host ++ lit ":" ++ [d]) = false →
  includes (replace s) (host ++ lit ":" ++ [d]) = false.
Proof.
  intros Hd Hl Hr. apply not_true_is_false. intros Hin.
  assert (Hw : host ++ lit ":" ++ [d] ≠ []) by (by destruct host).
  destruct (replace_includes _ Hw Hl Hr s Hin) as (s' & _ & Hs' & Hnone).
  by apply (match_host_port_found s' d Hd) in Hs'.
Qed.

End Replacement.

(** ** Error sanitization *)

(** Replaces a literal by its code units in a hypothesis. *)
Ltac eval_lit_in H :=
  repeat match type of H with
         | context [lit ?str] =>
             let v := eval vm_compute in (lit str) in
             change (lit str) with v in H
         end.

Lemma digit_cases (d : code_unit) :
  is_digit d = true →
  d ∈ [48; 49; 50; 51; 52; 53; 54; 55; 56; 57]%N.
Proof.
  unfold is_digit, in_range. rewrite andb_true_iff, !N.leb_le. intros [Hlo Hhi].
  rewrite !elem_of_cons.
  assert (d = 48 ∨ d = 49 ∨ d = 50 ∨ d = 51 ∨ d = 52 ∨ d = 53 ∨ d = 54
          ∨ d = 55 ∨ d = 56 ∨ d = 57)%N by lia.
  tauto.
Qed.

(** The text "server" cannot combine with its surroundings to a local
    address with a port. *)
Lemma server_overlaps (host : jsstring) (d : code_unit) :
  host = lit "localhost" ∨ host = lit "127.0.0.1" →
  is_digit d = true →
  overlaps_left (lit "server") (host ++ lit ":" ++ [d]) = false
  ∧ overlaps_right (lit "server") (host ++ lit ":" ++ [d]) = false.
Proof.
  intros Hhost Hd. apply digit_cases in Hd.
  rewrite !elem_of_cons, elem_of_nil in Hd.
  destruct Hhost as [-> | ->];
    destruct Hd as [->|[->|[->|[->|[->|[->|[->|[->|[->|[->|[]]]]]]]]]]];
    split; vm_compute; reflexivity.
Qed.

Lemma includes_elem (s w : jsstring) (c : code_unit) :
  includes s w = true → c ∈ w → c ∈ s.
Proof.
  rewrite includes_contains. intros (a & b & ->) Hc.
  rewrite !elem_of_app. auto.
Qed.

Lemma includes_char (s : jsstring) (c : code_unit) :
  includes s [c] = false → c ∉ s.
Proof.
  intros Hs Hc. apply list_elem_of_split in Hc as (a & b & ->).
  apply includes_false_not_contains in Hs. apply Hs. by exists a, b.
Qed.

(** Without a colon there is no host with a port. *)
Lemma no_colon_no_port (s host : jsstring) (d : code_unit) :
  58%N ∉ s → ¬ contains s (host ++ lit ":" ++ [d]).
Proof.
  intros Hs Hc. apply includes_contains in Hc. apply Hs.
  apply (includes_elem _ _ _ Hc). rewrite !elem_of_app. right; left.
  by apply list_elem_of_singleton.
Qed.

Lemma startsWith_app_disjoint (a x w : jsstring) :
  (∀ c, c ∈ w → c ∉ x) → startsWith (a ++ x) w = true → startsWith a w = true.
Proof.
  revert w. induction a as [|c a IH]; intros w Hdis Hs.
  - destruct w as [|c' w]; [done|]. destruct x as [|c'' x]; [done|].
    simpl in Hs. apply andb_true_iff in Hs as [Hc _]. apply N.eqb_eq in Hc as ->.
    exfalso. apply (Hdis c''); by left.
  - destruct w as [|c' w]; [done|]. simpl in *.
    apply andb_true_iff in Hs as [-> Hs]. simpl. apply IH; [|done].
    intros c0 Hc0. apply Hdis. by right.
Qed.

(** Appending characters foreign to a word does not add an occurrence. *)
Lemma includes_app_disjoint (a x w : jsstring) :
  w ≠ [] → (∀ c, c ∈ w → c ∉ x) →
  includes (a ++ x) w = true → includes a w = true.
Proof.
  intros Hw Hdis. induction a as [|c a IH]; intros Hin.
  - destruct w as [|c' w]; [done|]. exfalso.
    apply (Hdis c'); [by left|]. apply (includes_elem _ _ _ Hin). by left.
  - change ((c :: a) ++ x) with (c :: (a ++ x)) in Hin. cbn [includes] in Hin |- *.
    apply orb_true_iff in Hin as [Hs | Hin].
    + change (c :: (a ++ x)) with ((c :: a) ++ x) in Hs.
      by rewrite (startsWith_app_disjoint _ _ _ Hdis Hs).
    + by rewrite IH, orb_true_r.
Qed.

Lemma includes_take (n : nat) (s w : jsstring) :
  includes (take n s) w = true → includes s w = true.
Proof.
  rewrite !includes_contains. intros (a & b & Hab).
  exists a, (b ++ drop n s).
  rewrite <- (take_drop n s) at 1. rewrite Hab. by rewrite <- !app_assoc.
Qed.

(** The fixed texts of the sanitizer hold nothing sensitive. *)
Lemma fixed_text_sanitized (s : jsstring) :
  includes s (lit "proto") || includes s (lit "PROTO_PATH") || includes s (lit ":")
  = false →
  sanitized s.
Proof.
  intros H. apply orb_false_iff in H as [H Hcolon].
  apply orb_false_iff in H as [Hproto Hpath].
  apply includes_char in Hcolon.
  split_and!.
  - by apply includes_false_not_contains.
  - by apply includes_false_not_contains.
  - intros d _. by apply no_colon_no_port.
  - intros d _. by apply no_colon_no_port.
Qed.

(** What went through the two replacements holds nothing sensitive. *)
Lemma replaced_sanitized (message : jsstring) :
  includes message (lit "PROTO_PATH") || includes message (lit "proto") = false →
  sanitized (replace_host_port (lit "127.0.0.1") (lit "server")
               (replace_host_port (lit "localhost") (lit "server") message)).
Proof.
  intros H. apply orb_false_iff in H as [Hpath Hproto].
  split_and!.
  - apply includes_false_not_contains.
    do 2 (apply replace_preserves_absence; [done | reflexivity | reflexivity |]).
    done.
  - apply includes_false_not_contains.
    do 2 (apply replace_preserves_absence; [done | reflexivity | reflexivity |]).
    done.
  - intros d Hd. apply includes_false_not_contains.
    destruct (server_overlaps (lit "localhost") d) as [Hl Hr]; [by left | done |].
    apply replace_preserves_absence; [done | done | done |].
    by apply replace_removes_all.
  - intros d Hd. apply includes_false_not_contains.
    destruct (server_overlaps (lit "127.0.0.1") d) as [Hl Hr]; [by right | done |].
    by apply replace_removes_all.
Qed.

(** The head of a long message without a colon holds nothing sensitive. *)
Lemma truncated_sanitized (message : jsstring) :
  includes message (lit "PROTO_PATH") || includes message (lit "proto") = false →
  includes message (lit ":") = false →
  sanitized (substring0 200 message ++ lit "...").
Proof.
  intros H Hcolon. apply orb_false_iff in H as [Hpath Hproto].
  apply includes_char in Hcolon.
  assert (Hcolon' : 58%N ∉ substring0 200 message ++ lit "...").
  { rewrite elem_of_app. intros [Hin | Hin].
    - apply Hcolon. unfold substring0 in Hin.
      apply elem_of_take in Hin as (i & Hi & _). by apply list_elem_of_lookup_2 in Hi.
    - eval_lit_in Hin. rewrite !elem_of_cons, elem_of_nil in Hin.
      destruct Hin as [?|[?|[?|[]]]]; discriminate. }
  assert (Hword : ∀ w, w ≠ [] → (∀ c, c ∈ w → c ∉ lit "...") →
            includes message w = false →
            ¬ contains (substring0 200 message ++ lit "...") w).
  { intros w Hw Hdis Hm Hc. apply includes_contains in Hc.
    apply includes_app_disjoint in Hc; [|done|done].
    apply includes_take in Hc. congruence. }
  split_and!.
  - apply Hword; [done | | done]. intros c Hc Hdot.
    eval_lit_in Hc. eval_lit_in Hdot.
    rewrite !elem_of_cons, elem_of_nil in Hc. rewrite !elem_of_cons, elem_of_nil in Hdot.
    destruct Hdot as [->|[->|[->|[]]]];
      destruct Hc as [?|[?|[?|[?|[?|[]]]]]]; discriminate.
  - apply Hword; [done | | done]. intros c Hc Hdot.
    eval_lit_in Hc. eval_lit_in Hdot.
    rewrite !elem_of_cons, elem_of_nil in Hc. rewrite !elem_of_cons, elem_of_nil in Hdot.
    destruct Hdot as [->|[->|[->|[]]]];
      destruct Hc as [?|[?|[?|[?|[?|[?|[?|[?|[?|[?|[]]]]]]]]]]]; discriminate.
  - intros d _. by apply no_colon_no_port.
  - intros d _. by apply no_colon_no_port.
Qed.

(** Closes the case of a fixed text of the sanitizer. *)
Ltac fixed_text :=
  split;
  [ apply fixed_text_sanitized; vm_compute; reflexivity
  | intros _; apply Nat.leb_le; vm_compute; reflexivity ].

(** C4, as amended. Whatever the error, the message returned contains
    neither "proto" nor "PROTO_PATH" and nowhere "localhost" or "127.0.0.1"
    followed by a colon and a digit; when the text of the error holds no
    colon and neither "localhost" nor "127.0.0.1", the message is at most
    203 characters long (200 and the ellipsis); and the raw error is
    logged exactly when the debug flag is set. *)
Theorem sanitizeError_guarantees (cfg : config) (error : option js_error) :
  let result := sanitizeError cfg error in
  result.1 = (if DEBUG cfg then [error] else [])
  ∧ sanitized result.2
  ∧ (without_address error → (length result.2 <= 203)%nat).
Proof.
  intros result. unfold result, sanitizeError. cbn [fst snd].
  split; [done|].
  destruct error as [e|]; cycle 1.
  { fixed_text. }
  destruct (strict_eq_num (err_code e) grpc_status.NOT_FOUND).
  { fixed_text. }
  destruct (strict_eq_num (err_code e) grpc_status.UNAVAILABLE).
  { fixed_text. }
  destruct (strict_eq_num (err_code e) grpc_status.DEADLINE_EXCEEDED).
  { fixed_text. }
  destruct (strict_eq_num (err_code e) grpc_status.INVALID_ARGUMENT).
  { fixed_text. }
  destruct (strict_eq_num (err_code e) grpc_status.PERMISSION_DENIED).
  { fixed_text. }
  fold (message_of e). cbv zeta. set (message := message_of e).
  destruct (negb (is_empty message) && includes message (lit "timeout")).
  { fixed_text. }
  destruct (includes message (lit "PROTO_PATH") || includes message (lit "proto"))
    eqn:Hproto.
  { fixed_text. }
  destruct (includes message (lit "localhost") || includes message (lit "127.0.0.1")
            || includes message (lit ":")) eqn:Haddr.
  { split; [by apply replaced_sanitized|].
    intros (H1 & H2 & H3). fold message in H1, H2, H3.
    rewrite H1, H2, H3 in Haddr. done. }
  apply orb_false_iff in Haddr as [_ Hcolon].
  destruct (200 <? length message)%nat.
  - split; [by apply truncated_sanitized|]. intros _.
    rewrite length_app. unfold substring0. rewrite length_take.
    change (length (lit "...")) with 3%nat. lia.
  - fixed_text.
Qed.

(** C4 at work: a timed-out call. *)
Lemma sanitizeError_guarantees_witness :
  (length (sanitizeError default_config
             (Some (new_Error (lit "gRPC call LaunchProof timed out after 90000ms")))).2
   <= 203)%nat.
Proof.
  apply (sanitizeError_guarantees default_config
           (Some (new_Error (lit "gRPC call LaunchProof timed out after 90000ms")))).
  split_and!; reflexivity.
Defined.

(** C4, counterexample. A refused connection to another host and a missing
    file: both messages hold a colon, neither names "localhost" or
    "127.0.0.1", and both come back as they are, the first with its host and
    port, the second with its path. *)
Lemma sanitizeError_keeps_address_and_path :
  let refused := lit "connect ECONNREFUSED 10.0.0.5:50051" in
  let missing := lit "ENOENT: no such file or directory, open /etc/zisk/coordinator.toml" in
  (sanitizeError default_config (Some (new_Error refused))).2 = refused
  ∧ resembles_host_port (sanitizeError default_config (Some (new_Error refused))).2
  ∧ (sanitizeError default_config (Some (new_Error missing))).2 = missing
  ∧ resembles_path (sanitizeError default_config (Some (new_Error missing))).2.
Proof.
  intros refused missing.
  assert (H1 : (sanitizeError default_config (Some (new_Error refused))).2 = refused)
    by (vm_compute; reflexivity).
  assert (H2 : (sanitizeError default_config (Some (new_Error missing))).2 = missing)
    by (vm_compute; reflexivity).
  rewrite H1, H2. split_and!; try done.
  - exists 53%N, 53%N. split_and!; [reflexivity | reflexivity |].
    apply includes_contains. vm_compute. reflexivity.
  - exists 101%N. split; [reflexivity|].
    apply includes_contains. vm_compute. reflexivity.
Qed.

(** ** The three outcomes of a call, each won by the first event *)

Section GrpcCallOutcomes.

Variable Resp : Type.
Variable method : jsstring.
Variable timeoutMs : Z.
Variable shape : call_shape.
Variable later : list (event Resp).

Local Abbreviation started := (Client true (Returns [] (Some shape))).

Lemma started_pending :
  pending (grpcCall_start Resp method (started : client Resp)).
Proof. done. Qed.

Lemma first_event_decides (ev : event Resp) :
  let st := step Resp method timeoutMs (grpcCall_start Resp method started) ev in
  finished st →
  settlements (grpcCall Resp method timeoutMs started (ev :: later)) = settlements st.
Proof.
  intros st Hf. unfold grpcCall. cbn [fold_left]. fold st.
  by rewrite run_settled by auto.
Qed.

(** A response first: the promise resolves with it. *)
Lemma response_first (response : option Resp) :
  settlements (grpcCall Resp method timeoutMs started
                 (Signal (Callback None response) :: later))
  = [Resolved response].
Proof. by rewrite first_event_decides. Qed.

(** An error of the callback first: the promise rejects with it. *)
Lemma remote_error_first (error : js_error) (response : option Resp) :
  settlements (grpcCall Resp method timeoutMs started
                 (Signal (Callback (Some error) response) :: later))
  = [Rejected error].
Proof. by rewrite first_event_decides. Qed.

(** The deadline first: the call is cancelled when it can be, and the
    promise rejects with the timeout error. *)
Lemma deadline_first :
  let st := grpcCall Resp method timeoutMs started (TimerExpiry [] :: later) in
  settlements st = [Rejected (timeout_error method timeoutMs)]
  ∧ cancellations st = (if has_cancel shape then 1 else 0)%nat.
Proof.
  intros st. unfold st, grpcCall. cbn [fold_left].
  rewrite run_settled.
  - unfold step, on_timer, cleanup. simpl. by destruct (has_cancel shape).
  - right. apply on_timer_pending. apply started_pending.
Qed.

End GrpcCallOutcomes.

(** * Further properties *)

(** ** Rate limiter: clients apart, and the sweep *)

Section RateLimiterIsolation.

Variable cfg : config.

(** What [rateLimit] decides for a client and leaves in its record depends
    on that record alone. *)
Lemma rateLimit_local (key : jsstring) (now : Z) (m m' : gmap jsstring rate_record) :
  m !! key = m' !! key →
  (rateLimit cfg key now m).2 = (rateLimit cfg key now m').2
  ∧ (rateLimit cfg key now m).1 !! key = (rateLimit cfg key now m').1 !! key.
Proof.
  intros Hm. unfold rateLimit. rewrite <- Hm.
  destruct (m !! key) as [r|] eqn:Hr; cbn [fst snd].
  - destruct (resetTime r <? now); cbn [fst snd];
      [by rewrite !lookup_insert_eq|].
    destruct (RATE_LIMIT_MAX_REQUESTS cfg <=? count r); cbn [fst snd];
      [by rewrite Hr, <- Hm | by rewrite !lookup_insert_eq].
  - by rewrite !lookup_insert_eq.
Qed.

Lemma sweep_local (key : jsstring) (now : Z) (m m' : gmap jsstring rate_record) :
  m !! key = m' !! key → sweep now m !! key = sweep now m' !! key.
Proof. intros Hm. unfold sweep. by rewrite !map_lookup_filter, Hm. Qed.

Lemma isolation_from (key : jsstring) (evs : list rl_event) :
  ∀ m m' : gmap jsstring rate_record,
    m !! key = m' !! key →
    decisions_for key (run_rate_limiter cfg evs m).2
    = decisions_for key (run_rate_limiter cfg (own_events key evs) m').2.
Proof.
  induction evs as [|[k now|now] evs IH]; intros m m' Hm; [done| |].
  - cbn [run_rate_limiter own_events].
    destruct (rateLimit cfg k now m) as [m1 a] eqn:Hrl.
    destruct (run_rate_limiter cfg evs m1) as [m2 out] eqn:Hrun.
    cbn [snd]. rewrite decisions_for_cons.
    case_bool_decide as Hk.
    + subst k. cbn [run_rate_limiter].
      destruct (rateLimit cfg key now m') as [m1' a'] eqn:Hrl'.
      destruct (run_rate_limiter cfg (own_events key evs) m1') as [m2' out'] eqn:Hrun'.
      cbn [snd]. rewrite decisions_for_cons, bool_decide_eq_true_2 by done.
      destruct (rateLimit_local key now m m' Hm) as [Ha Hm1].
      rewrite Hrl, Hrl' in Ha, Hm1. cbn [fst snd] in Ha, Hm1. subst a'.
      f_equal. specialize (IH m1 m1' Hm1). by rewrite Hrun, Hrun' in IH.
    + specialize (IH m1 m'). rewrite Hrun in IH. cbn [snd] in IH. apply IH.
      replace m1 with (rateLimit cfg k now m).1 by (by rewrite Hrl).
      by rewrite rateLimit_other.
  - cbn [run_rate_limiter own_events]. apply IH. by apply sweep_local.
Qed.

(** X1. The requests of other clients never change what a client is
    answered: its decisions are those it would get if it were alone with
    the sweeps. *)
Theorem rateLimit_isolation (key : jsstring) (evs : list rl_event)
    (m : gmap jsstring rate_record) :
  decisions_for key (run_rate_limiter cfg evs m).2
  = decisions_for key (run_rate_limiter cfg (own_events key evs) m).2.
Proof. by apply isolation_from. Qed.

Lemma swept_before_later (t t' : Z) (swept full : gmap jsstring rate_record) :
  t <= t' → swept_before t swept full → swept_before t' swept full.
Proof.
  intros Ht H key. destruct (H key) as [Heq | (Hn & r & Hr & Hexp)]; [by left|].
  right. split; [done|]. exists r. split; [done | lia].
Qed.

Lemma swept_before_sweep (now : Z) (swept full : gmap jsstring rate_record) :
  swept_before now swept full → swept_before now (sweep now swept) full.
Proof.
  intros H key. unfold sweep. rewrite map_lookup_filter.
  destruct (H key) as [Heq | (Hn & r & Hr & Hexp)].
  - rewrite Heq. destruct (full !! key) as [r|] eqn:Hr; [|by left].
    cbn. case_guard as Hg; cbn; [by left|].
    right. split; [done|]. exists r. split; [done|]. cbn in Hg. lia.
  - rewrite Hn. right. split; [done|]. by exists r.
Qed.

Lemma swept_before_request (key : jsstring) (now : Z)
    (swept full : gmap jsstring rate_record) :
  swept_before now swept full →
  (rateLimit cfg key now swept).2 = (rateLimit cfg key now full).2
  ∧ swept_before now (rateLimit cfg key now swept).1 (rateLimit cfg key now full).1.
Proof.
  intros H. destruct (H key) as [Heq | (Hn & r & Hr & Hexp)].
  - destruct (rateLimit_local key now swept full Heq) as [Ha Hm].
    split; [done|]. intros k. destruct (decide (k = key)) as [->|Hk].
    + by left.
    + rewrite !rateLimit_other by done. apply H.
  - unfold rateLimit. rewrite Hn, Hr.
    replace (resetTime r <? now) with true by (symmetry; by apply Z.ltb_lt).
    cbn [fst snd]. split; [done|]. intros k.
    destruct (decide (k = key)) as [->|Hk].
    + left. by rewrite !lookup_insert_eq.
    + rewrite !lookup_insert_ne by done. apply H.
Qed.

Lemma sweeps_transparent_from (evs : list rl_event) :
  ∀ (t : Z) (swept full : gmap jsstring rate_record),
    clock_monotone t evs → swept_before t swept full →
    (run_rate_limiter cfg evs swept).2
    = (run_rate_limiter cfg (without_sweeps evs) full).2.
Proof.
  induction evs as [|[k now|now] evs IH]; intros t swept full Hclock Hsw; [done| |].
  - destruct Hclock as [Ht Hclock]. cbn [event_time] in Ht, Hclock.
    apply (swept_before_later t now) in Hsw; [|done].
    destruct (swept_before_request k now swept full Hsw) as [Ha Hsw'].
    cbn [run_rate_limiter without_sweeps].
    destruct (rateLimit cfg k now swept) as [m1 a].
    destruct (rateLimit cfg k now full) as [m1' a'].
    cbn [fst snd] in Ha, Hsw'. subst a'.
    specialize (IH now m1 m1' Hclock Hsw').
    destruct (run_rate_limiter cfg evs m1) as [m2 out].
    destruct (run_rate_limiter cfg (without_sweeps evs) m1') as [m2' out'].
    cbn [snd] in IH |- *. by rewrite IH.
  - destruct Hclock as [Ht Hclock]. cbn [event_time] in Ht, Hclock.
    apply (swept_before_later t now) in Hsw; [|done].
    cbn [run_rate_limiter without_sweeps].
    apply (IH now); [done|]. by apply swept_before_sweep.
Qed.

(** X2. While the clock does not run backwards, the periodic sweep changes
    no decision: every request is answered as it would be if the map were
    never swept. *)
Theorem sweep_transparent (t : Z) (evs : list rl_event)
    (m : gmap jsstring rate_record) :
  clock_monotone t evs →
  (run_rate_limiter cfg evs m).2 = (run_rate_limiter cfg (without_sweeps evs) m).2.
Proof.
  intros Hclock. apply (sweeps_transparent_from evs t); [done|].
  intros key. by left.
Qed.

End RateLimiterIsolation.

(** X2 at work: a client fills its window, the sweep runs after the window
    has ended, and the next request is admitted with or without it. *)
Lemma sweep_transparent_witness :
  let key := lit "10.0.0.7" in
  let evs := [Request key 0; Request key 10; Request key 20;
              Sweep 2000; Request key 2500] in
  clock_monotone 0 evs
  ∧ (run_rate_limiter example_config evs ∅).2
    = (run_rate_limiter example_config (without_sweeps evs) ∅).2.
Proof.
  intros key evs.
  assert (Hclock : clock_monotone 0 evs) by (simpl; lia).
  split; [done|].
  exact (sweep_transparent example_config 0 evs ∅ Hclock).
Defined.

(** ** The gRPC call wrapper: who wins, and the cancellation *)

Section GrpcCallVerdicts.

Variable Resp : Type.
Variable method : jsstring.
Variable timeoutMs : Z.
Variable shape : call_shape.

Implicit Types (st : call_state Resp) (s : signal Resp) (ev : event Resp).

Local Abbreviation started := (Client true (Returns [] (Some shape))).

Lemma started_waiting : waiting shape (grpcCall_start Resp method (started : client Resp)).
Proof. done. Qed.

Lemma finish_settlement error response st :
  unsettled st →
  settlements (finish Resp error response st)
  = [match error with Some e => Rejected e | None => Resolved response end].
Proof.
  intros (Hc & Hs & _). unfold finish. rewrite Hc.
  destruct error; cbn; unfold clear_timer; cbn; by destruct (timeoutId st); cbn; rewrite Hs.
Qed.

(** A signal that counts for nothing leaves the call as it is; one that
    counts finishes it with its verdict. *)
Lemma deliver_hearing s st :
  hearing shape st →
  match signal_verdict shape s with
  | None => deliver Resp s st = st
  | Some o => finished (deliver Resp s st) ∧ settlements (deliver Resp s st) = [o]
  end.
Proof.
  intros (Hu & Hcb & Hli).
  pose proof Hu as (Hc & _).
  destruct s as [[e|] response | [e|] | code details]; cbn [signal_verdict deliver].
  - rewrite Hcb, Hc. cbn. split; [by apply finish_unsettled | by apply finish_settlement].
  - rewrite Hcb, Hc. cbn. split; [by apply finish_unsettled | by apply finish_settlement].
  - rewrite Hli. destruct (has_on shape); [|done]. rewrite Hc. cbn.
    split; [by apply finish_unsettled | by apply finish_settlement].
  - rewrite Hli. destruct (has_on shape); [|done]. rewrite Hc. cbn.
    split; [by apply finish_unsettled | by apply finish_settlement].
  - rewrite Hli. destruct (has_on shape); [|done]. rewrite Hc.
    destruct (code =? grpc_status.OK); [done|].
    destruct (code =? grpc_status.CANCELLED); [done|]. cbn.
    split; [by apply finish_unsettled | by apply finish_settlement].
Qed.

Lemma deliver_all_hearing sigs st :
  hearing shape st →
  match first_verdict shape sigs with
  | None => deliver_all Resp sigs st = st
  | Some o => finished (deliver_all Resp sigs st)
              ∧ settlements (deliver_all Resp sigs st) = [o]
  end.
Proof.
  revert st. induction sigs as [|s sigs IH]; intros st Hh; [done|].
  change (deliver_all Resp (s :: sigs) st)
    with (deliver_all Resp sigs (deliver Resp s st)).
  cbn [first_verdict]. pose proof (deliver_hearing s st Hh) as Hs.
  destruct (signal_verdict shape s) as [o|].
  - destruct Hs as [Hf Ho]. by rewrite deliver_all_finished.
  - rewrite Hs. by apply IH.
Qed.

(** At the deadline a waiting call gets the verdict of the deadline. *)
Lemma on_timer_waiting during_cancel st :
  waiting shape st →
  ∃ o, verdict method timeoutMs shape (TimerExpiry during_cancel) = Some o
       ∧ finished (on_timer Resp method timeoutMs during_cancel st)
       ∧ settlements (on_timer Resp method timeoutMs during_cancel st) = [o].
Proof.
  intros ((Hu & Hcb & Hli) & Hp & Hcall).
  pose proof Hu as (Hc & Hs & Ht).
  unfold on_timer. rewrite Hp. cbn [set_timer completed]. rewrite Hc. cbn [negb].
  set (st1 := set_timer Resp _ false st).
  assert (Hu1 : unsettled st1) by (split_and!; done).
  pose proof (clear_timer_unsettled Resp st1 Hu1) as Hu2.
  unfold cleanup. destruct Hu2 as (Hc2 & Hs2 & Ht2). rewrite Hc2. cbn [andb negb].
  assert (Hcall2 : call Resp (clear_timer Resp st1) = Some shape).
  { unfold clear_timer. by destruct (timeoutId st1). }
  rewrite Hcall2. cbn [verdict].
  destruct (has_cancel shape).
  - set (st2 := count_cancel Resp _).
    assert (Hh2 : hearing shape st2).
    { unfold st2, clear_timer. destruct (timeoutId st1); split_and!; done. }
    pose proof (deliver_all_hearing during_cancel st2 Hh2) as Hd.
    destruct (first_verdict shape during_cancel) as [o|].
    + destruct Hd as [Hf Ho]. exists o. rewrite finish_finished by done. done.
    + rewrite Hd. eexists. split; [done|].
      split; [apply finish_unsettled | apply finish_settlement]; by destruct Hh2.
  - eexists. split; [done|].
    split; [apply finish_unsettled | apply finish_settlement]; split_and!; done.
Qed.

Lemma step_waiting ev st :
  waiting shape st →
  match verdict method timeoutMs shape ev with
  | None => step Resp method timeoutMs st ev = st
  | Some o => finished (step Resp method timeoutMs st ev)
              ∧ settlements (step Resp method timeoutMs st ev) = [o]
  end.
Proof.
  intros Hw. destruct ev as [s | during_cancel].
  - apply deliver_hearing. by destruct Hw.
  - destruct (on_timer_waiting during_cancel st Hw) as (o & -> & Hf & Ho). done.
Qed.

(** X4. Whichever event counts first wins: after a call has reached the
    transport, the events that count for nothing (a status of [OK] or
    [CANCELLED], events without a registered handler) change nothing, and
    the first other event, be it a response, an error or the deadline,
    alone decides how the promise settles, whatever follows. *)
Theorem first_counting_event_wins (quiet later : list (event Resp))
    (ev : event Resp) (o : settlement Resp) :
  Forall (fun q => verdict method timeoutMs shape q = None) quiet →
  verdict method timeoutMs shape ev = Some o →
  settlements (grpcCall Resp method timeoutMs started (quiet ++ ev :: later)) = [o].
Proof.
  intros Hquiet Hev. unfold grpcCall. rewrite fold_left_app.
  assert (Hq : fold_left (step Resp method timeoutMs) quiet
                 (grpcCall_start Resp method started)
               = grpcCall_start Resp method started).
  { induction Hquiet as [|q quiet Hq _ IH]; [done|]. cbn [fold_left].
    pose proof (step_waiting q _ started_waiting) as Hstep.
    rewrite Hq in Hstep. by rewrite Hstep. }
  rewrite Hq. cbn [fold_left].
  pose proof (step_waiting ev _ started_waiting) as Hstep.
  rewrite Hev in Hstep. destruct Hstep as [Hf Ho].
  by rewrite run_settled by auto.
Qed.

End GrpcCallVerdicts.

(** X4 at work: a status of [OK], then the response, then an error: the
    promise resolves with the response. *)
Lemma first_counting_event_wins_witness :
  let shape := {| has_on := true; has_cancel := true |} in
  settlements
    (grpcCall nat (lit "JobStatus") 30000 (Client true (Returns [] (Some shape)))
       ([Signal (StatusEvent 0 [])]
        ++ Signal (Callback None (Some 7%nat))
           :: [Signal (ErrorEvent (Some (new_Error (lit "late"))))]))
  = [Resolved (Some 7%nat)].
Proof.
  intros shape.
  apply (first_counting_event_wins nat (lit "JobStatus") 30000 shape).
  - repeat constructor.
  - reflexivity.
Defined.

Section GrpcCallCancellation.

Variable Resp : Type.
Variable method : jsstring.
Variable timeoutMs : Z.

Implicit Types (st : call_state Resp) (s : signal Resp) (ev : event Resp).

Lemma finish_cancellations error response st :
  cancellations (finish Resp error response st) = cancellations st.
Proof.
  unfold finish, clear_timer. destruct (completed st); [done|].
  cbn. by destruct (timeoutId st), error.
Qed.

Lemma deliver_cancellations s st :
  cancellations (deliver Resp s st) = cancellations st.
Proof.
  unfold deliver. destruct s; repeat case_match; try done;
    apply finish_cancellations.
Qed.

Lemma deliver_all_cancellations sigs st :
  cancellations (deliver_all Resp sigs st) = cancellations st.
Proof.
  revert st. induction sigs as [|s sigs IH]; intros st; [done|].
  change (deliver_all Resp (s :: sigs) st)
    with (deliver_all Resp sigs (deliver Resp s st)).
  by rewrite IH, deliver_cancellations.
Qed.

Lemma clear_timer_cancellations st :
  cancellations (clear_timer Resp st) = cancellations st.
Proof. unfold clear_timer. by destruct (timeoutId st). Qed.

Lemma on_timer_cancellations during_cancel st :
  (cancellations (on_timer Resp method timeoutMs during_cancel st)
   <= S (cancellations st))%nat.
Proof.
  unfold on_timer. destruct (timer_pending st); [|lia].
  cbn [set_timer completed]. destruct (completed st); cbn [negb]; [cbn; lia|].
  rewrite finish_cancellations. unfold cleanup.
  destruct (_ && _); [|rewrite clear_timer_cancellations; cbn; lia].
  destruct (call Resp _) as [c|]; [|rewrite clear_timer_cancellations; cbn; lia].
  destruct (has_cancel c); [|rewrite clear_timer_cancellations; cbn; lia].
  rewrite deliver_all_cancellations. cbn. rewrite clear_timer_cancellations. cbn. lia.
Qed.

Lemma grpcCall_start_cancellations cl :
  cancellations (grpcCall_start Resp method cl) = 0%nat.
Proof.
  destruct cl as [|[] [sync thrown | sync c]]; try done; cbn.
  - rewrite finish_cancellations, clear_timer_cancellations.
    by rewrite deliver_all_cancellations.
  - by rewrite deliver_all_cancellations.
Qed.

Lemma finished_not_pending st : finished st → pending st → False.
Proof. intros (Hc & _) [(Hc' & _) _]. congruence. Qed.

Lemma inert_not_pending st : inert st → pending st → False.
Proof. intros (_ & _ & Hp & _) [_ Hp']. congruence. Qed.

Lemma run_cancellations cl evs :
  let st := grpcCall Resp method timeoutMs cl evs in
  (cancellations st <= 1)%nat ∧ (pending st → cancellations st = 0%nat).
Proof.
  unfold grpcCall.
  assert (Hstart : phase (grpcCall_start Resp method cl)
                   ∧ (cancellations (grpcCall_start Resp method cl) <= 1)%nat
                   ∧ (pending (grpcCall_start Resp method cl) →
                      cancellations (grpcCall_start Resp method cl) = 0%nat)).
  { rewrite grpcCall_start_cancellations.
    split_and!; [apply grpcCall_start_phase | lia | done]. }
  revert Hstart. generalize (grpcCall_start Resp method cl).
  induction evs as [|ev evs IH]; intros st (Hph & Hle & Hpend); [done|].
  cbn [fold_left]. apply IH.
  destruct Hph as [Hi | [Hf | Hp]].
  - rewrite step_settled by auto. split_and!; [by left | done | done].
  - rewrite step_settled by auto. split_and!; [right; by left | done | done].
  - specialize (Hpend Hp). destruct ev as [s | during_cancel]; cbn [step].
    + split_and!.
      * destruct (deliver_unsettled Resp s st (proj1 Hp)) as [-> | Hf];
          [right; by right | right; by left].
      * rewrite deliver_cancellations. lia.
      * intros _. by rewrite deliver_cancellations.
    + pose proof (on_timer_pending Resp method timeoutMs during_cancel st Hp) as Hf.
      pose proof (on_timer_cancellations during_cancel st) as Hc.
      split_and!; [right; by left | lia |].
      intros Hp'. by destruct (finished_not_pending _ Hf Hp').
Qed.

(** X3. [call.cancel()] is invoked at most once over the life of a call,
    never while the call is still waiting, and not at all unless the
    deadline timer fires. *)
Theorem cancel_at_most_once (cl : client Resp) (evs : list (event Resp)) :
  let st := grpcCall Resp method timeoutMs cl evs in
  (cancellations st <= 1)%nat
  ∧ (pending st → cancellations st = 0%nat)
  ∧ (forallb is_signal evs = true → cancellations st = 0%nat).
Proof.
  intros st. destruct (run_cancellations cl evs) as [Hle Hp].
  split_and!; [done | done |]. intros Hsig. unfold st, grpcCall.
  rewrite <- (grpcCall_start_cancellations cl).
  clear st Hle Hp. generalize (grpcCall_start Resp method cl).
  induction evs as [|ev evs IH]; intros st0; [done|].
  cbn [forallb] in Hsig. apply andb_true_iff in Hsig as [Hev Hsig].
  cbn [fold_left]. rewrite IH by done.
  destruct ev as [s|]; [|done]. apply deliver_cancellations.
Qed.

End GrpcCallCancellation.

(** ** Error sanitization: what passes, and how long the result is *)

Section MaskingLength.

Variable host replacement : jsstring.

Lemma startsWith_length (s p : jsstring) :
  startsWith s p = true → (length p <= length s)%nat.
Proof.
  revert s. induction p as [|a p IH]; intros s Hs; [simpl; lia|].
  destruct s as [|b s]; [done|]. simpl in *.
  apply andb_true_iff in Hs as [_ Hs]. apply IH in Hs. lia.
Qed.

(** A match is at least as long as the host, the colon and one digit, and
    starts with them. *)
Lemma match_host_port_shape (s rest : jsstring) :
  match_host_port host s = Some rest →
  (length rest + (length host + 2) <= length s)%nat
  ∧ ∃ d, is_digit d = true ∧ startsWith s (host ++ lit ":" ++ [d]) = true.
Proof.
  unfold match_host_port.
  destruct (startsWith s (host ++ lit ":")) eqn:Hhost; [|done].
  pose proof (span_digits_app (drop (length host + 1) s)) as Happ.
  destruct (span_digits (drop (length host + 1) s)) as [[|d ds] tl] eqn:Hspan; [done|].
  intros [= ->]. cbn [fst snd] in Happ.
  pose proof (startsWith_length _ _ Hhost) as Hlen.
  rewrite length_app in Hlen. change (length (lit ":")) with 1%nat in Hlen.
  split.
  - assert (length (drop (length host + 1) s) = length ((d :: ds) ++ rest))
      as Hd by (by rewrite Happ).
    rewrite length_drop, length_app in Hd. simpl in Hd. lia.
  - exists d. split.
    + destruct (drop (length host + 1) s) as [|d' tl']; [done|].
      simpl in Hspan. destruct (is_digit d') eqn:Hd'; [|done].
      destruct (span_digits tl'). by injection Hspan as <- _ _.
    + rewrite app_assoc, startsWith_app, Hhost. cbn [andb].
      rewrite length_app. change (length (lit ":")) with 1%nat.
      rewrite <- Happ. simpl. by rewrite N.eqb_refl.
Qed.

(** The replacement does not lengthen a string when the text put in is no
    longer than the shortest match. *)
Lemma replace_host_port_length (s : jsstring) :
  (length replacement <= length host + 2)%nat →
  (length (replace_host_port host replacement s) <= length s)%nat.
Proof.
  intros Hrepl.
  induction s as [| c t rest Hm IH | c t Hm IH] using (replace_ind host).
  - done.
  - rewrite replace_cons, Hm, length_app.
    apply match_host_port_shape in Hm as [Hlen _]. lia.
  - rewrite replace_cons, Hm. simpl. lia.
Qed.

Lemma startsWith_includes (s w : jsstring) :
  startsWith s w = true → includes s w = true.
Proof. intros Hs. destruct s; simpl in *; by rewrite Hs. Qed.

Lemma includes_tail (c : code_unit) (t w : jsstring) :
  includes (c :: t) w = false → includes t w = false.
Proof. simpl. intros H. by apply orb_false_iff in H as [_ ?]. Qed.

(** Where the host is nowhere followed by a colon and a digit, the
    replacement changes nothing. *)
Lemma replace_host_port_identity (s : jsstring) :
  (∀ d, is_digit d = true → includes s (host ++ lit ":" ++ [d]) = false) →
  replace_host_port host replacement s = s.
Proof.
  induction s as [| c t rest Hm IH | c t Hm IH] using (replace_ind host); intros Hs.
  - done.
  - apply match_host_port_shape in Hm as [_ (d & Hd & Hstart)].
    apply startsWith_includes in Hstart. rewrite (Hs d Hd) in Hstart. done.
  - rewrite replace_cons, Hm. f_equal. apply IH.
    intros d Hd. by apply (includes_tail c), Hs.
Qed.

End MaskingLength.

Section SanitizerFurther.

Variable cfg : config.

(** X5. An error without a numeric status code whose text holds a colon, but
    neither "timeout" nor "proto" nor "PROTO_PATH", and nowhere "localhost"
    or "127.0.0.1" followed by a colon and a digit, is returned to the
    client as it is, whatever else it holds and however long it is. *)
Theorem sanitizeError_passes_through (e : js_error) :
  (∀ code, err_code e ≠ VNum code) →
  includes (message_of e) (lit ":") = true →
  includes (message_of e) (lit "timeout") = false →
  includes (message_of e) (lit "PROTO_PATH") = false →
  includes (message_of e) (lit "proto") = false →
  (∀ d, is_digit d = true →
        includes (message_of e) (lit "localhost" ++ lit ":" ++ [d]) = false) →
  (∀ d, is_digit d = true →
        includes (message_of e) (lit "127.0.0.1" ++ lit ":" ++ [d]) = false) →
  (sanitizeError cfg (Some e)).2 = message_of e.
Proof.
  intros Hcode Hcolon Htimeout Hpath Hproto Hlocal Hloop.
  unfold sanitizeError. cbn [snd].
  assert (Hnum : ∀ n, strict_eq_num (err_code e) n = false).
  { intros n. destruct (err_code e) eqn:Hc; try done. by destruct (Hcode z). }
  rewrite !Hnum. fold (message_of e). cbv zeta.
  rewrite Htimeout, andb_false_r, Hpath, Hproto, Hcolon, !orb_true_r. cbn [orb].
  rewrite (replace_host_port_identity (lit "localhost")) by done.
  by rewrite (replace_host_port_identity (lit "127.0.0.1")).
Qed.

(** X6. The message returned is never longer than the text of the error,
    or than 203 characters when that text is shorter. *)
Theorem sanitizeError_length (error : option js_error) :
  (length (sanitizeError cfg error).2
   <= Nat.max 203 (match error with
                   | Some e => length (message_of e)
                   | None => 0
                   end))%nat.
Proof.
  destruct error as [e|]; cycle 1.
  { transitivity 203%nat; [|lia]. apply Nat.leb_le. vm_compute. reflexivity. }
  unfold sanitizeError. cbn [snd]. fold (message_of e). cbv zeta.
  set (message := message_of e).
  assert (Hfixed : ∀ s : jsstring, (length s <=? 203)%nat = true →
            (length s <= Nat.max 203 (length message))%nat).
  { intros s Hs. apply Nat.leb_le in Hs. lia. }
  repeat match goal with
         | |- context [if strict_eq_num ?v ?n then _ else _] =>
             destruct (strict_eq_num v n); [apply Hfixed; vm_compute; reflexivity|]
         end.
  destruct (negb (is_empty message) && includes message (lit "timeout"));
    [apply Hfixed; vm_compute; reflexivity|].
  destruct (includes message (lit "PROTO_PATH") || includes message (lit "proto"));
    [apply Hfixed; vm_compute; reflexivity|].
  destruct (includes message (lit "localhost") || includes message (lit "127.0.0.1")
            || includes message (lit ":")).
  { transitivity (length message); [|lia].
    etrans; [apply replace_host_port_length; vm_compute; lia|].
    apply replace_host_port_length. vm_compute. lia. }
  destruct (200 <? length message)%nat; [|apply Hfixed; vm_compute; reflexivity].
  rewrite length_app. unfold substring0. rewrite length_take.
  change (length (lit "...")) with 3%nat. lia.
Qed.

End SanitizerFurther.

(** X5 at work: a refused connection to another host. *)
Lemma sanitizeError_passes_through_witness :
  let e := new_Error (lit "connect ECONNREFUSED 10.0.0.5:50051") in
  (sanitizeError default_config (Some e)).2 = message_of e.
Proof.
  intros e.
  assert (Hno_port : ∀ host d, includes (message_of e) host = false →
            includes (message_of e) (host ++ lit ":" ++ [d]) = false).
  { intros host d Hh. apply not_true_is_false. intros Hin.
    apply includes_contains in Hin as (a & b & Hab).
    apply includes_false_not_contains in Hh. apply Hh.
    exists a, ((lit ":" ++ [d]) ++ b). rewrite Hab. by rewrite <- !app_assoc. }
  apply (sanitizeError_passes_through default_config e).
  - intros code. discriminate.
  - vm_compute. reflexivity.
  - vm_compute. reflexivity.
  - vm_compute. reflexivity.
  - vm_compute. reflexivity.
  - intros d _. apply Hno_port. vm_compute. reflexivity.
  - intros d _. apply Hno_port. vm_compute. reflexivity.
Defined.

(** ** The launch endpoint: its responses *)

Section LaunchResponses.

Variable cfg : config.
Variable path_resolve : jsstring -> jsstring.
Variable StringToNumber : jsstring -> option Z.

Local Abbreviation handler := (launch_handler cfg path_resolve StringToNumber).
Local Abbreviation valid_body := (validates cfg path_resolve StringToNumber).
Local Abbreviation forward := (forward_launch cfg StringToNumber).

Lemma responses_app (a b : list effect) :
  responses (a ++ b) = responses a ++ responses b.
Proof.
  induction a as [|e a IH]; [done|]. destruct e; simpl; by rewrite IH.
Qed.

Lemma responses_validations (vals : list effect) :
  forallb is_validation vals = true → responses vals = [].
Proof.
  induction vals as [|e vals IH]; [done|]. by destruct e.
Qed.

Lemma responses_validation_steps (b : launch_body) :
  responses (validation_steps b) = [].
Proof. unfold validation_steps. by destruct (truthy (elf_path b)). Qed.

(** Once [responseSent] is set the [catch] block sends nothing. *)
Lemma responses_launch_failure_sent (error : js_error) :
  responses (launch_failure cfg true error) = [].
Proof.
  unfold launch_failure, sendError. cbn [responses].
  repeat match goal with |- context [if ?c then _ else _] => destruct c end;
    reflexivity.
Qed.

Lemma responses_launch_failure (error : js_error) :
  ∃ status body, responses (launch_failure cfg false error) = [(status, body)]
                 ∧ status ≠ 200.
Proof.
  unfold launch_failure, sendError. cbn [responses].
  repeat match goal with |- context [if ?c then _ else _] => destruct c end;
    eexists _, _; (split; [reflexivity | discriminate]).
Qed.

(** The responses of the part of the handler that calls [LaunchProof]: the
    answer of the timer when it fires first, that of the handler otherwise. *)
Lemma forward_launch_responses (coord : coordinator) (b : launch_body) :
  if launch_outlasts_timer coord then
    responses (forward coord b) = [(504, ErrorBody endpoint_timeout_message)]
  else
    match LaunchProof coord (launch_request_of StringToNumber b) with
    | Resolves response =>
        responses (forward coord b)
        = if is_empty (launched_job_id response)
          then [(500, ErrorBody (lit "Coordinator returned empty job_id. The launch may have failed. Check coordinator logs."))]
          else [(200, LaunchedBody (launched_job_id response))]
    | Rejects error =>
        ∃ status body, responses (forward coord b) = [(status, body)] ∧ status ≠ 200
    end.
Proof.
  unfold forward_launch. fold (launch_request_of StringToNumber b). cbv zeta.
  destruct (launch_outlasts_timer coord).
  - cbn [responses sendError app].
    destruct (LaunchProof coord _) as [response | error].
    + fold (launched_job_id response).
      destruct (is_empty (launched_job_id response)); [done|].
      cbn [responses sendResponse]. done.
    + by rewrite responses_launch_failure_sent.
  - cbn [app].
    destruct (LaunchProof coord _) as [response | error].
    + fold (launched_job_id response). cbn [responses].
      by destruct (is_empty (launched_job_id response)).
    + cbn [responses]. apply responses_launch_failure.
Qed.

(** X7. A rejected [LaunchProof] is answered once.  When the timer of the
    endpoint has fired while the call was pending, the answer is its 504 and
    the [catch] block sends nothing more.  Otherwise the answer follows the
    status code of the error where it has one of these:
    [DEADLINE_EXCEEDED] gives 504, [NOT_FOUND] gives 400 ("File not found or
    invalid path"), and [UNAVAILABLE], [INVALID_ARGUMENT] and
    [PERMISSION_DENIED] give 500 with the fixed text of the sanitizer,
    whatever the message of the error says.  Either way the failure is
    written to the audit log. *)
Theorem launch_failure_by_code (coord : coordinator) (b : launch_body)
    (error : js_error) :
  LaunchProof coord (launch_request_of StringToNumber b) = Rejects error →
  let answers := responses (forward coord b) in
  (launch_outlasts_timer coord = true →
     answers = [(504, ErrorBody endpoint_timeout_message)])
  ∧ (launch_outlasts_timer coord = false →
       (err_code error = VNum grpc_status.DEADLINE_EXCEEDED →
          ∃ body, answers = [(504, body)])
       ∧ (err_code error = VNum grpc_status.NOT_FOUND →
            answers = [(400, ErrorBody (lit "File not found or invalid path"))])
       ∧ (err_code error = VNum grpc_status.UNAVAILABLE →
            answers
            = [(500, ErrorBody (lit "Service unavailable - coordinator may be down"))])
       ∧ (err_code error = VNum grpc_status.INVALID_ARGUMENT →
            answers = [(500, ErrorBody (lit "Invalid request parameters"))])
       ∧ (err_code error = VNum grpc_status.PERMISSION_DENIED →
            answers = [(500, ErrorBody (lit "Permission denied"))]))
  ∧ Audit (lit "proof_launch_failed") (sanitizeError cfg (Some error)).2
    ∈ forward coord b.
Proof.
  intros Hlaunch answers. subst answers.
  pose proof (forward_launch_responses coord b) as Hfwd.
  unfold forward_launch in *. fold (launch_request_of StringToNumber b) in *.
  cbv zeta in *. rewrite Hlaunch in *.
  split_and!.
  - intros Hfired. by rewrite Hfired in Hfwd |- *.
  - intros Hquiet. rewrite Hquiet. cbn [app responses]. clear Hfwd.
    destruct error as [code message str]. cbn [err_code].
    split_and!; intros ->; [eexists|..]; vm_compute; reflexivity.
  - rewrite !elem_of_cons, elem_of_app. do 2 right. right.
    unfold launch_failure. left.
Qed.

(** X8. When the wrapper gives up on [LaunchProof] at its deadline of 90
    seconds, the error it rejects with reads "timed out", not "timeout", and
    carries no status code: the sanitizer turns it into "Internal server
    error", the [catch] block takes it for no timeout and answers 500, not
    504.  When the timer of the endpoint has fired before, the two queries
    of the guard having taken more than five seconds between them, its 504
    is the answer and the 500 is dropped.  The 504 of the [catch] block is
    not sent for this error. *)
Theorem launch_timeout_is_internal_error (coord : coordinator) (b : launch_body) :
  LaunchProof coord (launch_request_of StringToNumber b)
  = Rejects (timeout_error (lit "LaunchProof") 90000) →
  forward coord b
  = [Audit (lit "proof_launch_initiated") []; Rpc (lit "LaunchProof")]
    ++ (if launch_outlasts_timer coord
        then [Respond 504 (ErrorBody endpoint_timeout_message);
              Audit (lit "proof_launch_failed") internal_server_error]
        else [Audit (lit "proof_launch_failed") internal_server_error;
              Respond 500 (ErrorBody internal_server_error)]).
Proof.
  intros Hlaunch. unfold forward_launch. fold (launch_request_of StringToNumber b).
  cbv zeta. rewrite Hlaunch.
  destruct (launch_outlasts_timer coord); vm_compute; reflexivity.
Qed.

Lemma pre_launch_checks_responses (coord : coordinator) (block_id : jsval) :
  match (pre_launch_checks coord block_id).2 with
  | GuardRejected =>
      ∃ status body, responses (pre_launch_checks coord block_id).1 = [(status, body)]
                     ∧ status ≠ 200
  | GuardPassed | GuardSkipped => responses (pre_launch_checks coord block_id).1 = []
  end.
Proof.
  unfold pre_launch_checks.
  destruct (SystemStatus coord) as [systemStatus|]; [|reflexivity].
  cbv zeta.
  destruct (totalWorkers_of systemStatus =? 0);
    [eexists _, _; split; [reflexivity | discriminate]|].
  destruct (idleWorkers_of systemStatus =? 0);
    [eexists _, _; split; [reflexivity | discriminate]|].
  destruct (JobsList coord) as [existingJobs|]; [|reflexivity].
  destruct (find _ (jobs_of existingJobs)); [|reflexivity].
  eexists _, _; split; [reflexivity | discriminate].
Qed.

(** The responses of the handler, case by case. *)
Lemma handler_responses (coord : coordinator) (req : request launch_body) :
  let b := req_body req in
  (∃ status body, responses (handler coord req) = [(status, body)] ∧ status ≠ 200)
  ∨ (valid_body b = true
     ∧ (pre_launch_checks coord (block_id b)).2 ≠ GuardRejected
     ∧ launches (handler coord req)
     ∧ launch_outlasts_timer coord = false
     ∧ ∃ response,
         LaunchProof coord (launch_request_of StringToNumber b) = Resolves response
         ∧ launched_job_id response ≠ []
         ∧ responses (handler coord req)
           = [(200, LaunchedBody (launched_job_id response))]).
Proof.
  intros b. destruct (valid_body b) eqn:Hvalid; cycle 1.
  { left. destruct (launch_handler_invalid cfg path_resolve StringToNumber coord req Hvalid)
      as (vals & error & reason & -> & Hvals).
    exists 400, (ErrorBody error).
    rewrite responses_app, (responses_validations vals Hvals). done. }
  rewrite (launch_handler_valid cfg path_resolve StringToNumber coord req Hvalid).
  fold b. rewrite !responses_app, responses_validation_steps. cbn [app].
  pose proof (pre_launch_checks_responses coord (block_id b)) as Hpre.
  pose proof (forward_launch_responses coord b) as Hfwd.
  assert (Hl : launches (validation_steps b ++ (pre_launch_checks coord (block_id b)).1
                         ++ forward coord b)).
  { unfold launches, forward_launch. rewrite !elem_of_app. do 2 right. right. left. }
  assert (Hgo : (pre_launch_checks coord (block_id b)).2 ≠ GuardRejected →
                responses (pre_launch_checks coord (block_id b)).1 = [] →
                (∃ status body,
                   responses (pre_launch_checks coord (block_id b)).1
                   ++ responses (forward coord b) = [(status, body)] ∧ status ≠ 200)
                ∨ (true = true
                   ∧ (pre_launch_checks coord (block_id b)).2 ≠ GuardRejected
                   ∧ launches (validation_steps b
                               ++ (pre_launch_checks coord (block_id b)).1
                               ++ forward coord b)
                   ∧ launch_outlasts_timer coord = false
                   ∧ ∃ response,
                       LaunchProof coord (launch_request_of StringToNumber b)
                       = Resolves response
                       ∧ launched_job_id response ≠ []
                       ∧ responses (pre_launch_checks coord (block_id b)).1
                         ++ responses (forward coord b)
                         = [(200, LaunchedBody (launched_job_id response))])).
  { intros Hguard Hnone. rewrite Hnone. cbn [app].
    destruct (launch_outlasts_timer coord) eqn:Htimer.
    { left. rewrite Hfwd. eexists _, _. split; [reflexivity | discriminate]. }
    destruct (LaunchProof coord _) as [response | error] eqn:Hlp.
    - rewrite Hfwd. destruct (is_empty (launched_job_id response)) eqn:Hempty.
      + left. eexists _, _. split; [reflexivity | discriminate].
      + right. split_and!; try done. exists response. split_and!; try done.
        intros E. by rewrite E in Hempty.
    - left. destruct Hfwd as (status & body & -> & Hst). by exists status, body. }
  destruct ((pre_launch_checks coord (block_id b)).2) eqn:Hguard.
  - left. destruct Hpre as (status & body & -> & Hst). by exists status, body.
  - by apply Hgo.
  - by apply Hgo.
Qed.

(** X9. Every request to the launch endpoint is answered exactly once,
    whatever the body, the state of the rate limiter and the coordinator,
    and whether or not the timer of the endpoint fires while [LaunchProof]
    is pending: of the answer of the timer and the answer of the handler, the
    flag [responseSent] lets the first through and no other. *)
Theorem launch_endpoint_responds_once (coord : coordinator) (now : Z)
    (req : request launch_body) (m : gmap jsstring rate_record) :
  length (responses (launch_endpoint cfg path_resolve StringToNumber coord now req m).2)
  = 1%nat.
Proof.
  unfold launch_endpoint.
  destruct (rateLimit cfg (client_key req) now m) as [m1 [|status error]];
    cbn [snd responses]; [|done].
  destruct (handler_responses coord req)
    as [(status & body & -> & _) | (_ & _ & _ & _ & response & _ & _ & ->)]; done.
Qed.

(** X10. Success is reported only for a launch that happened: a response
    with status 200 means that the rate limiter admitted the request, that
    the body passed validation, that the guard did not refuse, that
    [LaunchProof] was called and answered, and the body of the response is
    the non-empty job id of that answer. *)
Theorem launch_success_is_sound (coord : coordinator) (now : Z)
    (req : request launch_body) (m : gmap jsstring rate_record)
    (body : response_body) :
  let effs := (launch_endpoint cfg path_resolve StringToNumber coord now req m).2 in
  (200, body) ∈ responses effs →
  (rateLimit cfg (client_key req) now m).2 = Next
  ∧ valid_body (req_body req) = true
  ∧ (pre_launch_checks coord (block_id (req_body req))).2 ≠ GuardRejected
  ∧ launches effs
  ∧ ∃ response,
      LaunchProof coord (launch_request_of StringToNumber (req_body req))
      = Resolves response
      ∧ launched_job_id response ≠ []
      ∧ body = LaunchedBody (launched_job_id response).
Proof.
  intros effs. unfold effs, launch_endpoint.
  destruct (rateLimit cfg (client_key req) now m) as [m1 [|status error]] eqn:Hrl;
    cbn [snd responses].
  - intros Hin.
    destruct (handler_responses coord req)
      as [(status & body' & Hresp & Hst)
         | (Hvalid & Hguard & Hl & _ & response & Hlp & Hid & Hresp)];
      rewrite Hresp in Hin; apply list_elem_of_singleton in Hin.
    + injection Hin as <- _. done.
    + injection Hin as ->. split_and!; try done.
      * unfold launches. by right.
      * by exists response.
  - intros Hin. apply list_elem_of_singleton in Hin. injection Hin as <- _.
    unfold rateLimit in Hrl. repeat case_match; simplify_eq.
Qed.

End LaunchResponses.

Section LaunchHappyPath.

Variable cfg : config.
Variable path_resolve : jsstring -> jsstring.
Variable StringToNumber : jsstring -> option Z.

Lemma find_none_of_no_duplicate (coord : coordinator) (block_id : jsval)
    (existingJobs : JobsListResponse) :
  JobsList coord = Resolves existingJobs →
  ¬ active_duplicate coord block_id →
  find (fun job => strict_eq_str (jobBlockId_of job) block_id) (jobs_of existingJobs)
  = None.
Proof.
  intros Hjl Hnodup.
  destruct (find _ (jobs_of existingJobs)) as [j|] eqn:Hfind; [|done].
  apply find_some in Hfind as [Hin Heq]. exfalso. apply Hnodup.
  unfold strict_eq_str in Heq.
  destruct (jobBlockId_of j) as [s|] eqn:Hj; [|done].
  destruct block_id as [| | | |t| |elems]; try done.
  apply jsstring_eqb_eq in Heq as ->.
  exists existingJobs, j, t. split_and!; try done. by apply list_elem_of_In.
Qed.

(** X11. The way of a launch that succeeds: for a body that passes
    validation, when the coordinator reports a worker, an idle one, and no
    active job with the block id, and answers [LaunchProof] with a non-empty
    job id, the handler makes the three calls in this order and audits the
    launch before and after.  It answers 200 with that job id when the
    answer of [LaunchProof] comes before the timer of the endpoint is due;
    when the timer fires first, the calls and the audit records are the
    same, the launch is recorded as a success, and the client has been
    answered 504. *)
Theorem launch_succeeds (coord : coordinator) (req : request launch_body)
    (systemStatus : SystemStatusResponse) (existingJobs : JobsListResponse)
    (response : LaunchProofResponse) :
  let b := req_body req in
  validates cfg path_resolve StringToNumber b = true →
  SystemStatus coord = Resolves systemStatus →
  totalWorkers_of systemStatus ≠ 0 →
  idleWorkers_of systemStatus ≠ 0 →
  JobsList coord = Resolves existingJobs →
  ¬ active_duplicate coord (block_id b) →
  LaunchProof coord (launch_request_of StringToNumber b) = Resolves response →
  launched_job_id response ≠ [] →
  launch_handler cfg path_resolve StringToNumber coord req
  = validation_steps b
    ++ [Rpc (lit "SystemStatus"); Rpc (lit "JobsList");
        Audit (lit "proof_launch_initiated") [];
        Rpc (lit "LaunchProof")]
    ++ (if launch_outlasts_timer coord
        then [Respond 504 (ErrorBody endpoint_timeout_message);
              Audit (lit "proof_launch_success") []]
        else [Audit (lit "proof_launch_success") [];
              Respond 200 (LaunchedBody (launched_job_id response))]).
Proof.
  intros b Hvalid Hss Ht Hi Hjl Hnodup Hlp Hid.
  rewrite (launch_handler_valid cfg path_resolve StringToNumber coord req Hvalid).
  fold b. unfold pre_launch_checks. rewrite Hss. cbv zeta.
  apply Z.eqb_neq in Ht, Hi. rewrite Ht, Hi, Hjl.
  rewrite (find_none_of_no_duplicate coord (block_id b) existingJobs Hjl Hnodup).
  cbn [fst snd]. f_equal. cbn [app]. do 2 f_equal.
  unfold forward_launch. fold (launch_request_of StringToNumber b). rewrite Hlp.
  fold (launched_job_id response). cbv zeta.
  destruct (launched_job_id response) as [|c j]; [done|].
  by destruct (launch_outlasts_timer coord).
Qed.

End LaunchHappyPath.

(** X7 at work: the coordinator goes down while the launch is pending, and
    the timer of the endpoint has fired by then. *)
Lemma launch_failure_by_code_witness :
  responses (forward_launch default_config decimal_StringToNumber
               late_coordinator example_launch)
  = [(504, ErrorBody endpoint_timeout_message)].
Proof.
  assert (Hlaunch :
    LaunchProof late_coordinator (launch_request_of decimal_StringToNumber example_launch)
    = Rejects {| err_code := VNum grpc_status.UNAVAILABLE;
                 err_message := lit "14 UNAVAILABLE: Connection dropped";
                 err_string := lit "Error: 14 UNAVAILABLE: Connection dropped" |}).
  { reflexivity. }
  destruct (launch_failure_by_code default_config decimal_StringToNumber
              late_coordinator example_launch _ Hlaunch) as (Hfired & _).
  apply Hfired. reflexivity.
Defined.

(** X8 at work: the request passes the guard and the launch times out. *)
Lemma launch_timeout_is_internal_error_witness :
  responses (forward_launch default_config decimal_StringToNumber
               slow_coordinator example_launch)
  = [(500, ErrorBody internal_server_error)].
Proof.
  rewrite (launch_timeout_is_internal_error default_config decimal_StringToNumber
             slow_coordinator example_launch); reflexivity.
Defined.

(** X11 at work: the request for "b1" with an idle worker and no job. *)
Lemma launch_succeeds_witness :
  responses (launch_handler default_config (fun p => p) decimal_StringToNumber
               idle_coordinator (example_request example_launch))
  = [(200, LaunchedBody (lit "job-2"))].
Proof.
  assert (Hnodup : ¬ active_duplicate idle_coordinator (block_id example_launch)).
  { intros (jl & j & s & Hjl & Hin & _). injection Hjl as <-.
    by apply elem_of_nil in Hin. }
  rewrite (launch_succeeds default_config (fun p => p) decimal_StringToNumber
             idle_coordinator (example_request example_launch) _ _ _
             eq_refl eq_refl ltac:(discriminate) ltac:(discriminate)
             eq_refl Hnodup eq_refl ltac:(discriminate)).
  reflexivity.
Defined.

(** X10 at work: the response with status 200 of that request. *)
Lemma launch_success_is_sound_witness :
  let effs := (launch_endpoint default_config (fun p => p) decimal_StringToNumber
                 idle_coordinator 0 (example_request example_launch) ∅).2 in
  (200, LaunchedBody (lit "job-2")) ∈ responses effs
  ∧ validates default_config (fun p => p) decimal_StringToNumber example_launch = true
  ∧ launches effs.
Proof.
  intros effs.
  assert (Hin : (200, LaunchedBody (lit "job-2")) ∈ responses effs).
  { vm_compute. left. }
  pose proof (launch_success_is_sound default_config (fun p => p)
                decimal_StringToNumber idle_coordinator 0
                (example_request example_launch) ∅
                (LaunchedBody (lit "job-2")) Hin) as (_ & Hvalid & _ & Hl & _).
  split_and!; [exact Hin | exact Hvalid | exact Hl].
Defined.

(** ** Process supervisor: what is found, and what is spawned *)

Section SupervisorFurther.

Variable path_join : list jsstring -> jsstring.
Variable path_dirname : jsstring -> jsstring.
Variable h : host.
Variable COORDINATOR_URL : jsstring.

Lemma find_exists_sound (l : list jsstring) (p : jsstring) :
  find (existsSync h) l = Some p → p ∈ l ∧ existsSync h p = true.
Proof. intros H. apply find_some in H as [Hin Hp]. by apply list_elem_of_In in Hin. Qed.

Lemma find_exists_none (l : list jsstring) :
  find (existsSync h) l = None ↔ ∀ p, p ∈ l → existsSync h p = false.
Proof.
  split.
  - intros H p Hin. apply (find_none _ _ H). by apply list_elem_of_In.
  - intros H. destruct (find (existsSync h) l) as [p|] eqn:Hfind; [|done].
    apply find_exists_sound in Hfind as [Hin Hp]. rewrite (H p Hin) in Hp. done.
Qed.

Lemma coordinator_search :
  findCoordinatorBinary path_join h
  = find (existsSync h)
      (path_candidates h (lit "zisk-coordinator")
       ++ commonPaths path_join h (lit "zisk-coordinator")
       ++ repo_candidates path_join h (lit "zisk-coordinator")).
Proof.
  unfold findCoordinatorBinary.
  by rewrite !find_app_first, lookup_in_PATH_find, lookup_in_repo_find.
Qed.

Lemma worker_search :
  findWorkerBinary path_join h
  = find (existsSync h)
      (commonPaths path_join h (lit "zisk-worker")
       ++ path_candidates h (lit "zisk-worker")
       ++ repo_candidates path_join h (lit "zisk-worker")).
Proof.
  unfold findWorkerBinary.
  by rewrite !find_app_first, lookup_in_PATH_find, lookup_in_repo_find.
Qed.

(** X12. A binary that the discovery returns exists on disk and is one of
    the candidates; and the discovery returns nothing exactly when none of
    the candidates exists: the answer of [which], the four conventional
    paths, the two build outputs. *)
Theorem discovery_sound_and_complete :
  (∀ p, findCoordinatorBinary path_join h = Some p →
        existsSync h p = true
        ∧ p ∈ path_candidates h (lit "zisk-coordinator")
              ++ commonPaths path_join h (lit "zisk-coordinator")
              ++ repo_candidates path_join h (lit "zisk-coordinator"))
  ∧ (findCoordinatorBinary path_join h = None
     ↔ ∀ p, p ∈ path_candidates h (lit "zisk-coordinator")
                ++ commonPaths path_join h (lit "zisk-coordinator")
                ++ repo_candidates path_join h (lit "zisk-coordinator") →
            existsSync h p = false)
  ∧ (∀ p, findWorkerBinary path_join h = Some p →
          existsSync h p = true
          ∧ p ∈ commonPaths path_join h (lit "zisk-worker")
                ++ path_candidates h (lit "zisk-worker")
                ++ repo_candidates path_join h (lit "zisk-worker"))
  ∧ (findWorkerBinary path_join h = None
     ↔ ∀ p, p ∈ commonPaths path_join h (lit "zisk-worker")
                ++ path_candidates h (lit "zisk-worker")
                ++ repo_candidates path_join h (lit "zisk-worker") →
            existsSync h p = false).
Proof.
  rewrite coordinator_search, worker_search. split_and!.
  - intros p Hp. apply find_exists_sound in Hp. tauto.
  - apply find_exists_none.
  - intros p Hp. apply find_exists_sound in Hp. tauto.
  - apply find_exists_none.
Qed.

Lemma startsWith_self_app (p x : jsstring) : startsWith (p ++ x) p = true.
Proof. induction p as [|c p IH]; [done|]. simpl. by rewrite N.eqb_refl. Qed.

(** X13. A worker is only spawned when everything it needs is there: the
    binary returned by the discovery, the ELF file, the input file and the
    directory of the input file all exist.  The worker is given the
    coordinator URL with a scheme, [http://] being put in front of a URL
    that has none, the ELF path as it came, and the directory of the input
    file, not the file, as its inputs folder. *)
Theorem worker_spawn_preconditions (now : Z) (b : worker_start_body)
    (id binPath : jsstring) (args : list jsstring) (cwd : jsstring) :
  worker_start path_join path_dirname h COORDINATOR_URL now b
  = Spawn id binPath args cwd →
  ∃ elf input url rest,
    elfPath b = Some elf ∧ inputPath b = Some input
    ∧ findWorkerBinary path_join h = Some binPath
    ∧ existsSync h binPath = true
    ∧ existsSync h elf = true
    ∧ existsSync h input = true
    ∧ existsSync h (path_dirname input) = true
    ∧ args = [lit "--coordinator-url"; url; lit "--elf"; elf;
              lit "--inputs-folder"; path_dirname input] ++ rest
    ∧ (startsWith url (lit "http://") || startsWith url (lit "https://")) = true
    ∧ (url = COORDINATOR_URL ∨ url = lit "http://" ++ COORDINATOR_URL)
    ∧ cwd = match ZISK_REPO h with
            | Some repo => repo
            | None => path_dirname binPath
            end
    ∧ id = str_or (workerId b) (lit "worker-" ++ dec now).
Proof.
  unfold worker_start. intros Hspawn.
  destruct (elfPath b) as [[|e elf]|]; try discriminate.
  destruct (inputPath b) as [[|i input]|]; try discriminate.
  destruct (findWorkerBinary path_join h) as [bin|] eqn:Hbin; try discriminate.
  destruct (existsSync h (e :: elf)) eqn:Helf; try discriminate.
  destruct (existsSync h (path_dirname (i :: input))) eqn:Hdir; try discriminate.
  destruct (existsSync h (i :: input)) eqn:Hinput; try discriminate.
  cbn [negb] in Hspawn. cbv zeta in Hspawn.
  set (url := if startsWith COORDINATOR_URL (lit "http://")
                 || startsWith COORDINATOR_URL (lit "https://")
              then COORDINATOR_URL else lit "http://" ++ COORDINATOR_URL) in Hspawn.
  destruct (capacity_args (computeCapacity b)) as [[status error]|capacity];
    try discriminate.
  set (proving := match provingKeyPath b with
                  | Some (c :: p) => [lit "--proving-key"; c :: p]
                  | _ => []
                  end) in Hspawn.
  assert (Hid : id = str_or (workerId b) (lit "worker-" ++ dec now)
                ∧ binPath = bin
                ∧ args = [lit "--coordinator-url"; url; lit "--elf"; e :: elf;
                          lit "--inputs-folder"; path_dirname (i :: input)]
                         ++ capacity ++ proving
                ∧ cwd = match ZISK_REPO h with
                        | Some repo => repo
                        | None => path_dirname bin
                        end).
  { by injection Hspawn as <- <- <- <-. }
  clear Hspawn. destruct Hid as (-> & -> & -> & ->).
  rewrite worker_search in Hbin. apply find_exists_sound in Hbin as [_ Hbin].
  exists (e :: elf), (i :: input), url, (capacity ++ proving).
  assert (Hurl : (startsWith url (lit "http://") || startsWith url (lit "https://")) = true
                 ∧ (url = COORDINATOR_URL ∨ url = lit "http://" ++ COORDINATOR_URL)).
  { unfold url.
    destruct (startsWith COORDINATOR_URL (lit "http://")
              || startsWith COORDINATOR_URL (lit "https://")) eqn:Hscheme.
    - split; [exact Hscheme | by left].
    - split; [|by right].
      by rewrite (startsWith_self_app (lit "http://") COORDINATOR_URL). }
  destruct Hurl as [Hscheme Hurl].
  split_and!; first [reflexivity | assumption].
Qed.

End SupervisorFurther.

(** X13 at work: a worker started on a host where everything is in place. *)
Lemma worker_spawn_preconditions_witness :
  worker_start simple_join simple_dirname ready_host (lit "localhost:50051") 0 ready_body
  = Spawn (lit "w1") (lit "/usr/local/bin/zisk-worker")
      [lit "--coordinator-url"; lit "http://localhost:50051";
       lit "--elf"; lit "/data/prog.elf"; lit "--inputs-folder"; lit "/data";
       lit "--compute-capacity"; lit "10"]
      (lit "/usr/local/bin")
  ∧ existsSync ready_host (lit "/usr/local/bin/zisk-worker") = true.
Proof.
  assert (Hspawn :
    worker_start simple_join simple_dirname ready_host (lit "localhost:50051") 0 ready_body
    = Spawn (lit "w1") (lit "/usr/local/bin/zisk-worker")
        [lit "--coordinator-url"; lit "http://localhost:50051";
         lit "--elf"; lit "/data/prog.elf"; lit "--inputs-folder"; lit "/data";
         lit "--compute-capacity"; lit "10"]
        (lit "/usr/local/bin")).
  { vm_compute. reflexivity. }
  split; [exact Hspawn|].
  destruct (worker_spawn_preconditions simple_join simple_dirname ready_host
              (lit "localhost:50051") 0 ready_body _ _ _ _ Hspawn)
    as (elf & input & url & rest & _ & _ & _ & Hbin & _).
  exact Hbin.
Defined.

(** ** Process supervisor: the tracked processes *)

Lemma map_get_delete_eq (id : jsstring) (m : worker_map) :
  map_get id (map_delete id m) = None.
Proof.
  induction m as [|[k p] m IH]; [done|].
  unfold map_delete in *. cbn [List.filter fst].
  case_bool_decide; cbn [negb]; [done|].
  cbn [map_get]. by rewrite bool_decide_false.
Qed.

Lemma map_get_delete_ne (id k : jsstring) (m : worker_map) :
  k ≠ id → map_get k (map_delete id m) = map_get k m.
Proof.
  intros Hne. induction m as [|[k' p] m IH]; [done|].
  unfold map_delete in *. cbn [List.filter fst map_get].
  case_bool_decide as Hk; cbn [negb].
  - subst k'. by rewrite bool_decide_false.
  - cbn [map_get]. by rewrite IH.
Qed.

Lemma map_get_set_eq (id : jsstring) (proc : child) (m : worker_map) :
  map_get id (map_set id proc m) = Some proc.
Proof.
  induction m as [|[k p] m IH]; cbn [map_set map_get].
  - by rewrite bool_decide_true.
  - case_bool_decide as Hk; cbn [map_get].
    + by rewrite bool_decide_true.
    + by rewrite bool_decide_false.
Qed.

Lemma map_get_set_ne (id k : jsstring) (proc : child) (m : worker_map) :
  k ≠ id → map_get k (map_set id proc m) = map_get k m.
Proof.
  intros Hne. induction m as [|[k' p] m IH]; cbn [map_set map_get].
  - by rewrite bool_decide_false.
  - case_bool_decide as Hk; cbn [map_get].
    + subst k'. by rewrite !bool_decide_false.
    + by rewrite IH.
Qed.

Lemma map_delete_absent (id : jsstring) (m : worker_map) :
  map_get id m = None → map_delete id m = m.
Proof.
  induction m as [|[k p] m IH]; [done|].
  unfold map_delete in *. cbn [List.filter fst map_get].
  case_bool_decide; [done|]. intros Hget. cbn [negb]. by rewrite IH.
Qed.

Lemma map_get_elem (id : jsstring) (proc : child) (m : worker_map) :
  map_get id m = Some proc → (id, proc) ∈ m.
Proof.
  induction m as [|[k p] m IH]; [done|]. cbn [map_get].
  case_bool_decide as Hk.
  - intros [= ->]. subst k. left.
  - intros H. right. by apply IH.
Qed.

Lemma map_get_unique (id : jsstring) (proc : child) (m : worker_map) :
  NoDup m.*1 → (id, proc) ∈ m → map_get id m = Some proc.
Proof.
  induction m as [|[k p] m IH]; [by intros _ ?%elem_of_nil|].
  rewrite fmap_cons, NoDup_cons. intros [Hk Hnd]. cbn [fst] in Hk.
  rewrite elem_of_cons. cbn [map_get]. intros [[= -> ->]|Hin].
  - by rewrite bool_decide_true.
  - case_bool_decide as Heq.
    + subst k. exfalso. apply Hk. apply list_elem_of_fmap. by exists (id, proc).
    + by apply IH.
Qed.

(** X14: stopping a worker is idempotent and local.  Whatever the first stop
    of an id did, a second stop of the same id answers 404 "Worker not found",
    signals nothing and changes nothing; the first one leaves the coordinator
    and every other worker as tracked before, and the only signal it can send
    is SIGTERM to the process tracked under that id. *)
Theorem worker_stop_twice (id : jsstring) (st : processes) :
  let st1 := (worker_stop id st).1.1 in
  worker_stop id st1 = (st1, [], SupError 404 (lit "Worker not found"))
  ∧ proc_coordinator st1 = proc_coordinator st
  ∧ (∀ other, other ≠ id →
       map_get other (proc_workers st1) = map_get other (proc_workers st))
  ∧ (∀ p sig, Kill p sig ∈ (worker_stop id st).1.2 →
       ∃ proc, map_get id (proc_workers st) = Some proc
               ∧ p = pid proc ∧ sig = lit "SIGTERM").
Proof.
  unfold worker_stop.
  destruct (map_get id (proc_workers st)) as [proc|] eqn:Hget; cbn [fst snd].
  - cbn [proc_workers proc_coordinator]. rewrite map_get_delete_eq.
    split_and!; [done | done | |].
    + intros other Hne. by apply map_get_delete_ne.
    + intros p sig [= -> ->]%list_elem_of_singleton. by exists proc.
  - rewrite Hget. split_and!; [done | done | done |].
    by intros p sig ?%elem_of_nil.
Qed.

Section WorkerTracking.

Variable path_join : list jsstring -> jsstring.
Variable path_dirname : jsstring -> jsstring.
Variable h : host.
Variable COORDINATOR_URL : jsstring.

Local Abbreviation start_endpoint :=
  (worker_start_endpoint path_join path_dirname h COORDINATOR_URL).


End WorkerTracking.


Section WorkerStatus.

Variable external : found_pid.
Variable isRunning : Z -> bool.

Lemma worker_with_status_running (entry : jsstring * child) :
  ws_running (worker_with_status isRunning entry) = still_running isRunning entry.
Proof.
  unfold worker_with_status, still_running. cbn [ws_running].
  destruct (alive entry.2); [by rewrite andb_true_r | done].
Qed.

Lemma map_delete_fresh (id : jsstring) (m : worker_map) :
  id ∉ m.*1 → map_delete id m = m.
Proof.
  intros Hfresh. apply map_delete_absent.
  destruct (map_get id m) as [proc|] eqn:Hget; [|done].
  exfalso. apply Hfresh. apply list_elem_of_fmap.
  exists (id, proc). split; [done|]. by apply map_get_elem.
Qed.

Lemma filter_keys_subset (f : jsstring * child → bool) (m : worker_map) (id : jsstring) :
  id ∈ (List.filter f m).*1 → id ∈ m.*1.
Proof.
  intros ([k p] & -> & Hin)%list_elem_of_fmap.
  apply list_elem_of_In, filter_In in Hin as [Hin _].
  apply list_elem_of_fmap. exists (k, p). split; [done|]. by apply list_elem_of_In.
Qed.

Lemma filter_keys_NoDup (f : jsstring * child → bool) (m : worker_map) :
  NoDup m.*1 → NoDup (List.filter f m).*1.
Proof.
  induction m as [|e m IH]; [done|].
  rewrite fmap_cons, NoDup_cons. intros [Hfresh Hnd]. cbn [List.filter].
  destruct (f e); [|by apply IH].
  rewrite fmap_cons, NoDup_cons. split; [|by apply IH].
  intros Hin. apply Hfresh. by apply filter_keys_subset in Hin.
Qed.

(** The clean-up loop drops exactly the entries that are not running. *)
Lemma cleanup_filter (done todo : worker_map) :
  NoDup (done ++ todo).*1 →
  fold_left cleanup_dead (map (worker_with_status isRunning) todo)
    (List.filter (still_running isRunning) done ++ todo)
  = List.filter (still_running isRunning) (done ++ todo).
Proof.
  revert done. induction todo as [|e todo IH]; intros done Hnd.
  - cbn [map fold_left]. by rewrite !app_nil_r.
  - cbn [map fold_left].
    replace (done ++ e :: todo) with ((done ++ [e]) ++ todo) in *
      by (by rewrite <- app_assoc).
    rewrite <- (IH (done ++ [e]) Hnd). f_equal.
    unfold cleanup_dead. rewrite worker_with_status_running.
    rewrite List.filter_app. cbn [List.filter].
    destruct (still_running isRunning e) eqn:Hkeep.
    + by rewrite <- app_assoc.
    + rewrite app_nil_r. cbn [worker_with_status ws_workerId].
      rewrite !fmap_app, fmap_cons, fmap_nil in Hnd.
      apply NoDup_app in Hnd as (Hdone & Hdisj & Htodo).
      apply NoDup_app in Hdone as (_ & Hdone & _).
      assert (Hget : map_get e.1 (List.filter (still_running isRunning) done ++ e :: todo)
                     ≠ None).
      { intros Hnone.
        assert (Hin : (e.1, e.2) ∈ List.filter (still_running isRunning) done ++ e :: todo).
        { apply elem_of_app. right. destruct e. left. }
        clear -Hnone Hin.
        induction (List.filter (still_running isRunning) done ++ e :: todo)
          as [|[k p] l IHl]; [by apply elem_of_nil in Hin|].
        cbn [map_get] in Hnone. case_bool_decide as Hk; [done|].
        apply elem_of_cons in Hin as [[= Heq _]|Hin]; [by subst k|by apply IHl]. }
      destruct (map_get e.1 _) as [proc|]; [clear Hget|done].
      unfold map_delete. rewrite List.filter_app. cbn [List.filter].
      rewrite bool_decide_true by done. cbn [negb].
      fold (map_delete e.1 (List.filter (still_running isRunning) done)).
      fold (map_delete e.1 todo).
      rewrite !map_delete_fresh; [done | |].
      * intros Hin. apply (Hdisj e.1); [|done].
        apply elem_of_app. right. apply list_elem_of_singleton. done.
      * intros Hin%filter_keys_subset. apply (Hdone e.1 Hin).
        apply list_elem_of_singleton. done.
Qed.

Lemma filter_idem {A} (f : A → bool) (l : list A) :
  List.filter f (List.filter f l) = List.filter f l.
Proof.
  induction l as [|a l IH]; [done|]. cbn [List.filter].
  destruct (f a) eqn:Hf; [|done]. cbn [List.filter]. by rewrite Hf, IH.
Qed.

Lemma filter_running (m : worker_map) :
  List.filter ws_running (map (worker_with_status isRunning) m)
  = map (worker_with_status isRunning) (List.filter (still_running isRunning) m).
Proof.
  induction m as [|e m IH]; [done|]. cbn [map List.filter].
  rewrite worker_with_status_running.
  destruct (still_running isRunning e); [|done]. cbn [map]. by rewrite IH.
Qed.

(** X16: the worker status check reports what it keeps.  With the keys of the
    map distinct (as in a [Map]), the workers reported are, in order, exactly
    the workers tracked after the call; those are the entries tracked before
    whose handle is alive and whose process is found, and none at all when no
    coordinator is running (none managed and none listed).  The coordinator
    handle is untouched, and a second check that sees the same processes
    changes nothing and reports the same. *)
Theorem worker_status_tracks_reported (st : processes) :
  NoDup (proc_workers st).*1 →
  let r := worker_process_status external isRunning st in
  ∃ reported running,
    r.2 = WorkersStatus reported (map ws_pid reported) running
    ∧ map (λ w, (ws_workerId w, ws_pid w)) reported
      = map (λ e, (e.1, pid e.2)) (proc_workers r.1)
    ∧ Forall (λ w, ws_running w = true) reported
    ∧ (∀ entry, entry ∈ proc_workers r.1
                ↔ running = true ∧ entry ∈ proc_workers st
                  ∧ alive entry.2 = true ∧ isRunning (pid entry.2) = true)
    ∧ (running = false ↔ managed_running st = false ∧ external = NotFound)
    ∧ proc_coordinator r.1 = proc_coordinator st
    ∧ NoDup (proc_workers r.1).*1
    ∧ worker_process_status external isRunning r.1 = r.
Proof.
  intros Hnd r. subst r. unfold worker_process_status.
  unfold managed_running. cbn [proc_coordinator].
  set (coordinatorRunning :=
         match proc_coordinator st with Some proc => alive proc | None => false end
         || match external with NotFound => false | _ => true end).
  assert (Hrun : coordinatorRunning = false
                 ↔ match proc_coordinator st with
                   | Some proc => alive proc
                   | None => false
                   end = false ∧ external = NotFound).
  { unfold coordinatorRunning. rewrite orb_false_iff.
    split; intros [Hm He]; (split; [done|]); by destruct external. }
  destruct coordinatorRunning eqn:Hc; cbn [negb fst snd proc_workers proc_coordinator].
  - pose proof (cleanup_filter [] (proc_workers st) Hnd) as Hclean.
    cbn [List.filter app] in Hclean. rewrite Hclean, filter_running.
    exists (map (worker_with_status isRunning)
              (List.filter (still_running isRunning) (proc_workers st))), true.
    split_and!.
    + done.
    + rewrite map_map. done.
    + apply Forall_forall. intros w (e & -> & Hin)%list_elem_of_fmap.
      rewrite worker_with_status_running.
      by apply list_elem_of_In, filter_In in Hin as [_ ?].
    + intros entry. rewrite list_elem_of_In, filter_In, <- list_elem_of_In.
      unfold still_running. rewrite andb_true_iff. tauto.
    + split; [done|]. intros H%Hrun. done.
    + done.
    + by apply filter_keys_NoDup.
    + pose proof (cleanup_filter [] (List.filter (still_running isRunning) (proc_workers st))
                    (filter_keys_NoDup _ _ Hnd)) as Hclean2.
      cbn [List.filter app] in Hclean2.
      fold coordinatorRunning. rewrite Hc. cbn [negb].
      by rewrite Hclean2, !filter_running, !filter_idem.
  - exists [], false. split_and!.
    + done.
    + done.
    + by apply Forall_nil.
    + intros entry. split; [by intros ?%elem_of_nil | by intros [? _]].
    + split; [intros _; by apply Hrun | done].
    + done.
    + apply NoDup_nil_2.
    + fold coordinatorRunning. by rewrite Hc.
Qed.

End WorkerStatus.

(** X16 at work: of two tracked workers, one has exited. *)
Lemma worker_status_tracks_reported_witness :
  let st := {| proc_coordinator := None;
               proc_workers :=
                 [(lit "w1", {| pid := 100; killed := false; exitCode := Some 1 |});
                  (lit "w2", {| pid := 200; killed := false; exitCode := None |})] |} in
  NoDup (proc_workers st).*1
  ∧ ∃ reported running,
      (worker_process_status (FoundPid 7) (fun _ => true) st).2
      = WorkersStatus reported (map ws_pid reported) running.
Proof.
  intros st.
  assert (Hnd : NoDup (proc_workers st).*1).
  { cbn. apply NoDup_cons. split.
    - intros Hin%list_elem_of_singleton. vm_compute in Hin. discriminate.
    - apply NoDup_singleton. }
  split; [exact Hnd|].
  destruct (worker_status_tracks_reported (FoundPid 7) (fun _ => true) st Hnd)
    as (reported & running & Hr & _).
  exists reported, running. exact Hr.
Defined.

(** ** Process supervisor: the coordinator *)

Lemma sigkill_not_sigterm (p q : Z) : Kill p (lit "SIGKILL") ≠ Kill q (lit "SIGTERM").
Proof.
  intros Heq. assert (Hsig : lit "SIGKILL" = lit "SIGTERM") by congruence.
  vm_compute in Hsig. discriminate.
Qed.

Lemma taskkill_not_kill (p q : Z) (sig : jsstring) : Kill p sig ≠ Taskkill q.
Proof. discriminate. Qed.

Lemma coordinator_stop_quiet (env : stop_env) (st : processes) :
  proc_coordinator st = None →
  pid_truthy (found_first env) = false →
  coordinator_stop env st = (st, [], SupError 400 (lit "Coordinator is not running")).
Proof.
  intros Hnone Hfalsy. unfold coordinator_stop. rewrite Hnone.
  destruct (found_first env) as [|p|]; [done| |done].
  cbn [pid_truthy] in Hfalsy. apply negb_false_iff in Hfalsy. by rewrite Hfalsy.
Qed.

(** X17: how the coordinator stop escalates.  After any stop no coordinator
    handle is tracked and the workers are tracked as before.  A tracked
    handle gets one SIGTERM and the answer is a success, whatever the process
    listing shows.  SIGKILL is sent only to an untracked coordinator, not on
    Windows, right after a SIGTERM to the same process, and only when the
    second listing still shows that process id.  Nothing is signalled exactly
    when the answer is 400 "Coordinator is not running", and that is the
    answer of any later stop whose listing shows no process. *)
Theorem coordinator_stop_escalation (env : stop_env) (st : processes) :
  let r := coordinator_stop env st in
  proc_coordinator r.1.1 = None
  ∧ proc_workers r.1.1 = proc_workers st
  ∧ (∀ proc, proc_coordinator st = Some proc →
       r.1.2 = [Kill (pid proc) (lit "SIGTERM")]
       ∧ r.2 = SupSuccess (lit "Coordinator stopped") None)
  ∧ (∀ p, Kill p (lit "SIGKILL") ∈ r.1.2 →
       r.1.2 = [Kill p (lit "SIGTERM"); Kill p (lit "SIGKILL")]
       ∧ proc_coordinator st = None ∧ win32 env = false
       ∧ found_first env = FoundPid p ∧ found_again env = FoundPid p
       ∧ r.2 = SupSuccess (lit "Coordinator stopped") None)
  ∧ (r.1.2 = [] ↔ r.2 = SupError 400 (lit "Coordinator is not running"))
  ∧ (∀ env2, pid_truthy (found_first env2) = false →
       coordinator_stop env2 r.1.1
       = (r.1.1, [], SupError 400 (lit "Coordinator is not running"))).
Proof.
  intros r.
  cut (proc_coordinator r.1.1 = None
       ∧ proc_workers r.1.1 = proc_workers st
       ∧ (∀ proc, proc_coordinator st = Some proc →
            r.1.2 = [Kill (pid proc) (lit "SIGTERM")]
            ∧ r.2 = SupSuccess (lit "Coordinator stopped") None)
       ∧ (∀ p, Kill p (lit "SIGKILL") ∈ r.1.2 →
            r.1.2 = [Kill p (lit "SIGTERM"); Kill p (lit "SIGKILL")]
            ∧ proc_coordinator st = None ∧ win32 env = false
            ∧ found_first env = FoundPid p ∧ found_again env = FoundPid p
            ∧ r.2 = SupSuccess (lit "Coordinator stopped") None)
       ∧ (r.1.2 = [] ↔ r.2 = SupError 400 (lit "Coordinator is not running"))).
  { intros (H1 & H2 & H3 & H4 & H5). split_and!; [done..|].
    intros env2 Hfalsy. by apply coordinator_stop_quiet. }
  subst r. unfold coordinator_stop.
  destruct (proc_coordinator st) as [proc|] eqn:Hmanaged; cbn [fst snd].
  { cbn [proc_coordinator proc_workers]. split_and!.
    - done.
    - done.
    - by intros ? [= <-].
    - intros p Hin%list_elem_of_singleton. by apply sigkill_not_sigterm in Hin.
    - split; discriminate. }
  assert (Hquiet :
    let r := (st, @nil sup_action, SupError 400 (lit "Coordinator is not running")) in
    proc_coordinator r.1.1 = None
    ∧ proc_workers r.1.1 = proc_workers st
    ∧ (∀ proc : child, None = Some proc →
         r.1.2 = [Kill (pid proc) (lit "SIGTERM")]
         ∧ r.2 = SupSuccess (lit "Coordinator stopped") None)
    ∧ (∀ p, Kill p (lit "SIGKILL") ∈ r.1.2 →
         r.1.2 = [Kill p (lit "SIGTERM"); Kill p (lit "SIGKILL")]
         ∧ @None child = None ∧ win32 env = false
         ∧ found_first env = FoundPid p ∧ found_again env = FoundPid p
         ∧ r.2 = SupSuccess (lit "Coordinator stopped") None)
    ∧ (r.1.2 = [] ↔ r.2 = SupError 400 (lit "Coordinator is not running"))).
  { cbn [fst snd]. split_and!; [done | done | done | | done].
    by intros p Hin%elem_of_nil. }
  destruct (found_first env) as [|p|] eqn:Hfirst.
  { destruct Hquiet as (H1 & H2 & H3 & H4 & H5).
    split_and!; [done | done | done | | done]. by intros q Hin%elem_of_nil. }
  2:{ destruct Hquiet as (H1 & H2 & H3 & H4 & H5).
      split_and!; [done | done | done | | done]. by intros q Hin%elem_of_nil. }
  destruct (p =? 0) eqn:Hzero.
  { destruct Hquiet as (H1 & H2 & H3 & H4 & H5).
    split_and!; [done | done | done | | done].
    by intros q Hin%elem_of_nil. }
  clear Hquiet.
  destruct (win32 env) eqn:Hwin; [destruct (taskkill_fails env)|
    destruct (sigterm_throws env); [|destruct (pid_strict_eq (found_again env) (FoundPid p)) eqn:Hagain]];
    cbn [fst snd]; (split_and!; [done | done | done | | split; discriminate]).
  - by intros q Hin%list_elem_of_singleton.
  - by intros q Hin%list_elem_of_singleton.
  - intros q Hin%list_elem_of_singleton. by apply sigkill_not_sigterm in Hin.
  - intros q Hin. apply elem_of_cons in Hin as [Hin|Hin%list_elem_of_singleton].
    { by apply sigkill_not_sigterm in Hin. }
    injection Hin as ->.
    destruct (found_again env) as [|p2|]; try discriminate.
    cbn [pid_strict_eq] in Hagain. apply Z.eqb_eq in Hagain as ->.
    done.
  - intros q Hin%list_elem_of_singleton. by apply sigkill_not_sigterm in Hin.
Qed.

Section CoordinatorLifecycle.

Variable path_join : list jsstring -> jsstring.
Variable path_dirname : jsstring -> jsstring.
Variable h : host.

Local Abbreviation start := (coordinator_start path_join path_dirname h).

(** X18: the life of a managed coordinator.  A start answers with a success
    only if no live handle was tracked, the process listing found nothing,
    the binary found exists and the process spawned did not exit with a code
    within the first second; the answer carries its process id.  When the
    process survived that second then, from then on and whatever the listing
    shows, the status reports it as running and managed with that id, another
    start is refused with 400 and spawns nothing, and a stop signals that
    process alone; the exit handler of any coordinator, also of an earlier
    one, drops the handle: the managed flag is lost although the process
    lives.  When a signal ended the process within that second, the success
    is answered all the same, and no handle is tracked: the status follows
    the listing alone. *)
Theorem coordinator_lifecycle (external : found_pid) (new_pid : Z)
    (early_exit : option exit_status) (st st1 : processes) (acts : list sup_action)
    (message : jsstring) (p : option Z) :
  start external new_pid early_exit st = (st1, acts, SupSuccess message p) →
  p = Some new_pid ∧ external = NotFound
  ∧ (∀ code, early_exit ≠ Some (ExitCode code))
  ∧ managed_running st = false
  ∧ (∃ binPath,
       findCoordinatorBinary path_join h = Some binPath
       ∧ existsSync h binPath = true
       ∧ acts = [SpawnProcess binPath []
                   match ZISK_REPO h with
                   | Some repo => repo
                   | None => path_dirname binPath
                   end])
  ∧ proc_workers st1 = proc_workers st
  ∧ (early_exit = None →
       (∀ listed, coordinator_process_status listed st1
                  = CoordinatorStatus true (Some (FoundPid new_pid)) true)
       ∧ (∀ listed pid2 exit2,
            start listed pid2 exit2 st1
            = (st1, [], SupError 400 (lit "Coordinator is already running (managed by dashboard)")))
       ∧ (∀ env, (coordinator_stop env st1).1.2 = [Kill new_pid (lit "SIGTERM")])
       ∧ (∀ listed, coordinator_process_status listed (coordinator_exited st1)
                    = if pid_truthy listed then CoordinatorStatus true (Some listed) false
                      else CoordinatorStatus false None false))
  ∧ (∀ signal, early_exit = Some (ExitSignal signal) →
       proc_coordinator st1 = None
       ∧ ∀ listed, coordinator_process_status listed st1
                   = if pid_truthy listed then CoordinatorStatus true (Some listed) false
                     else CoordinatorStatus false None false).
Proof.
  unfold coordinator_start.
  destruct (managed_running st) eqn:Hmanaged; [discriminate|].
  destruct external; [|discriminate..].
  destruct (findCoordinatorBinary path_join h) as [binPath|] eqn:Hbin; [|discriminate].
  rewrite coordinator_search in Hbin. apply find_exists_sound in Hbin as [_ Hexists].
  destruct early_exit as [[code|signal]|];
    cbn [exitCode_after failed_to_start killed exitCode orb]; [discriminate|..];
    intros [= <- <- <- <-];
    (split_and!; [done | done | done | done | by exists binPath | done | | ]).
  - discriminate.
  - intros signal' _. done.
  - intros _. split_and!; try done.
  - discriminate.
Qed.

(** X19: when a start is refused, and when the endpoints disagree.  A start
    that spawns nothing leaves the tracked processes as they were and answers
    400 or 500; it spawns only with no live handle tracked and nothing
    listed.  When the process spawned exits with a code within the first
    second the answer is 500 and no handle stays tracked; when a signal ends
    it within that second no handle stays tracked either, and the answer is
    the success.  A listing whose process id
    cannot be read (not a number, or 0) counts as a running coordinator for
    the start, which is refused, but not for the status, which reports that
    none is running, nor for the stop, which answers "not running". *)
Theorem coordinator_start_refusals (external : found_pid) (new_pid : Z)
    (early_exit : option exit_status) (st : processes) :
  let r := start external new_pid early_exit st in
  (r.1.2 = [] → r.1.1 = st ∧ ∃ status error,
                  r.2 = SupError status error ∧ (status = 400 ∨ status = 500))
  ∧ (r.1.2 ≠ [] → managed_running st = false ∧ external = NotFound
                  ∧ proc_workers r.1.1 = proc_workers st)
  ∧ (r.1.2 ≠ [] → ∀ code, early_exit = Some (ExitCode code) →
       proc_coordinator r.1.1 = None
       ∧ r.2 = SupError 500 (lit "Coordinator failed to start. Check logs."))
  ∧ (r.1.2 ≠ [] → ∀ signal, early_exit = Some (ExitSignal signal) →
       proc_coordinator r.1.1 = None
       ∧ r.2 = SupSuccess (lit "Coordinator started successfully") (Some new_pid))
  ∧ (r.1.2 ≠ [] → early_exit = None →
       proc_coordinator r.1.1
       = Some {| pid := new_pid; killed := false; exitCode := None |}
       ∧ r.2 = SupSuccess (lit "Coordinator started successfully") (Some new_pid))
  ∧ (proc_coordinator st = None → external ≠ NotFound → pid_truthy external = false →
       r = (st, [], SupError 400 (lit "Coordinator is already running externally. Please stop it first or use the existing instance."))
       ∧ coordinator_process_status external st = CoordinatorStatus false None false
       ∧ ∀ env, found_first env = external →
           coordinator_stop env st
           = (st, [], SupError 400 (lit "Coordinator is not running"))).
Proof.
  intros r. subst r. unfold coordinator_start.
  split_and!.
  - destruct (managed_running st); [intros _; split; [done|]; eexists _, _; split; [done|by left]|].
    destruct external; [|intros _; split; [done|]; eexists _, _; split; [done|by left]..].
    destruct (findCoordinatorBinary path_join h);
      [|intros _; split; [done|]; eexists _, _; split; [done|by right]].
    by destruct early_exit as [[code|signal]|].
  - destruct (managed_running st); [done|].
    destruct external; [|done..].
    destruct (findCoordinatorBinary path_join h); [|done].
    by destruct early_exit as [[code|signal]|].
  - destruct (managed_running st); [done|].
    destruct external; [|done..].
    destruct (findCoordinatorBinary path_join h); [|done].
    by intros _ code ->.
  - destruct (managed_running st); [done|].
    destruct external; [|done..].
    destruct (findCoordinatorBinary path_join h); [|done].
    by intros _ signal ->.
  - destruct (managed_running st); [done|].
    destruct external; [|done..].
    destruct (findCoordinatorBinary path_join h); [|done].
    by intros _ ->.
  - intros Hnone Hlisted Hfalsy. unfold managed_running, coordinator_process_status,
      coordinator_stop.
    rewrite Hnone, Hfalsy.
    split_and!.
    + by destruct external.
    + done.
    + intros env ->. destruct external as [|q|]; [done| |done].
      cbn [pid_truthy] in Hfalsy. apply negb_false_iff in Hfalsy. by rewrite Hfalsy.
Qed.

End CoordinatorLifecycle.

(** X18 at work: a coordinator started on a host where it is installed. *)
Lemma coordinator_lifecycle_witness :
  let st := {| proc_coordinator := None; proc_workers := [] |} in
  ∃ st1 acts,
    coordinator_start simple_join simple_dirname ready_host NotFound 4242 None st
    = (st1, acts, SupSuccess (lit "Coordinator started successfully") (Some 4242))
    ∧ ∀ listed, coordinator_process_status listed st1
                = CoordinatorStatus true (Some (FoundPid 4242)) true.
Proof.
  intros st.
  exists {| proc_coordinator := Some {| pid := 4242; killed := false; exitCode := None |};
            proc_workers := [] |}.
  exists [SpawnProcess (lit "/usr/local/bin/zisk-coordinator") [] (lit "/usr/local/bin")].
  assert (Hstart :
    coordinator_start simple_join simple_dirname ready_host NotFound 4242 None st
    = ({| proc_coordinator := Some {| pid := 4242; killed := false; exitCode := None |};
          proc_workers := [] |},
       [SpawnProcess (lit "/usr/local/bin/zisk-coordinator") [] (lit "/usr/local/bin")],
       SupSuccess (lit "Coordinator started successfully") (Some 4242))).
  { vm_compute. reflexivity. }
  split; [exact Hstart|].
  destruct (coordinator_lifecycle simple_join simple_dirname ready_host
              _ _ _ _ _ _ _ _ Hstart) as (_ & _ & _ & _ & _ & _ & Hstatus & _).
  exact (proj1 (Hstatus eq_refl)).
Defined.

(** ** Job endpoints *)

Section JobEndpointProperties.

Variable cfg : config.
Variable Job : Type.

Local Abbreviation job_not_found := (@JobError Job (lit "Job not found")).

(** X20: the job endpoints check the id first, and how the status endpoint
    answers.  The job status endpoint answers exactly once and calls the
    coordinator, once and with the id as it came, exactly when the id is
    valid.  It answers 400 exactly for an invalid id; 200 exactly when the
    call resolves with a job, the one under [result] being preferred; 404 when
    the call resolves without a job or rejects with the code NOT_FOUND or with
    a message that holds "not found"; and 500 for every other rejection.  The
    cancel endpoint never calls the coordinator: it answers 501 for a valid id
    and 400 for an invalid one. *)
Theorem job_endpoints_validate_first
    (rpc : jsstring → rpc_outcome (job_status_response Job)) (jobId : jsstring) :
  let effs := job_status_endpoint cfg Job rpc jobId in
  let valid := validateJobId (VStr jobId) = Valid in
  length (job_responses effs) = 1%nat
  ∧ job_rpcs effs = (if is_valid (validateJobId (VStr jobId))
                     then [(lit "JobStatus", jobId)] else [])
  ∧ (∀ body, (400, body) ∈ job_responses effs
             ↔ ∃ error, validateJobId (VStr jobId) = Invalid error ∧ body = JobError error)
  ∧ (∀ body, (200, body) ∈ job_responses effs
             ↔ valid ∧ ∃ response job,
                 rpc jobId = Resolves response ∧ body = JobJson job
                 ∧ (jsr_result_job response = Some job
                    ∨ (jsr_result_job response = None ∧ jsr_job response = Some job)))
  ∧ (∀ body, (404, body) ∈ job_responses effs
             ↔ valid ∧ body = job_not_found
               ∧ ((∃ response, rpc jobId = Resolves response
                               ∧ jsr_result_job response = None
                               ∧ jsr_job response = None)
                  ∨ (∃ error, rpc jobId = Rejects error
                              ∧ (err_code error = VNum grpc_status.NOT_FOUND
                                 ∨ includes (err_message error) (lit "not found") = true))))
  ∧ (∀ status body, (status, body) ∈ job_responses effs →
       status = 200 ∨ status = 400 ∨ status = 404 ∨ status = 500)
  ∧ job_rpcs (job_cancel_endpoint Job jobId) = []
  ∧ ∃ body, job_responses (job_cancel_endpoint Job jobId)
            = [(if is_valid (validateJobId (VStr jobId)) then 501 else 400, body)].
Proof.
  intros effs valid. subst effs valid.
  unfold job_status_endpoint, job_cancel_endpoint.
  destruct (validateJobId (VStr jobId)) as [|invalid] eqn:Hvalid;
    cbn [is_valid job_rpcs job_responses omap list_omap length].
  2:{ split_and!; [done | done | | | | | done | by eexists].
      - intros body. rewrite list_elem_of_singleton. split.
        + intros [= ->]. by exists invalid.
        + by intros (error & [= <-] & ->).
      - intros body. rewrite list_elem_of_singleton. split; [done | by intros [? _]].
      - intros body. rewrite list_elem_of_singleton. split; [done | by intros [? _]].
      - intros status body [= -> _]%list_elem_of_singleton. auto. }
  assert (Hnf : ∀ error : js_error,
            strict_eq_num (err_code error) grpc_status.NOT_FOUND
            || negb (is_empty (err_message error))
               && includes (err_message error) (lit "not found") = true
            ↔ err_code error = VNum grpc_status.NOT_FOUND
              ∨ includes (err_message error) (lit "not found") = true).
  { intros error. rewrite orb_true_iff, andb_true_iff. split.
    - intros [Hcode|[_ Hmsg]]; [left|by right].
      unfold strict_eq_num in Hcode. destruct (err_code error); try done.
      by apply Z.eqb_eq in Hcode as ->.
    - intros [->|Hmsg]; [by left|right]. split; [|done].
      by destruct (err_message error). }
  destruct (rpc jobId) as [response|error] eqn:Hrpc.
  - destruct (jsr_result_job response) as [job|] eqn:Hresult;
      [|destruct (jsr_job response) as [job|] eqn:Hjob;
        [|destruct (jsr_result_error response)]];
      cbn [job_rpcs job_responses omap list_omap length];
      (split_and!; [done | done | | | | | done | by eexists]).
    all: try (intros body; rewrite list_elem_of_singleton; split;
              [done | by intros (error & [=] & _)]).
    all: try (intros status body [= -> _]%list_elem_of_singleton; auto; fail).
    + intros body. rewrite list_elem_of_singleton. split.
      * intros [= ->]. split; [done|]. exists response, job. auto.
      * intros (_ & r & j & [= <-] & -> & [Hj|[Hj _]]); congruence.
    + intros body. rewrite list_elem_of_singleton. split; [done|].
      intros (_ & _ & [(r & [= <-] & Hr & _)|(e & [=] & _)]). congruence.
    + intros body. rewrite list_elem_of_singleton. split.
      * intros [= ->]. split; [done|]. exists response, job. auto.
      * intros (_ & r & j & [= <-] & -> & [Hj|[_ Hj]]); congruence.
    + intros body. rewrite list_elem_of_singleton. split; [done|].
      intros (_ & _ & [(r & [= <-] & _ & Hr)|(e & [=] & _)]). congruence.
    + intros body. rewrite list_elem_of_singleton. split; [done|].
      intros (_ & r & j & [= <-] & _ & [Hj|[_ Hj]]); congruence.
    + intros body. rewrite list_elem_of_singleton. split.
      * intros [= ->]. split_and!; [done..|]. left. by exists response.
      * by intros (_ & -> & _).
    + intros body. rewrite list_elem_of_singleton. split; [done|].
      intros (_ & r & j & [= <-] & _ & [Hj|[_ Hj]]); congruence.
    + intros body. rewrite list_elem_of_singleton. split.
      * intros [= ->]. split_and!; [done..|]. left. by exists response.
      * by intros (_ & -> & _).
  - destruct (strict_eq_num (err_code error) grpc_status.NOT_FOUND
              || negb (is_empty (err_message error))
                 && includes (err_message error) (lit "not found")) eqn:Hfound;
      cbn [job_rpcs job_responses omap list_omap length];
      (split_and!; [done | done | | | | | done | by eexists]).
    all: try (intros body; rewrite list_elem_of_singleton; split;
              [done | by intros (e & [=] & _)]).
    all: try (intros status body [= -> _]%list_elem_of_singleton; auto; fail).
    + intros body. rewrite list_elem_of_singleton. split; [done|].
      by intros (_ & r & j & [=] & _).
    + intros body. rewrite list_elem_of_singleton. split.
      * intros [= ->]. split_and!; [done..|]. right. exists error.
        split; [done|]. by apply Hnf.
      * by intros (_ & -> & _).
    + intros body. rewrite list_elem_of_singleton. split; [done|].
      by intros (_ & r & j & [=] & _).
    + intros body. rewrite list_elem_of_singleton. split; [done|].
      intros (_ & _ & [(r & [=] & _)|(e & [= <-] & He)]).
      apply Hnf in He. congruence.
Qed.

End JobEndpointProperties.

(** ** Proof files: the download *)

Lemma filter_Boolean_elem (l : list (option jsstring)) (p : jsstring) :
  p ∈ filter_Boolean l ↔ p ≠ [] ∧ Some p ∈ l.
Proof.
  unfold filter_Boolean. rewrite list_elem_of_omap. split.
  - intros ([[|c s]|] & Hin & Heq); try done. injection Heq as <-. done.
  - intros [Hne Hin]. exists (Some p). split; [done|]. by destruct p.
Qed.

Lemma valid_id_no_slash (jobId : jsstring) :
  validateJobId (VStr jobId) = Valid → jobId ≠ [] ∧ Forall (λ c, c ≠ 47%N) jobId.
Proof.
  rewrite validateJobId_string, test_class_plus_spec.
  intros (_ & [Hne Hcls] & _). split; [done|].
  eapply Forall_impl; [exact Hcls|]. intros c Hc ->. vm_compute in Hc. discriminate.
Qed.

Section DownloadProperties.

Variable cfg : config.
Variable path_join : list jsstring -> jsstring.
Variable h : host.
Variable fs : proof_store.

Local Abbreviation dirs := (download_dirs path_join h fs).
Local Abbreviation download := (download_endpoint cfg path_join h fs).

Lemma first_accessible_sound (dir : jsstring) (patterns : list jsstring) (f : jsstring) :
  first_accessible path_join fs dir patterns = Some f →
  ∃ name, name ∈ patterns ∧ f = path_join [dir; name] ∧ access fs f = true.
Proof.
  induction patterns as [|p patterns IH]; [done|]. cbn [first_accessible].
  destruct (access fs (path_join [dir; p])) eqn:Hacc.
  - intros [= <-]. exists p. split; [left | done].
  - intros (name & Hin & Hf)%IH. exists name. split; [by right | done].
Qed.

Lemma first_accessible_none (dir : jsstring) (patterns : list jsstring) :
  first_accessible path_join fs dir patterns = None →
  ∀ name, name ∈ patterns → access fs (path_join [dir; name]) = false.
Proof.
  induction patterns as [|p patterns IH]; [by intros _ ? ?%elem_of_nil|].
  cbn [first_accessible].
  destruct (access fs (path_join [dir; p])) eqn:Hacc; [done|].
  intros Hnone name [->|Hin]%elem_of_cons; [done | by apply IH].
Qed.

Lemma search_patterns_sound (ds patterns : list jsstring) (f : jsstring) :
  search_patterns path_join fs ds patterns = Some f →
  f ≠ [] ∧ ∃ dir name, dir ∈ ds ∧ name ∈ patterns
                       ∧ f = path_join [dir; name] ∧ access fs f = true.
Proof.
  induction ds as [|d ds IH]; [done|]. cbn [search_patterns].
  destruct (first_accessible path_join fs d patterns) as [[|c g]|] eqn:Hfirst.
  - intros (Hne & dir & name & Hin & Hrest)%IH.
    split; [done|]. exists dir, name. split; [by right | done].
  - intros [= <-]. split; [done|].
    apply first_accessible_sound in Hfirst as (name & Hin & Hf & Hacc).
    exists d, name. split; [left | done].
  - intros (Hne & dir & name & Hin & Hrest)%IH.
    split; [done|]. exists dir, name. split; [by right | done].
Qed.

Lemma search_listing_sound (ds : list jsstring) (jobId f : jsstring) :
  search_listing path_join fs ds jobId = Some f →
  ∃ dir files name, dir ∈ ds ∧ readdir fs dir = Some files ∧ name ∈ files
                    ∧ includes name jobId = true ∧ f = path_join [dir; name].
Proof.
  induction ds as [|d ds IH]; [done|]. cbn [search_listing].
  destruct (readdir fs d) as [files|] eqn:Hread.
  - destruct (find (λ f0, includes f0 jobId) files) as [[|c name]|] eqn:Hfind.
    + intros (dir & fl & name & Hin & Hrest)%IH.
      exists dir, fl, name. split; [by right | done].
    + intros [= <-]. apply find_some in Hfind as [Hin Hinc].
      exists d, files, (c :: name). split; [left|].
      split; [done|]. split; [by apply list_elem_of_In | done].
    + intros (dir & fl & name & Hin & Hrest)%IH.
      exists dir, fl, name. split; [by right | done].
  - intros (dir & fl & name & Hin & Hrest)%IH.
    exists dir, fl, name. split; [by right | done].
Qed.

(** X21: what the download can serve.  A file is streamed only for a valid
    job id and only after [stat] found it, with the size [stat] gave.  The
    file is a name joined to one of the proof directories, and the name is
    either one of the three patterns for the job id, which hold no slash and
    can be accessed, or, when no pattern could be, a name from the listing of
    that directory that holds the job id somewhere. *)
Theorem download_serves_only_proofs (jobId proofFile : jsstring) (size : Z) :
  download jobId = DownloadStream proofFile size →
  validateJobId (VStr jobId) = Valid
  ∧ stat fs proofFile = StatOk size
  ∧ ∃ dir name,
      dir ∈ dirs ∧ dir ≠ [] ∧ proofFile = path_join [dir; name]
      ∧ ((name ∈ download_patterns jobId ∧ access fs proofFile = true
          ∧ Forall (λ c, c ≠ 47%N) name)
         ∨ (search_patterns path_join fs dirs (download_patterns jobId) = None
            ∧ ∃ files, readdir fs dir = Some files ∧ name ∈ files
                       ∧ includes name jobId = true)).
Proof.
  unfold download_endpoint.
  destruct (validateJobId (VStr jobId)) as [|invalid] eqn:Hvalid; [|done].
  cbv zeta.
  destruct (search_patterns path_join fs dirs (download_patterns jobId))
    as [found|] eqn:Hpat.
  - destruct found as [|c f]; [done|].
    destruct (stat fs (c :: f)) as [sz| |err] eqn:Hstat; try done.
    intros [= <- <-]. split; [done|]. split; [done|].
    apply search_patterns_sound in Hpat as (_ & dir & name & Hdir & Hname & Hf & Hacc).
    exists dir, name. split; [done|].
    split; [by apply filter_Boolean_elem in Hdir as [? _]|].
    split; [done|]. left. split; [done|]. split; [done|].
    apply valid_id_no_slash in Hvalid as [_ Hid].
    unfold download_patterns in Hname.
    rewrite !elem_of_cons in Hname.
    destruct Hname as [->|[->|[->|Hnil]]]; [| | |by apply elem_of_nil in Hnil].
    + rewrite !Forall_app. split; [|split; [done|]].
      * by apply Forall_forall; intros x Hx%list_elem_of_In; vm_compute in Hx;
          intuition subst.
      * by apply Forall_forall; intros x Hx%list_elem_of_In; vm_compute in Hx;
          intuition subst.
    + rewrite !Forall_app. split; [|split; [done|]].
      * by apply Forall_forall; intros x Hx%list_elem_of_In; vm_compute in Hx;
          intuition subst.
      * by apply Forall_forall; intros x Hx%list_elem_of_In; vm_compute in Hx;
          intuition subst.
    + by apply Forall_forall; intros x Hx%list_elem_of_In; vm_compute in Hx;
        intuition subst.
  - destruct (search_listing path_join fs dirs jobId) as [[|c f]|] eqn:Hlist; try done.
    destruct (stat fs (c :: f)) as [sz| |err] eqn:Hstat; try done.
    intros [= <- <-]. split; [done|]. split; [done|].
    apply search_listing_sound in Hlist
      as (dir & files & name & Hdir & Hread & Hname & Hinc & Hf).
    exists dir, name. split; [done|].
    split; [by apply filter_Boolean_elem in Hdir as [? _]|].
    split; [done|]. right. split; [done|]. by exists files.
Qed.

(** [path.join] never gives the empty string: an empty path comes out as a
    dot. *)
Hypothesis path_join_truthy : ∀ dir name, name ≠ [] → path_join [dir; name] ≠ [].

Lemma search_patterns_none (ds patterns : list jsstring) :
  Forall (λ name, name ≠ []) patterns →
  search_patterns path_join fs ds patterns = None →
  ∀ dir name, dir ∈ ds → name ∈ patterns → access fs (path_join [dir; name]) = false.
Proof.
  intros Hne. induction ds as [|d ds IH]; [by intros _ ? ? ?%elem_of_nil|].
  cbn [search_patterns].
  destruct (first_accessible path_join fs d patterns) as [[|c g]|] eqn:Hfirst; [|done|].
  - apply first_accessible_sound in Hfirst as (name & Hin & Hf & _).
    exfalso. apply (path_join_truthy d name); [|done].
    by apply (proj1 (Forall_forall _ _) Hne).
  - intros Hnone dir name [->|Hin]%elem_of_cons Hname.
    + by apply (first_accessible_none _ _ Hfirst).
    + by apply IH.
Qed.

Lemma search_listing_none (ds : list jsstring) (jobId : jsstring) :
  jobId ≠ [] →
  search_listing path_join fs ds jobId = None →
  ∀ dir files name, dir ∈ ds → readdir fs dir = Some files → name ∈ files →
                    includes name jobId = false.
Proof.
  intros Hid. induction ds as [|d ds IH]; [by intros _ ? ? ? ?%elem_of_nil|].
  cbn [search_listing].
  destruct (readdir fs d) as [fl|] eqn:Hread.
  - destruct (find (λ f0, includes f0 jobId) fl) as [[|c name]|] eqn:Hfind; [|done|].
    + apply find_some in Hfind as [_ Hinc]. by destruct jobId.
    + intros Hnone dir files name [->|Hin]%elem_of_cons Hfiles Hname.
      * rewrite Hread in Hfiles. injection Hfiles as <-.
        apply (find_none _ _ Hfind). by apply list_elem_of_In.
      * by apply (IH Hnone dir files).
  - intros Hnone dir files name [->|Hin]%elem_of_cons Hfiles Hname; [congruence|].
    by apply (IH Hnone dir files).
Qed.

(** X22: when the download gives up.  The answer "Proof file not found for
    job ..." names the job id, the directories and the patterns searched, and
    it is given only for a valid id when, in every proof directory, none of
    the three pattern files can be accessed and no listed name holds the job
    id. *)
Theorem download_not_found_is_complete (jobId reported : jsstring)
    (locations patterns : list jsstring) :
  download jobId = DownloadNotFound reported locations patterns →
  validateJobId (VStr jobId) = Valid
  ∧ reported = jobId ∧ locations = dirs ∧ patterns = download_patterns jobId
  ∧ ∀ dir, dir ∈ dirs →
      (∀ name, name ∈ download_patterns jobId →
               access fs (path_join [dir; name]) = false)
      ∧ (∀ files name, readdir fs dir = Some files → name ∈ files →
                       includes name jobId = false).
Proof.
  unfold download_endpoint.
  destruct (validateJobId (VStr jobId)) as [|invalid] eqn:Hvalid; [|done].
  cbv zeta.
  destruct (search_patterns path_join fs dirs (download_patterns jobId))
    as [found|] eqn:Hpat.
  { apply search_patterns_sound in Hpat as [Hne _].
    destruct found as [|c f]; [done|]. by destruct (stat fs (c :: f)). }
  destruct (search_listing path_join fs dirs jobId) as [[|c f]|] eqn:Hlist.
  - apply search_listing_sound in Hlist
      as (dir & files & name & _ & _ & Hname & Hinc & Hf).
    exfalso. apply (path_join_truthy dir name); [|done].
    intros ->. apply valid_id_no_slash in Hvalid as [Hid _]. by destruct jobId.
  - by destruct (stat fs (c :: f)).
  - intros [= <- <- <-]. split_and!; [done..|].
    intros dir Hdir. split.
    + intros name Hname. apply (search_patterns_none dirs (download_patterns jobId)); try done.
      unfold download_patterns. repeat constructor; by destruct jobId.
    + intros files name Hfiles Hname.
      apply (search_listing_none dirs jobId) with dir files; try done.
      by apply valid_id_no_slash in Hvalid as [? _].
Qed.

End DownloadProperties.

Lemma simple_join_truthy (dir name : jsstring) :
  name ≠ [] → simple_join [dir; name] ≠ [].
Proof.
  intros Hname. destruct name as [|c name]; [done|].
  destruct dir as [|d dir]; [by vm_compute|].
  unfold simple_join. rewrite !filter_cons_True by done.
  rewrite filter_nil. done.
Qed.

(** X21 at work: the proof of job [ab12] in the directory of [PROOFS_DIR]. *)
Lemma download_serves_only_proofs_witness :
  download_endpoint default_config simple_join ready_host one_proof_store (lit "ab12")
  = DownloadStream (lit "/proofs/proof_ab12.fri") 1024
  ∧ stat one_proof_store (lit "/proofs/proof_ab12.fri") = StatOk 1024.
Proof.
  assert (Hserved :
    download_endpoint default_config simple_join ready_host one_proof_store (lit "ab12")
    = DownloadStream (lit "/proofs/proof_ab12.fri") 1024).
  { vm_compute. reflexivity. }
  split; [exact Hserved|].
  destruct (download_serves_only_proofs default_config simple_join ready_host
              one_proof_store _ _ _ Hserved) as (_ & Hstat & _).
  exact Hstat.
Defined.

(** X22 at work: no proof file anywhere. *)
Lemma download_not_found_is_complete_witness :
  download_endpoint default_config simple_join ready_host empty_proof_store (lit "ab12")
  = DownloadNotFound (lit "ab12")
      (download_dirs simple_join ready_host empty_proof_store)
      (download_patterns (lit "ab12"))
  ∧ validateJobId (VStr (lit "ab12")) = Valid.
Proof.
  assert (Hnone :
    download_endpoint default_config simple_join ready_host empty_proof_store (lit "ab12")
    = DownloadNotFound (lit "ab12")
        (download_dirs simple_join ready_host empty_proof_store)
        (download_patterns (lit "ab12"))).
  { vm_compute. reflexivity. }
  split; [exact Hnone|].
  destruct (download_not_found_is_complete default_config simple_join ready_host
              empty_proof_store simple_join_truthy _ _ _ _ Hnone) as (Hvalid & _).
  exact Hvalid.
Defined.

(** ** Proof files: the names that are listed *)

Lemma strip_prefix_spec (p s r : jsstring) :
  strip_prefix p s = Some r ↔ s = p ++ r.
Proof.
  revert s. induction p as [|a p IH]; intros s; cbn [strip_prefix app].
  - split; [by intros [= ->] | by intros ->].
  - destruct s as [|b s]; [done|].
    destruct (a =? b)%N eqn:Hab.
    + apply N.eqb_eq in Hab as ->. rewrite IH. split; [by intros -> | by intros [= ->]].
    + apply N.eqb_neq in Hab. split; [done | intros [= -> _]; done].
Qed.

Lemma span_class_spec (cls : code_unit → bool) (s run tl : jsstring) :
  span_class cls s = (run, tl)
  ↔ s = run ++ tl ∧ Forall (λ c, cls c = true) run ∧ stops_class cls tl.
Proof.
  revert run tl. induction s as [|c s IH]; intros run tl; cbn [span_class].
  - split.
    + by intros [= <- <-].
    + intros (Hs & _ & _). symmetry in Hs. by apply app_eq_nil in Hs as [-> ->].
  - destruct (cls c) eqn:Hc.
    + destruct (span_class cls s) as [run' tl'] eqn:Hspan.
      specialize (IH run' tl'). destruct IH as [IH _].
      destruct (IH eq_refl) as (-> & Hrun & Hstop). split.
      * intros [= <- <-]. split_and!; [done | by constructor | done].
      * intros (Hs & Hall & Hst).
        destruct run as [|d run].
        { cbn in Hs. subst tl. cbn in Hst. congruence. }
        injection Hs as <- Hs. apply Forall_cons in Hall as [_ Hall].
        assert (Heq : run' = run ∧ tl' = tl); [|by destruct Heq as [-> ->]].
        clear -Hs Hrun Hstop Hall Hst. revert run Hs Hall.
        induction run' as [|x run' IHr]; intros run Hs Hall.
        -- destruct run as [|y run]; [done|]. cbn in Hs. subst tl'.
           apply Forall_cons in Hall as [Hy _]. cbn in Hstop. congruence.
        -- destruct run as [|y run].
           ++ cbn in Hs. subst tl. apply Forall_cons in Hrun as [Hx _].
              cbn in Hst. congruence.
           ++ injection Hs as <- Hs. apply Forall_cons in Hrun as [_ Hrun].
              apply Forall_cons in Hall as [_ Hall].
              destruct (IHr Hrun run Hs Hall) as [-> ->]. done.
    + split.
      * intros [= <- <-]. split_and!; [done | done | exact Hc].
      * intros (Hs & Hall & Hst). destruct run as [|d run].
        -- cbn in Hs. by subst tl.
        -- injection Hs as <- _. apply Forall_cons in Hall as [Hd _]. congruence.
Qed.

Lemma match_proof_fri_spec (file id : jsstring) (compressed : bool) :
  match_proof_fri file = Some (id, compressed)
  ↔ id ≠ [] ∧ Forall (λ c, hex_class c = true) id
    ∧ file = lit "proof_" ++ id ++ (if compressed then lit ".fri.compressed" else lit ".fri").
Proof.
  unfold match_proof_fri. split.
  - destruct (strip_prefix (lit "proof_") file) as [rest|] eqn:Hstrip; [|done].
    apply strip_prefix_spec in Hstrip as ->.
    destruct (span_class hex_class rest) as [run tl] eqn:Hspan.
    apply span_class_spec in Hspan as (-> & Hrun & _).
    destruct run as [|c run]; [done|].
    destruct (jsstring_eqb tl (lit ".fri")) eqn:Hfri.
    { apply jsstring_eqb_eq in Hfri as ->. by intros [= <- <-]. }
    destruct (jsstring_eqb tl (lit ".fri.compressed")) eqn:Hcomp; [|done].
    apply jsstring_eqb_eq in Hcomp as ->. by intros [= <- <-].
  - intros (Hne & Hid & ->).
    assert (Hstrip : strip_prefix (lit "proof_")
                       (lit "proof_" ++ id ++ (if compressed then lit ".fri.compressed"
                                               else lit ".fri"))
                     = Some (id ++ (if compressed then lit ".fri.compressed" else lit ".fri"))).
    { by apply strip_prefix_spec. }
    rewrite Hstrip.
    assert (Hspan : span_class hex_class
                      (id ++ (if compressed then lit ".fri.compressed" else lit ".fri"))
                    = (id, if compressed then lit ".fri.compressed" else lit ".fri")).
    { apply span_class_spec. split_and!; [done | done | by destruct compressed]. }
    rewrite Hspan. destruct id as [|c id]; [done|]. by destruct compressed.
Qed.

Lemma match_proof_bin_spec (file id : jsstring) :
  match_proof_bin file = Some id
  ↔ id ≠ [] ∧ Forall (λ c, hex_class c = true) id ∧ file = lit "proof_" ++ id ++ lit ".bin".
Proof.
  unfold match_proof_bin. split.
  - destruct (strip_prefix (lit "proof_") file) as [rest|] eqn:Hstrip; [|done].
    apply strip_prefix_spec in Hstrip as ->.
    destruct (span_class hex_class rest) as [run tl] eqn:Hspan.
    apply span_class_spec in Hspan as (-> & Hrun & _).
    destruct run as [|c run]; [done|].
    destruct (jsstring_eqb tl (lit ".bin")) eqn:Hbin; [|done].
    apply jsstring_eqb_eq in Hbin as ->. by intros [= <-].
  - intros (Hne & Hid & ->).
    assert (Hstrip : strip_prefix (lit "proof_") (lit "proof_" ++ id ++ lit ".bin")
                     = Some (id ++ lit ".bin")).
    { by apply strip_prefix_spec. }
    rewrite Hstrip.
    assert (Hspan : span_class hex_class (id ++ lit ".bin") = (id, lit ".bin")).
    { by apply span_class_spec. }
    rewrite Hspan. by destruct id as [|c id].
Qed.

Lemma match_vadcop_spec (file : jsstring) (compressed : bool) :
  match_vadcop file = Some compressed
  ↔ file = if compressed then lit "vadcop_final_proof.compressed.bin"
           else lit "vadcop_final_proof.bin".
Proof.
  unfold match_vadcop.
  destruct (jsstring_eqb file (lit "vadcop_final_proof.bin")) eqn:Hraw.
  { apply jsstring_eqb_eq in Hraw as ->.
    destruct compressed; split; try done; intros Heq; vm_compute in Heq; discriminate. }
  destruct (jsstring_eqb file (lit "vadcop_final_proof.compressed.bin")) eqn:Hcomp.
  { apply jsstring_eqb_eq in Hcomp as ->.
    destruct compressed; split; try done; intros Heq; vm_compute in Heq; discriminate. }
  split; [done|]. intros ->.
  destruct compressed; [by rewrite (proj2 (jsstring_eqb_eq _ _) eq_refl) in Hcomp
                       | by rewrite (proj2 (jsstring_eqb_eq _ _) eq_refl) in Hraw].
Qed.

(** A file name of the first two patterns does not start like the third. *)
Lemma proof_name_not_vadcop (id tl : jsstring) (compressed : bool) :
  match_vadcop (lit "proof_" ++ id ++ tl) = Some compressed → False.
Proof.
  intros Heq%match_vadcop_spec. destruct compressed; vm_compute in Heq; discriminate.
Qed.

(** X23: the proof files that the listing knows.  A file name yields a job id
    and a compression flag exactly when it is [proof_<id>.fri],
    [proof_<id>.fri.compressed] or [proof_<id>.bin] for a non-empty [<id>] of
    the characters a to f, digits and hyphens, the id being [<id>] and the flag
    set for the second form only; or when it is [vadcop_final_proof.bin] or
    [vadcop_final_proof.compressed.bin], the id being [latest] and the flag set
    for the second.  Nothing else is a proof file. *)
Theorem proof_file_names (file id : jsstring) (compressed : bool) :
  classify_proof_file file = Some (id, compressed)
  ↔ (id ≠ [] ∧ Forall (λ c, hex_class c = true) id
     ∧ ((file = lit "proof_" ++ id ++ lit ".fri" ∧ compressed = false)
        ∨ (file = lit "proof_" ++ id ++ lit ".fri.compressed" ∧ compressed = true)
        ∨ (file = lit "proof_" ++ id ++ lit ".bin" ∧ compressed = false)))
    ∨ (id = lit "latest"
       ∧ ((file = lit "vadcop_final_proof.bin" ∧ compressed = false)
          ∨ (file = lit "vadcop_final_proof.compressed.bin" ∧ compressed = true))).
Proof.
  unfold classify_proof_file. split.
  - destruct (match_proof_fri file) as [[id1 c1]|] eqn:Hfri.
    { intros [= <- <-]. apply match_proof_fri_spec in Hfri as (Hne & Hid & ->).
      left. split_and!; [done..|]. destruct c1; auto. }
    destruct (match_proof_bin file) as [id2|] eqn:Hbin.
    { intros [= <- <-]. apply match_proof_bin_spec in Hbin as (Hne & Hid & ->).
      left. split_and!; [done..|]. auto. }
    destruct (match_vadcop file) as [c3|] eqn:Hvad; [|done].
    intros [= <- <-]. apply match_vadcop_spec in Hvad as ->.
    right. split; [done|]. destruct c3; auto.
  - intros [(Hne & Hid & [[-> ->]|[[-> ->]|[-> ->]]])|[-> [[-> ->]|[-> ->]]]].
    + by rewrite (proj2 (match_proof_fri_spec _ id false)).
    + by rewrite (proj2 (match_proof_fri_spec _ id true)).
    + destruct (match_proof_fri (lit "proof_" ++ id ++ lit ".bin")) as [[id1 c1]|] eqn:Hfri.
      { exfalso. apply match_proof_fri_spec in Hfri as (_ & _ & Heq).
        apply app_inv_head in Heq.
        destruct c1.
        - change (lit ".fri.compressed") with (lit ".fri.compre" ++ lit "ssed") in Heq.
          rewrite app_assoc in Heq. apply app_inj_2 in Heq as [_ Heq]; [|done].
          vm_compute in Heq. discriminate.
        - apply app_inj_2 in Heq as [_ Heq]; [|done]. vm_compute in Heq. discriminate. }
      by rewrite (proj2 (match_proof_bin_spec _ id)).
    + vm_compute. reflexivity.
    + vm_compute. reflexivity.
Qed.

(** X24: proofs that can be downloaded but are not listed.  A job id is valid
    with any letter, digit, underscore or hyphen in it, but a proof file is
    listed only under an id of the characters a to f, digits and hyphens: for a
    job id with any other character, neither [proof_<id>.fri] nor
    [proof_<id>.bin], the names the download looks for first, is a proof file
    for the listing. *)
Theorem unlisted_proof_files (jobId : jsstring) :
  Exists (λ c, hex_class c = false) jobId →
  classify_proof_file (lit "proof_" ++ jobId ++ lit ".fri") = None
  ∧ classify_proof_file (lit "proof_" ++ jobId ++ lit ".bin") = None
  ∧ lit "proof_" ++ jobId ++ lit ".fri" ∈ download_patterns jobId
  ∧ lit "proof_" ++ jobId ++ lit ".bin" ∈ download_patterns jobId.
Proof.
  intros Hother.
  assert (Hnot : ¬ Forall (λ c, hex_class c = true) jobId).
  { intros Hall. apply Exists_exists in Hother as (c & Hin & Hc).
    rewrite Forall_forall in Hall. specialize (Hall c Hin). congruence. }
  unfold classify_proof_file. split_and!.
  - destruct (match_proof_fri _) as [[id1 c1]|] eqn:Hfri.
    { exfalso. apply match_proof_fri_spec in Hfri as (_ & Hid & Heq).
      apply app_inv_head in Heq. destruct c1.
      - change (lit ".fri.compressed") with (lit ".fri.compre" ++ lit "ssed") in Heq.
        rewrite app_assoc in Heq. apply app_inj_2 in Heq as [_ Heq]; [|done].
        vm_compute in Heq. discriminate.
      - apply app_inv_tail in Heq as ->. done. }
    destruct (match_proof_bin _) as [id2|] eqn:Hbin.
    { exfalso. apply match_proof_bin_spec in Hbin as (_ & Hid & Heq).
      apply app_inv_head in Heq. apply app_inj_2 in Heq as [_ Heq]; [|done].
      vm_compute in Heq. discriminate. }
    destruct (match_vadcop _) as [c3|] eqn:Hvad; [|done].
    by apply proof_name_not_vadcop in Hvad.
  - destruct (match_proof_fri _) as [[id1 c1]|] eqn:Hfri.
    { exfalso. apply match_proof_fri_spec in Hfri as (_ & Hid & Heq).
      apply app_inv_head in Heq. destruct c1.
      - change (lit ".fri.compressed") with (lit ".fri.compre" ++ lit "ssed") in Heq.
        rewrite app_assoc in Heq. apply app_inj_2 in Heq as [_ Heq]; [|done].
        vm_compute in Heq. discriminate.
      - apply app_inj_2 in Heq as [_ Heq]; [|done]. vm_compute in Heq. discriminate. }
    destruct (match_proof_bin _) as [id2|] eqn:Hbin.
    { exfalso. apply match_proof_bin_spec in Hbin as (_ & Hid & Heq).
      apply app_inv_head in Heq. apply app_inv_tail in Heq as ->. done. }
    destruct (match_vadcop _) as [c3|] eqn:Hvad; [|done].
    by apply proof_name_not_vadcop in Hvad.
  - unfold download_patterns. left.
  - unfold download_patterns. right. left.
Qed.

(** X24 at work: the job id [job-2], valid but with the letters j and o. *)
Lemma unlisted_proof_files_witness :
  validateJobId (VStr (lit "job-2")) = Valid
  ∧ classify_proof_file (lit "proof_" ++ lit "job-2" ++ lit ".fri") = None.
Proof.
  split; [vm_compute; reflexivity|].
  assert (Hother : Exists (λ c, hex_class c = false) (lit "job-2")).
  { apply Exists_cons_hd. vm_compute. reflexivity. }
  destruct (unlisted_proof_files (lit "job-2") Hother) as (Hfri & _).
  exact Hfri.
Defined.

(** ** Configuration strings *)

Lemma split_on_no_sep (sep : code_unit) (s : jsstring) :
  sep ∉ s → split_on sep s = [s].
Proof.
  induction s as [|c s IH]; [done|]. intros Hsep. cbn [split_on].
  apply not_elem_of_cons in Hsep as [Hc Hs].
  destruct (c =? sep)%N eqn:Heq; [by apply N.eqb_eq in Heq|].
  by rewrite (IH Hs).
Qed.

Lemma split_on_app (sep : code_unit) (a b : jsstring) :
  sep ∉ a → split_on sep (a ++ sep :: b) = a :: split_on sep b.
Proof.
  induction a as [|c a IH]; intros Hsep; cbn [split_on app].
  - by rewrite N.eqb_refl.
  - apply not_elem_of_cons in Hsep as [Hc Ha].
    destruct (c =? sep)%N eqn:Heq; [by apply N.eqb_eq in Heq|].
    by rewrite (IH Ha).
Qed.

Lemma split_on_join (sep : code_unit) (parts : list jsstring) :
  parts ≠ [] → Forall (λ p, sep ∉ p) parts →
  split_on sep (join [sep] parts) = parts.
Proof.
  induction parts as [|p parts IH]; [done|]. intros _ Hparts.
  apply Forall_cons in Hparts as [Hp Hparts].
  destruct parts as [|q parts].
  - by apply split_on_no_sep.
  - change (join [sep] (p :: q :: parts))
      with (p ++ sep :: join [sep] (q :: parts)).
    rewrite split_on_app by done. by rewrite IH.
Qed.

(** X25: the coordinator address that the health endpoints report.  For a URL
    of the form host:port the reported host and port are its two parts, and
    for a URL without a colon the port reported is 50051.  For a URL with a
    scheme, which the worker start accepts, the two are not the host and the
    port: the host reported is the scheme and the port reported is the host
    with two slashes in front. *)
Theorem coordinator_address (a b c : jsstring) :
  58%N ∉ a → 58%N ∉ b →
  (coordinator_host (a ++ lit ":" ++ b) = str_or (Some a) (lit "localhost")
   ∧ coordinator_port (a ++ lit ":" ++ b) = str_or (Some b) (lit "50051"))
  ∧ (coordinator_host a = str_or (Some a) (lit "localhost")
     ∧ coordinator_port a = lit "50051")
  ∧ (coordinator_host (a ++ lit "://" ++ b ++ lit ":" ++ c)
     = str_or (Some a) (lit "localhost")
     ∧ coordinator_port (a ++ lit "://" ++ b ++ lit ":" ++ c) = lit "//" ++ b).
Proof.
  intros Ha Hb. unfold coordinator_host, coordinator_port.
  change (lit ":") with [58%N]. change (lit "://") with (58%N :: lit "//").
  cbn [app]. split_and!.
  - by rewrite split_on_app, split_on_no_sep.
  - by rewrite split_on_app, split_on_no_sep.
  - by rewrite split_on_no_sep.
  - by rewrite split_on_no_sep.
  - by rewrite split_on_app.
  - rewrite split_on_app by done.
    change (lit "//" ++ b ++ 58%N :: c) with ((lit "//" ++ b) ++ 58%N :: c).
    rewrite split_on_app; [done|].
    rewrite elem_of_app. intros [Hin|Hin]; [|done].
    vm_compute in Hin. by repeat (apply elem_of_cons in Hin as [Hin|Hin]; [done|]);
      apply elem_of_nil in Hin.
Qed.

(** X25 at work: the default address and the same with a scheme. *)
Lemma coordinator_address_witness :
  coordinator_host (lit "localhost:50051") = lit "localhost"
  ∧ coordinator_port (lit "localhost:50051") = lit "50051"
  ∧ coordinator_host (lit "http://localhost:50051") = lit "http"
  ∧ coordinator_port (lit "http://localhost:50051") = lit "//localhost".
Proof.
  assert (Hhost : 58%N ∉ lit "localhost").
  { intros Hin. vm_compute in Hin.
    by repeat (apply elem_of_cons in Hin as [Hin|Hin]; [done|]); apply elem_of_nil in Hin. }
  assert (Hscheme : 58%N ∉ lit "http").
  { intros Hin. vm_compute in Hin.
    by repeat (apply elem_of_cons in Hin as [Hin|Hin]; [done|]); apply elem_of_nil in Hin. }
  destruct (coordinator_address (lit "localhost") (lit "50051") [] Hhost)
    as ((H1 & H2) & _).
  { intros Hin. vm_compute in Hin.
    by repeat (apply elem_of_cons in Hin as [Hin|Hin]; [done|]); apply elem_of_nil in Hin. }
  destruct (coordinator_address (lit "http") (lit "localhost") (lit "50051") Hscheme Hhost)
    as (_ & _ & (H3 & H4)).
  split_and!; [exact H1 | exact H2 | exact H3 | exact H4].
Defined.

(** X26: the origins that may call the gateway.  When [ALLOWED_ORIGINS] is
    set to origins separated by commas, a request that names its origin is
    let through exactly when the origin is one of them, as written, or when
    one of them is the star; a request that names no origin is always let
    through. *)
Theorem cors_allows_configured (origins : list jsstring) (origin : option jsstring) :
  Forall (λ o, 44%N ∉ o) origins →
  join (lit ",") origins ≠ [] →
  cors_origin (ALLOWED_ORIGINS (Some (join (lit ",") origins))) origin = true
  ↔ match origin with
    | Some (c :: o) => c :: o ∈ origins ∨ lit "*" ∈ origins
    | _ => True
    end.
Proof.
  intros Hno Hset. unfold ALLOWED_ORIGINS.
  assert (Hparts : origins ≠ []) by (by intros ->).
  destruct (join (lit ",") origins) as [|c s] eqn:Hjoin; [done|].
  cbn [str_or]. rewrite <- Hjoin. change (lit ",") with [44%N].
  rewrite split_on_join by done.
  unfold cors_origin. destruct origin as [[|d o]|]; [done| |done].
  rewrite orb_true_iff, !bool_decide_eq_true. done.
Qed.

(** X26 at work: two origins configured. *)
Lemma cors_allows_configured_witness :
  cors_origin (ALLOWED_ORIGINS (Some (lit "https://a.example,https://b.example")))
    (Some (lit "https://b.example")) = true.
Proof.
  assert (Hno : Forall (λ o, 44%N ∉ o) [lit "https://a.example"; lit "https://b.example"]).
  { repeat constructor; intros Hin; vm_compute in Hin;
      by repeat (apply elem_of_cons in Hin as [Hin|Hin]; [done|]); apply elem_of_nil in Hin. }
  assert (Hset : join (lit ",") [lit "https://a.example"; lit "https://b.example"] ≠ []).
  { by vm_compute. }
  apply (cors_allows_configured [lit "https://a.example"; lit "https://b.example"]
           (Some (lit "https://b.example")) Hno Hset).
  left. right. left.
Defined.

(** ** Listing processes *)

Section ProbeGuard.

Variable A : Type.
Variable nothing : A.
Variable parse : jsstring → probe_result A.

Local Abbreviation run := (probe A nothing parse).
Local Abbreviation step := (probe_step A nothing parse).

(** Once the flag is set, no event calls back, kills or throws. *)
Lemma probe_step_invoked (st : probe_state A) (e : probe_event) :
  callbackInvoked st = true →
  callbackInvoked (step st e) = true
  ∧ probe_callbacks (step st e) = probe_callbacks st
  ∧ probe_kills (step st e) = probe_kills st
  ∧ probe_uncaught (step st e) = probe_uncaught st.
Proof.
  intros Hset. destruct e as [|error stdout|]; cbn [probe_step]; rewrite ?Hset.
  - by destruct (probe_timer_pending st).
  - done.
  - done.
Qed.

Lemma probe_fold_invoked (events : list probe_event) (st : probe_state A) :
  callbackInvoked st = true →
  probe_callbacks (fold_left step events st) = probe_callbacks st
  ∧ probe_kills (fold_left step events st) = probe_kills st
  ∧ probe_uncaught (fold_left step events st) = probe_uncaught st.
Proof.
  revert st. induction events as [|e events IH]; intros st Hset; [done|].
  cbn [fold_left].
  destruct (probe_step_invoked st e Hset) as (Hset' & Hc & Hk & Hu).
  destruct (IH _ Hset') as (Hc' & Hk' & Hu'). by rewrite Hc', Hk', Hu'.
Qed.

(** The first event sets the flag. *)
Lemma probe_first_sets (e : probe_event) :
  callbackInvoked (step (probe_start A) e) = true.
Proof.
  destruct e as [|error stdout|]; cbn; [done | | done].
  destruct (error || is_empty stdout || (length (trim stdout) =? 0)%nat); [done|].
  by destruct (parse stdout).
Qed.

Lemma probe_first_decides (e : probe_event) (rest : list probe_event) :
  probe_callbacks (run (e :: rest)) = probe_callbacks (run [e])
  ∧ probe_kills (run (e :: rest)) = probe_kills (run [e])
  ∧ probe_uncaught (run (e :: rest)) = probe_uncaught (run [e]).
Proof.
  unfold probe. cbn [fold_left]. apply probe_fold_invoked, probe_first_sets.
Qed.

End ProbeGuard.

(** X27: the two process probes call back once.  Whatever events follow a
    probe and in whatever order (the timer, the end of the command, an error
    of the child), the first one alone decides.  [findCoordinatorProcess]
    calls back exactly once, or not at all when the parsing of a Windows
    listing throws; off Windows it always calls back exactly once.  It kills
    its command at most once, and only when the timer comes first.
    [isProcessRunning] calls back exactly once, with [true] exactly when the
    first event is the end of the command without an error and with an output
    that is not blank. *)
Theorem process_probes_call_back_once (on_win32 : bool) (e : probe_event)
    (rest : list probe_event) :
  let found := findCoordinatorProcess on_win32 (e :: rest) in
  let running := isProcessRunning (e :: rest) in
  probe_callbacks found = probe_callbacks (findCoordinatorProcess on_win32 [e])
  ∧ (length (probe_callbacks found) + probe_uncaught found = 1)%nat
  ∧ (on_win32 = false → length (probe_callbacks found) = 1%nat)
  ∧ ((∀ stdout, e ≠ ProbeExit false stdout) → probe_callbacks found = [NotFound])
  ∧ probe_kills found = match e with ProbeTimer => 1%nat | _ => 0%nat end
  ∧ ∃ answer, probe_callbacks running = [answer]
              ∧ (answer = true
                 ↔ ∃ stdout, e = ProbeExit false stdout ∧ trim stdout ≠ []).
Proof.
  intros found running. subst found running.
  unfold findCoordinatorProcess, isProcessRunning.
  destruct (probe_first_decides found_pid NotFound (parse_listing on_win32) e rest)
    as (Hc & Hk & Hu).
  destruct (probe_first_decides bool false (λ _, CallsBack true) e rest) as (Hc2 & _).
  rewrite Hc, Hk, Hu, Hc2. clear Hc Hk Hu Hc2.
  unfold probe. cbn [fold_left].
  destruct e as [|error stdout|]; cbn.
  - split_and!; [done | done | done | done | done |].
    exists false. split; [done|]. split; [done | by intros (? & ? & _)].
  - destruct error; cbn.
    + split_and!; [done | done | done | done | done |].
      exists false. split; [done|]. split; [done | by intros (? & ? & _)].
    + destruct (is_empty stdout) eqn:Hempty; cbn.
      { destruct stdout; [|done].
        split_and!; [done | done | done | by intros H; destruct (H []) | done |].
        exists false. split; [done|]. split; [done|].
        intros (s & [= <-] & Htrim). exfalso. by apply Htrim. }
      destruct (length (trim stdout) =? 0)%nat eqn:Hblank; cbn.
      { apply Nat.eqb_eq in Hblank.
        split_and!; [done | done | done | by intros H; destruct (H stdout) | done |].
        exists false. split; [done|]. split; [done|].
        intros (s & [= <-] & Htrim). exfalso. apply Htrim. by destruct (trim stdout). }
      apply Nat.eqb_neq in Hblank.
      assert (Hanswer : ∃ answer, [true] = [answer]
                        ∧ (answer = true
                           ↔ ∃ s, ProbeExit false stdout = ProbeExit false s ∧ trim s ≠ [])).
      { exists true. split; [done|]. split; [|done].
        intros _. exists stdout. split; [done|]. intros Ht. by rewrite Ht in Hblank. }
      destruct on_win32.
      * destruct (parse_listing true stdout) as [value|] eqn:Hparse; cbn;
          (split_and!; [done | done | done | by intros H; destruct (H stdout) | done
                       | exact Hanswer]).
      * change (parse_listing false stdout)
          with (CallsBack (first_pid (split_on 10 (trim stdout)))).
        cbn [probe_callbacks probe_kills probe_uncaught length].
        split_and!; [done | done | done | by intros H; destruct (H stdout) | done
                    | exact Hanswer].
  - split_and!; [done | done | done | done | done |].
    exists false. split; [done|]. split; [done | by intros (? & ? & _)].
Qed.

Lemma span_digits_class (s : jsstring) : span_digits s = span_class is_digit s.
Proof.
  induction s as [|c s IH]; [done|]. cbn [span_digits span_class]. by rewrite IH.
Qed.

Lemma digits_value_nonneg (ds : jsstring) : 0 ≤ digits_value ds.
Proof.
  unfold digits_value.
  assert (H : ∀ acc, 0 ≤ acc → 0 ≤ fold_left (λ a c, 10 * a + digit_value c) ds acc).
  { induction ds as [|c ds IH]; intros a Ha; [done|]. cbn [fold_left].
    apply IH. unfold digit_value. lia. }
  by apply H.
Qed.

Lemma parseInt_digits (ds : jsstring) :
  ds ≠ [] → Forall (λ c, is_digit c = true) ds →
  parseInt_string ds = Some (digits_value ds).
Proof.
  intros Hne Hds. destruct ds as [|c ds]; [done|]. clear Hne.
  pose proof Hds as Hall. apply Forall_cons in Hds as [Hc _].
  destruct (digit_not_space_nor_sign c Hc) as (Hsp & Hminus & Hplus).
  unfold parseInt_string. cbn [skip_whitespace]. rewrite Hsp.
  assert (Hsign : split_sign (c :: ds) = (1, c :: ds)).
  { unfold split_sign. destruct c as [|q]; [done|].
    repeat (destruct q as [q|q|]; try done). }
  rewrite Hsign.
  assert (Hspan : span_digits (c :: ds) = (c :: ds, [])).
  { rewrite span_digits_class. apply span_class_spec.
    split_and!; [by rewrite app_nil_r | done | done]. }
  rewrite Hspan. cbn [fst]. f_equal. lia.
Qed.

(** What [/^\S+\s+(\d+)/] matches: a first column, white space, and a second
    column that starts with the digits of the group. *)
Lemma match_pid_column_spec (line ds : jsstring) :
  match_pid_column line = Some ds
  ↔ ∃ user ws rest,
      line = user ++ ws ++ ds ++ rest
      ∧ user ≠ [] ∧ Forall (λ c, is_js_whitespace c = false) user
      ∧ ws ≠ [] ∧ Forall (λ c, is_js_whitespace c = true) ws
      ∧ ds ≠ [] ∧ Forall (λ c, is_digit c = true) ds
      ∧ stops_class is_digit rest.
Proof.
  unfold match_pid_column. split.
  - destruct (span_class (λ c, negb (is_js_whitespace c)) line) as [user r1] eqn:Huser.
    apply span_class_spec in Huser as (-> & Huser & _).
    destruct user as [|u user]; [done|].
    destruct (span_class is_js_whitespace r1) as [ws r2] eqn:Hws.
    apply span_class_spec in Hws as (-> & Hws & _).
    destruct ws as [|w ws]; [done|].
    destruct (span_digits r2) as [run rest] eqn:Hds.
    rewrite span_digits_class in Hds.
    apply span_class_spec in Hds as (-> & Hds & Hstop).
    destruct run as [|d run]; [done|].
    intros [= <-]. exists (u :: user), (w :: ws), rest.
    split_and!; try done.
    eapply Forall_impl; [exact Huser|]. intros c Hc. by apply negb_true_iff in Hc.
  - intros (user & ws & rest & -> & Hune & Huser & Hwne & Hws & Hdne & Hds & Hstop).
    destruct user as [|u user]; [done|].
    destruct ws as [|w ws]; [done|].
    destruct ds as [|d ds]; [done|].
    assert (H1 : span_class (λ c, negb (is_js_whitespace c))
                   ((u :: user) ++ (w :: ws) ++ (d :: ds) ++ rest)
                 = (u :: user, (w :: ws) ++ (d :: ds) ++ rest)).
    { apply span_class_spec. split_and!; [done | |].
      - eapply Forall_impl; [exact Huser|]. intros c Hc. by rewrite Hc.
      - apply Forall_cons in Hws as [Hw _]. cbn. by rewrite Hw. }
    rewrite H1.
    assert (H2 : span_class is_js_whitespace ((w :: ws) ++ (d :: ds) ++ rest)
                 = (w :: ws, (d :: ds) ++ rest)).
    { apply span_class_spec. split_and!; [done | done |].
      apply Forall_cons in Hds as [Hd _]. cbn.
      by destruct (digit_not_space_nor_sign d Hd) as [? _]. }
    rewrite H2.
    assert (H3 : span_digits ((d :: ds) ++ rest) = (d :: ds, rest)).
    { rewrite span_digits_class. by apply span_class_spec. }
    by rewrite H3.
Qed.

(** X28: what the process listing finds off Windows.  The loop over the lines
    of [ps aux] never yields [NaN].  When it yields a process id, it comes
    from the second column of the first line that names [zisk-coordinator]
    and has the form of a first column, white space and a second column
    starting with digits; the lines before it either do not name the binary
    or do not have that form.  The process id is the number written by these
    digits when that number is at most [MAX_SAFE_INTEGER], the range in which
    [parseInt] is exact; nothing is said of the value of a longer run. *)
Theorem unix_listing_is_second_column (lines : list jsstring) :
  first_pid lines ≠ FoundNaN
  ∧ (first_pid lines = NotFound
     ↔ ∀ line, line ∈ lines → includes line (lit "zisk-coordinator") = true →
               match_pid_column line = None)
  ∧ ∀ n, first_pid lines = FoundPid n →
      ∃ before line after user ws ds rest,
          lines = before ++ line :: after
          ∧ Forall (λ l, includes l (lit "zisk-coordinator") = false
                         ∨ match_pid_column l = None) before
          ∧ includes line (lit "zisk-coordinator") = true
          ∧ line = user ++ ws ++ ds ++ rest
          ∧ user ≠ [] ∧ Forall (λ c, is_js_whitespace c = false) user
          ∧ ws ≠ [] ∧ Forall (λ c, is_js_whitespace c = true) ws
          ∧ ds ≠ [] ∧ Forall (λ c, is_digit c = true) ds
          ∧ stops_class is_digit rest
          ∧ (digits_value ds ≤ MAX_SAFE_INTEGER →
               n = digits_value ds ∧ 0 ≤ n ≤ MAX_SAFE_INTEGER).
Proof.
  induction lines as [|line lines (IHnan & IHnone & IHpid)].
  { split_and!; [done | | done]. split; [by intros _ ? ?%elem_of_nil | done]. }
  cbn [first_pid].
  destruct (includes line (lit "zisk-coordinator")) eqn:Hname.
  - destruct (match_pid_column line) as [ds|] eqn:Hmatch.
    + pose proof Hmatch as Hspec.
      apply match_pid_column_spec in Hspec
        as (user & ws & rest & Hline & Hune & Huser & Hwne & Hws & Hdne & Hds & Hstop).
      unfold pid_of_text. rewrite (parseInt_digits ds Hdne Hds).
      split_and!; [done | |].
      * split; [done|]. intros Hall.
        specialize (Hall line (list_elem_of_here _ _) Hname). congruence.
      * intros n [= <-].
        exists [], line, lines, user, ws, ds, rest. split_and!; try done.
        intros Hsafe. split_and!; [done | apply digits_value_nonneg | done].
    + split_and!; [done | |].
      * rewrite IHnone. split.
        -- intros Hall l [->|Hin]%elem_of_cons Hl; [done | by apply Hall].
        -- intros Hall l Hin Hl. apply Hall; [by right | done].
      * intros n Hn. destruct (IHpid n Hn) as (before & l & after & Hrest).
        exists (line :: before), l, after.
        destruct Hrest as (user & ws & ds & rest & -> & Hbefore & Hrest).
        exists user, ws, ds, rest. split_and!; try done; try apply Hrest.
        constructor; [by right | done].
  - split_and!; [done | |].
    + rewrite IHnone. split.
      * intros Hall l [->|Hin]%elem_of_cons Hl; [congruence | by apply Hall].
      * intros Hall l Hin Hl. apply Hall; [by right | done].
    + intros n Hn. destruct (IHpid n Hn) as (before & l & after & Hrest).
      exists (line :: before), l, after.
      destruct Hrest as (user & ws & ds & rest & -> & Hbefore & Hrest).
      exists user, ws, ds, rest. split_and!; try done; try apply Hrest.
      constructor; [by left | done].
Qed.

Lemma dec_pos_digits (p : positive) :
  dec (Z.pos p) ≠ [] ∧ Forall (λ c, is_digit c = true) (dec (Z.pos p))
  ∧ digits_value (dec (Z.pos p)) = Z.pos p.
Proof.
  unfold dec. change (Z.to_int (Z.pos p)) with (Decimal.Pos (Pos.to_uint p)).
  cbn [NilZero.string_of_int].
  pose proof (Unsigned.to_uint_nonnil p) as Hnn.
  assert (Hs : NilZero.string_of_uint (Pos.to_uint p)
               = NilEmpty.string_of_uint (Pos.to_uint p)).
  { unfold NilZero.string_of_uint. by destruct (Pos.to_uint p). }
  rewrite Hs.
  destruct (uint_head_digit _ Hnn) as (c & rest & Hcs & Hc).
  pose proof (span_digits_uint (Pos.to_uint p)) as Hspan.
  pose proof (digits_value_uint (Pos.to_uint p)) as Hval.
  rewrite Unsigned.of_to in Hval.
  split_and!; [by rewrite Hcs | | done].
  rewrite span_digits_class in Hspan.
  by apply span_class_spec in Hspan as (_ & Hall & _).
Qed.

(** X29: a process id survives the listing.  When the first line of [ps aux]
    that names [zisk-coordinator] shows a user, white space and then the
    process id in decimal, followed by something that is not a digit, that
    process id is what the listing yields, whatever the other lines hold.
    The process id is one that [parseInt] reads exactly: at most
    [MAX_SAFE_INTEGER]. *)
Theorem unix_listing_round_trip (before after : list jsstring)
    (user ws rest : jsstring) (p : positive) :
  Z.pos p ≤ MAX_SAFE_INTEGER →
  Forall (λ l, includes l (lit "zisk-coordinator") = false) before →
  user ≠ [] → Forall (λ c, is_js_whitespace c = false) user →
  ws ≠ [] → Forall (λ c, is_js_whitespace c = true) ws →
  stops_class is_digit rest →
  includes (user ++ ws ++ dec (Z.pos p) ++ rest) (lit "zisk-coordinator") = true →
  first_pid (before ++ (user ++ ws ++ dec (Z.pos p) ++ rest) :: after)
  = FoundPid (Z.pos p).
Proof.
  intros Hsafe Hbefore Hune Huser Hwne Hws Hstop Hname.
  destruct (dec_pos_digits p) as (Hdne & Hds & Hval).
  induction before as [|l before IH]; cbn [app first_pid].
  - rewrite Hname.
    assert (Hmatch : match_pid_column (user ++ ws ++ dec (Z.pos p) ++ rest)
                     = Some (dec (Z.pos p))).
    { apply match_pid_column_spec. exists user, ws, rest. done. }
    rewrite Hmatch. unfold pid_of_text. by rewrite parseInt_digits, Hval.
  - apply Forall_cons in Hbefore as [Hl Hbefore]. rewrite Hl. by apply IH.
Qed.

(** X29 at work: a line of [ps aux]. *)
Lemma unix_listing_round_trip_witness :
  first_pid [lit "root 1 init";
             lit "zisk" ++ lit "  " ++ dec 4242 ++ lit " 0.0 /usr/local/bin/zisk-coordinator"]
  = FoundPid 4242.
Proof.
  apply (unix_listing_round_trip [lit "root 1 init"] [] (lit "zisk") (lit "  ")
           (lit " 0.0 /usr/local/bin/zisk-coordinator") 4242%positive).
  - unfold MAX_SAFE_INTEGER. lia.
  - repeat constructor.
  - done.
  - repeat constructor.
  - done.
  - repeat constructor.
  - reflexivity.
  - vm_compute. reflexivity.
Defined.

(** ** Discovery at start-up *)

Section StartupProperties.

Variable path_join : list jsstring -> jsstring.
Variable s : startup.

Lemma first_repo_sound (paths : list jsstring) (repo : jsstring) :
  first_repo path_join s paths = Some repo →
  repo ∈ paths ∧ looks_like_repo path_join s repo = true.
Proof.
  induction paths as [|p paths IH]; [done|]. cbn [first_repo].
  destruct (looks_like_repo path_join s p) eqn:Hp.
  - intros [= <-]. split; [left | done].
  - intros [Hin Hrepo]%IH. split; [by right | done].
Qed.

Lemma first_repo_none (paths : list jsstring) :
  first_repo path_join s paths = None
  ↔ ∀ p, p ∈ paths → looks_like_repo path_join s p = false.
Proof.
  induction paths as [|p paths IH]; cbn [first_repo].
  - split; [by intros _ ? ?%elem_of_nil | done].
  - destruct (looks_like_repo path_join s p) eqn:Hp.
    + split; [done|]. intros Hall. specialize (Hall p (list_elem_of_here _ _)). congruence.
    + rewrite IH. split.
      * intros Hall q [->|Hin]%elem_of_cons; [done | by apply Hall].
      * intros Hall q Hin. apply Hall. by right.
Qed.

Lemma first_existing_sound (paths : list jsstring) (p : jsstring) :
  first_existing s paths = Some p → p ∈ paths ∧ exists_on_disk s p = true.
Proof.
  induction paths as [|q paths IH]; [done|]. cbn [first_existing].
  destruct (exists_on_disk s q) eqn:Hq.
  - intros [= <-]. split; [left | done].
  - intros [Hin Hp]%IH. split; [by right | done].
Qed.

Lemma first_existing_none (paths : list jsstring) :
  first_existing s paths = None ↔ ∀ p, p ∈ paths → exists_on_disk s p = false.
Proof.
  induction paths as [|q paths IH]; cbn [first_existing].
  - split; [by intros _ ? ?%elem_of_nil | done].
  - destruct (exists_on_disk s q) eqn:Hq.
    + split; [done|]. intros Hall. specialize (Hall q (list_elem_of_here _ _)). congruence.
    + rewrite IH. split.
      * intros Hall p [->|Hin]%elem_of_cons; [done | by apply Hall].
      * intros Hall p Hin. apply Hall. by right.
Qed.

(** X30: what the gateway finds when it starts.  The repository that
    [findZiskRepo] returns is one of its candidates ([ZISK_ROOT], [ZISK_HOME],
    one and two levels above the working directory), is not the empty string
    and holds both [Cargo.toml] and [distributed]; it returns nothing exactly
    when no candidate holds both, and [ZISK_ROOT] wins when it does.  The proto
    file that [findProtoPath] returns exists on disk and is [PROTO_PATH] or one
    of the candidates; [PROTO_PATH] wins when it is set and exists; and the
    search fails exactly when [PROTO_PATH] is unset, empty or missing on disk
    and no candidate exists. *)
Theorem startup_discovery :
  (∀ repo, findZiskRepo path_join s = Some repo →
     repo ∈ repo_paths path_join s ∧ repo ≠ []
     ∧ exists_on_disk s (path_join [repo; lit "Cargo.toml"]) = true
     ∧ exists_on_disk s (path_join [repo; lit "distributed"]) = true)
  ∧ (findZiskRepo path_join s = None
     ↔ ∀ p, p ∈ repo_paths path_join s → looks_like_repo path_join s p = false)
  ∧ (∀ c root, env_ZISK_ROOT s = Some (c :: root) →
       looks_like_repo path_join s (c :: root) = true →
       findZiskRepo path_join s = Some (c :: root))
  ∧ (∀ p, findProtoPath path_join s = Some p →
       exists_on_disk s p = true
       ∧ (env_PROTO_PATH s = Some p ∨ p ∈ proto_paths path_join s))
  ∧ (findProtoPath path_join s = None
     ↔ (∀ p, env_PROTO_PATH s = Some p → p = [] ∨ exists_on_disk s p = false)
       ∧ ∀ p, p ∈ proto_paths path_join s → exists_on_disk s p = false)
  ∧ (∀ c p, env_PROTO_PATH s = Some (c :: p) → exists_on_disk s (c :: p) = true →
       findProtoPath path_join s = Some (c :: p)).
Proof.
  split_and!.
  - intros repo [Hin Hrepo]%first_repo_sound.
    pose proof Hin as Hne. apply filter_Boolean_elem in Hne as [Hne _].
    unfold looks_like_repo in Hrepo. apply andb_true_iff in Hrepo as [? ?]. done.
  - apply first_repo_none.
  - intros c root Hroot Hrepo. unfold findZiskRepo, repo_paths.
    rewrite Hroot. cbn [filter_Boolean omap list_omap first_repo]. by rewrite Hrepo.
  - unfold findProtoPath. intros p.
    destruct (env_PROTO_PATH s) as [[|c q]|] eqn:Henv.
    + intros [Hin Hp]%first_existing_sound. auto.
    + destruct (exists_on_disk s (c :: q)) eqn:Hq.
      * intros [= <-]. auto.
      * intros [Hin Hp]%first_existing_sound. auto.
    + intros [Hin Hp]%first_existing_sound. auto.
  - unfold findProtoPath.
    destruct (env_PROTO_PATH s) as [[|c q]|] eqn:Henv.
    + rewrite first_existing_none. split; [|by intros [_ ?]].
      intros Hall. split; [|done]. intros p [= <-]. by left.
    + destruct (exists_on_disk s (c :: q)) eqn:Hq.
      * split; [done|]. intros [Hset _]. destruct (Hset _ eq_refl); [done | congruence].
      * rewrite first_existing_none. split; [|by intros [_ ?]].
        intros Hall. split; [|done]. intros p [= <-]. by right.
    + rewrite first_existing_none. split; [|by intros [_ ?]].
      intros Hall. split; [|done]. by intros p [=].
  - intros c p Henv Hp. unfold findProtoPath. by rewrite Henv, Hp.
Qed.

End StartupProperties.

(** ** The rate limiter: a full window *)

Lemma dec_nonneg_digits (q : Z) :
  0 ≤ q →
  dec q ≠ [] ∧ Forall (λ c, is_digit c = true) (dec q) ∧ digits_value (dec q) = q.
Proof.
  intros Hq. destruct q as [|p|p]; [|apply dec_pos_digits|lia].
  split_and!; [done | by repeat constructor | done].
Qed.

Lemma span_digits_run (ds tl : jsstring) :
  Forall (λ c, is_digit c = true) ds → stops_class is_digit tl →
  span_digits (ds ++ tl) = (ds, tl).
Proof.
  intros Hds Hstop. rewrite span_digits_class. by apply span_class_spec.
Qed.

(** The fraction printed for [r] thousandths reads as [r]. *)
Lemma read_render_fraction (r : Z) :
  0 < r < 1000 → read_fraction (render_fraction r) = Some r.
Proof.
  intros Hr.
  assert (Hall : forallb (λ n, match read_fraction (render_fraction (Z.of_nat n)) with
                               | Some v => v =? Z.of_nat n
                               | None => false
                               end) (seq 1 999) = true).
  { vm_compute. reflexivity. }
  rewrite forallb_forall in Hall.
  specialize (Hall (Z.to_nat r)). rewrite Z2Nat.id in Hall by lia.
  destruct (read_fraction (render_fraction r)) as [v|].
  - f_equal. apply Z.eqb_eq. apply Hall. apply in_seq. lia.
  - exfalso. assert (false = true); [|done]. apply Hall. apply in_seq. lia.
Qed.

(** The seconds printed for a window read as its milliseconds. *)
Lemma read_render_seconds (ms : Z) :
  0 ≤ ms → read_seconds (render_seconds ms) = Some ms.
Proof.
  intros Hms. unfold render_seconds.
  replace (ms <? 0) with false by (symmetry; apply Z.ltb_ge; lia).
  unfold render_magnitude. cbv zeta.
  pose proof (Z.div_mod ms 1000 ltac:(lia)) as Hdm.
  pose proof (Z.mod_pos_bound ms 1000 ltac:(lia)) as Hr.
  assert (Hq : 0 ≤ ms / 1000) by (apply Z.div_pos; lia).
  destruct (dec_nonneg_digits (ms / 1000) Hq) as (Hne & Hds & Hval).
  unfold read_seconds.
  destruct (ms mod 1000 =? 0) eqn:Hzero.
  - apply Z.eqb_eq in Hzero.
    assert (Hspan : span_digits (dec (ms / 1000)) = (dec (ms / 1000), [])).
    { rewrite <- (app_nil_r (dec (ms / 1000))) at 1. by apply span_digits_run. }
    rewrite Hspan.
    destruct (dec (ms / 1000)) as [|d ds] eqn:Hdec; [done|].
    rewrite Hval. f_equal. lia.
  - apply Z.eqb_neq in Hzero.
    match goal with
    | |- context [span_digits ?t] =>
        assert (Hspan : span_digits t
                        = (dec (ms / 1000), 46%N :: render_fraction (ms mod 1000)))
          by (by apply span_digits_run)
    end.
    rewrite Hspan.
    destruct (dec (ms / 1000)) as [|d ds] eqn:Hdec; [done|].
    rewrite N.eqb_refl.
    rewrite read_render_fraction by lia. rewrite Hval. f_equal. lia.
Qed.

Section RateLimiterWindow.

Variable cfg : config.

Local Abbreviation W := (RATE_LIMIT_WINDOW_MS cfg).
Local Abbreviation MAX := (RATE_LIMIT_MAX_REQUESTS cfg).

(** C7, as amended. With a limit of at least 1, and limit, window and reset
    time within the integers that the language holds exactly: a request that
    finds no record or an expired one opens a window and is admitted; of the
    requests of the same client that follow while the window lasts, whatever
    other clients and the sweep do meanwhile, the first [MAX - 1] are
    admitted and every later one is refused with 429: [MAX] admissions in
    all, and the request after them is refused.  The message of the refusal
    is the fixed text around two numerals, which read as the limit and as
    the window in seconds. *)
Theorem rateLimit_window (key : jsstring) (t0 : Z)
    (m0 : gmap jsstring rate_record) (evs : list rl_event) :
  1 <= MAX <= MAX_SAFE_INTEGER →
  0 <= W → 1000 * W <= MAX_SAFE_INTEGER →
  0 <= t0 → t0 + W <= MAX_SAFE_INTEGER →
  opens_window m0 key t0 →
  Forall (within_window key (t0 + W)) evs →
  let '(m1, first) := rateLimit cfg key t0 m0 in
  let n := requests_of key evs in
  let admitted := Nat.min n (Z.to_nat (MAX - 1)) in
  first = Next
  ∧ decisions_for key (run_rate_limiter cfg evs m1).2
    = replicate admitted Next
      ++ replicate (n - admitted) (Reject 429 (rate_limit_message cfg))
  ∧ (S admitted <= Z.to_nat MAX)%nat
  ∧ ((Z.to_nat MAX <= n)%nat →
     S admitted = Z.to_nat MAX
     ∧ decisions_for key (run_rate_limiter cfg evs m1).2 !! (Z.to_nat MAX - 1)%nat
       = Some (Reject 429 (rate_limit_message cfg)))
  ∧ ∃ limit window,
      rate_limit_message cfg
      = lit "Rate limit exceeded. Maximum " ++ limit ++ lit " requests per "
        ++ window ++ lit " seconds. Please try again later."
      ∧ parseInt_string limit = Some MAX
      ∧ read_seconds window = Some W.
Proof.
  intros Hmax Hw Hw' Ht0 Hreset Hopen Hevs. rewrite rateLimit_opens by done.
  pose proof (window_decisions cfg key (t0 + W) evs Hevs 1
                (<[key := {| count := 1; resetTime := t0 + W |}]> m0)) as Hdec.
  simpl in Hdec. rewrite Hdec by (try lia; by rewrite lookup_insert_eq).
  split_and!; try done; try lia.
  - intros Hn. split; [lia|].
    rewrite lookup_app_r by (rewrite length_replicate; lia).
    rewrite length_replicate. apply lookup_replicate_2. lia.
  - exists (dec MAX), (render_seconds W). split_and!.
    + reflexivity.
    + destruct MAX as [|p|p] eqn:Hp; [lia| |lia].
      exact (parseInt_dec_pos p).
    + by apply read_render_seconds.
Qed.

End RateLimiterWindow.

(** C7 at work: with two requests allowed per second, a client opens a
    window at time 0; its next request passes, the third is refused, while
    another client and the sweep come in between. *)
Lemma rateLimit_window_witness :
  let key := lit "10.0.0.7" in
  let evs := [Request key 10; Sweep 20; Request (lit "10.0.0.8") 30; Request key 40] in
  (1 <= RATE_LIMIT_MAX_REQUESTS example_config <= MAX_SAFE_INTEGER
   ∧ opens_window ∅ key 0
   ∧ Forall (within_window key (0 + RATE_LIMIT_WINDOW_MS example_config)) evs)
  ∧ decisions_for key
      (run_rate_limiter example_config evs (rateLimit example_config key 0 ∅).1).2
    = [Next; Reject 429 (rate_limit_message example_config)].
Proof.
  intros key evs.
  assert (H1 : 1 <= RATE_LIMIT_MAX_REQUESTS example_config <= MAX_SAFE_INTEGER).
  { vm_compute. split; discriminate. }
  assert (H2 : opens_window ∅ key 0) by exact I.
  assert (H3 : Forall (within_window key (0 + RATE_LIMIT_WINDOW_MS example_config)) evs).
  { repeat constructor; simpl; intros; lia. }
  assert (H4 : 0 <= RATE_LIMIT_WINDOW_MS example_config) by (vm_compute; discriminate).
  assert (H5 : 1000 * RATE_LIMIT_WINDOW_MS example_config <= MAX_SAFE_INTEGER)
    by (vm_compute; discriminate).
  assert (H6 : 0 <= 0) by lia.
  assert (H7 : 0 + RATE_LIMIT_WINDOW_MS example_config <= MAX_SAFE_INTEGER)
    by (vm_compute; discriminate).
  split; [done|].
  exact (proj1 (proj2 (rateLimit_window example_config key 0 ∅ evs H1 H4 H5 H6 H7 H2 H3))).
Defined.

(** C7, counterexample. With a limit of 0 the request that opens a window is
    admitted all the same: one admission where the limit allows none. *)
Lemma zero_limit_admits_first :
  let key := lit "10.0.0.7" in
  RATE_LIMIT_MAX_REQUESTS closed_config = 0
  ∧ opens_window ∅ key 0
  ∧ decisions_for key
      (run_rate_limiter closed_config [Request key 0; Request key 1] ∅).2
    = [Next; Reject 429 (rate_limit_message closed_config)].
Proof.
  intros key. split; [reflexivity|]. split; [exact I|].
  vm_compute. reflexivity.
Qed.
